(** * Interaction-Transformation symbolic regression (SymbolicRegression.js)

    A shallow embedding of the IT model, its structural operators, the
    least-squares fitter, the three search strategies (ITES, ITLS,
    SYMTREE) and the LaTeX printer, followed by the properties established
    about them.

    Conventions of the embedding.
    - A JavaScript number is a value of [num]: an exact rational, one of the
      two infinities, or NaN.  Arithmetic follows IEEE 754 on the special
      values and is exact on finite ones (no rounding, no overflow, a single
      unsigned zero).
    - Exponents, sizes, budgets and loop indices are integers ([Z]).
    - The transcendental functions of the host ([Math.sin], [Math.cos],
      [Math.tan], [Math.sqrt], [Math.exp], [Math.log]) are an interface,
      [MathHost]; everything is stated for an arbitrary host.
    - [Math.random] draws from an explicit list of numbers that is threaded
      through the code; a run that needs more draws than supplied is
      [Exhausted].
    - A JavaScript exception is a [Throw].
    - [Number.prototype.toFixed] is an interface of the host as well
      ([Printing.NumberHost]). *)

From Stdlib Require Import List ZArith QArith Qabs Qreduction Qround Lia Lqa Bool
  Arith Sorted.
From Stdlib Require String Ascii DecimalString.
Import ListNotations.

Set Implicit Arguments.

(** ** Numbers *)

Module Num.

Inductive num : Type :=
| Fin (q : Q)
| PInf
| NInf
| NaN.

Definition fin (q : Q) : num := Fin (Qred q).
Definition of_Z (z : Z) : num := Fin (inject_Z z).

Definition Qltb (a b : Q) : bool := negb (Qle_bool b a).

Definition neg (x : num) : num :=
  match x with
  | Fin a => fin (- a)
  | PInf => NInf
  | NInf => PInf
  | NaN => NaN
  end.

Definition add (x y : num) : num :=
  match x, y with
  | NaN, _ => NaN
  | _, NaN => NaN
  | Fin a, Fin b => fin (a + b)
  | Fin _, PInf => PInf
  | Fin _, NInf => NInf
  | PInf, NInf => NaN
  | PInf, _ => PInf
  | NInf, PInf => NaN
  | NInf, _ => NInf
  end.

Definition sub (x y : num) : num := add x (neg y).

(** The infinity carrying the sign of [a]; [0 * Infinity] is NaN. *)
Definition signed_inf (a : Q) (pos : bool) : num :=
  match a ?= 0 with
  | Eq => NaN
  | Gt => if pos then PInf else NInf
  | Lt => if pos then NInf else PInf
  end.

Definition mul (x y : num) : num :=
  match x, y with
  | NaN, _ => NaN
  | _, NaN => NaN
  | Fin a, Fin b => fin (a * b)
  | Fin a, PInf => signed_inf a true
  | Fin a, NInf => signed_inf a false
  | PInf, Fin b => signed_inf b true
  | NInf, Fin b => signed_inf b false
  | PInf, PInf => PInf
  | NInf, NInf => PInf
  | PInf, NInf => NInf
  | NInf, PInf => NInf
  end.

Definition div (x y : num) : num :=
  match x, y with
  | NaN, _ => NaN
  | _, NaN => NaN
  | Fin a, Fin b =>
      if Qeq_bool b 0 then signed_inf a true else fin (a / b)
  | Fin _, PInf => Fin 0
  | Fin _, NInf => Fin 0
  | PInf, Fin b => if Qltb b 0 then NInf else PInf
  | NInf, Fin b => if Qltb b 0 then PInf else NInf
  | PInf, _ => NaN
  | NInf, _ => NaN
  end.

Definition abs (x : num) : num :=
  match x with
  | Fin a => fin (Qabs a)
  | PInf => PInf
  | NInf => PInf
  | NaN => NaN
  end.

(** [Math.pow(x, t)] for an integer exponent [t]. *)
Definition pow (x : num) (t : Z) : num :=
  if (t =? 0)%Z then Fin 1 else
  match x with
  | NaN => NaN
  | Fin a =>
      if (t <? 0)%Z && Qeq_bool a 0 then PInf else fin (Qpower a t)
  | PInf => if (0 <? t)%Z then PInf else Fin 0
  | NInf =>
      if (0 <? t)%Z then (if Z.odd t then NInf else PInf) else Fin 0
  end.

Definition ltb (x y : num) : bool :=
  match x, y with
  | NaN, _ => false
  | _, NaN => false
  | Fin a, Fin b => Qltb a b
  | Fin _, PInf => true
  | NInf, Fin _ => true
  | NInf, PInf => true
  | _, _ => false
  end.

Definition leb (x y : num) : bool :=
  match x, y with
  | NaN, _ => false
  | _, NaN => false
  | Fin a, Fin b => Qle_bool a b
  | _, PInf => true
  | NInf, _ => true
  | _, _ => false
  end.

Definition gtb (x y : num) : bool := ltb y x.
Definition geb (x y : num) : bool := leb y x.

(** [x == y] on numbers. *)
Definition eqb (x y : num) : bool :=
  match x, y with
  | Fin a, Fin b => Qeq_bool a b
  | PInf, PInf => true
  | NInf, NInf => true
  | _, _ => false
  end.

Definition isFinite (x : num) : bool :=
  match x with
  | Fin _ => true
  | _ => false
  end.

(** [x << 0]: truncation towards zero, then reduction to a signed 32-bit
    integer; the special values give 0. *)
Definition wrap32 (z : Z) : Z := ((z + 2 ^ 31) mod 2 ^ 32 - 2 ^ 31)%Z.

Definition toInt32 (x : num) : Z :=
  match x with
  | Fin a => wrap32 (Z.quot (Qnum a) (Zpos (Qden a)))
  | _ => 0%Z
  end.

(** [Math.round(p / d)] for integers [p] and [d <> 0]:
    [floor (p/d + 1/2)]. *)
Definition round_div (p d : Z) : Z := ((2 * p + d) / (2 * d))%Z.

End Num.

(** ** Exceptions and the two effects of the code *)

Inductive error : Type :=
| TypeError      (* a property of [undefined] is read, or [reduce] of an empty array *)
| RangeError     (* an invalid array length *)
| Exhausted      (* the supplied random draws (or the recursion budget) ran out *)
| Unsupported.   (* a value the embedding has no representation for *)

Inductive result (A : Type) : Type :=
| Ok (a : A)
| Throw (e : error).

Arguments Throw {A} e.

Definition rbind {A B : Type} (r : result A) (k : A -> result B) : result B :=
  match r with
  | Ok a => k a
  | Throw e => Throw e
  end.

Notation "x <-? c ;; k" := (rbind c (fun x => k))
  (at level 61, c at next level, right associativity).

(** The state of the random source: the draws still to come. *)
Definition rng : Type := list Q.

Definition M (A : Type) : Type := rng -> result (A * rng).

Definition ret {A : Type} (a : A) : M A := fun g => Ok (a, g).

Definition bind {A B : Type} (c : M A) (k : A -> M B) : M B :=
  fun g =>
    match c g with
    | Ok (a, g') => k a g'
    | Throw e => Throw e
    end.

Definition lift {A : Type} (r : result A) : M A :=
  fun g =>
    match r with
    | Ok a => Ok (a, g)
    | Throw e => Throw e
    end.

Notation "x <- c ;; k" := (bind c (fun x => k))
  (at level 61, c at next level, right associativity).

(** [Math.random()]: the next draw, a number in [0, 1). *)
Definition random : M Num.num :=
  fun g =>
    match g with
    | [] => Throw Exhausted
    | q :: g' =>
        if Qle_bool 0 q && Num.Qltb q 1 then Ok (Num.Fin q, g')
        else Throw Unsupported
    end.

(** ** Arrays *)

(** [zip(a, b)]: the pairs up to the shorter array. *)
Definition zip {A B : Type} (a : list A) (b : list B) : list (A * B) :=
  combine a b.

Fixpoint zip3 {A B C : Type} (a : list A) (b : list B) (c : list C)
  : list (A * B * C) :=
  match a, b, c with
  | x :: a', y :: b', z :: c' => (x, y, z) :: zip3 a' b' c'
  | _, _, _ => []
  end.

(** [Array.from({length: n}, f)] applies [f] to the indices below [n]. *)
Definition indices (n : Z) : list nat := seq 0 (Z.to_nat n).

(** [Array(n).fill(v)]. *)
Definition Array_fill {A : Type} (n : Z) (v : A) : result (list A) :=
  if ((n <? 0) || (2 ^ 32 <=? n))%Z then Throw RangeError
  else Ok (repeat v (Z.to_nat n)).

(** [a.splice(index, 1)]. *)
Fixpoint splice1 {A : Type} (index : nat) (a : list A) : list A :=
  match a, index with
  | [], _ => []
  | _ :: a', O => a'
  | x :: a', S i => x :: splice1 i a'
  end.

(** [a[i] = v] for an index inside the array or at its end; an index that
    would leave holes (or a negative one) is not represented. *)
Fixpoint set_nth {A : Type} (i : nat) (v : A) (a : list A) : result (list A) :=
  match a, i with
  | [], O => Ok [v]
  | [], S _ => Throw Unsupported
  | _ :: a', O => Ok (v :: a')
  | x :: a', S i' => a'' <-? set_nth i' v a' ;; Ok (x :: a'')
  end.

Definition set_index {A : Type} (i : Z) (v : A) (a : list A) : result (list A) :=
  if (i <? 0)%Z then Throw Unsupported else set_nth (Z.to_nat i) v a.

(** [a[i]], [None] standing for [undefined]. *)
Definition get_index {A : Type} (a : list A) (i : Z) : option A :=
  if (i <? 0)%Z then None else nth_error a (Z.to_nat i).

Definition range (start stop step : Z) : result (list Z) :=
  if (step =? 0)%Z then Throw RangeError else
  let n := (- ((start - stop) / step))%Z in   (* Math.ceil((stop - start) / step) *)
  if ((n <? 0) || (2 ^ 32 <=? n))%Z then Throw RangeError else
  let arr := map (fun y => (start + Z.of_nat y * step)%Z) (indices n) in
  Ok (if (List.length arr =? 0)%nat then [start] else arr).

(** ** The IT model *)

Inductive fn : Type := Fsin | Fcos | Ftan | Fabs | Fid | Fsqrt | Fexp | Flog.

Definition funsKeys : list fn := [Fsin; Fcos; Ftan; Fabs; Fid; Fsqrt; Fexp; Flog].

Definition fn_eqb (f g : fn) : bool :=
  match f, g with
  | Fsin, Fsin | Fcos, Fcos | Ftan, Ftan | Fabs, Fabs
  | Fid, Fid | Fsqrt, Fsqrt | Fexp, Fexp | Flog, Flog => true
  | _, _ => false
  end.

(** [f == g] where either side may be [undefined]. *)
Definition opt_fn_eqb (f g : option fn) : bool :=
  match f, g with
  | Some f', Some g' => fn_eqb f' g'
  | None, None => true
  | _, _ => false
  end.

Module IT.

Record t : Type := mk {
  terms  : list (list Z);
  funcs  : list fn;
  coeffs : list Num.num;
  length : Z;
  score  : option Num.num
}.

End IT.

(** The candidate term handed to [composeIT]. *)
Record newTerm : Type := mkTerm {
  term  : list Z;
  func  : fn;
  coeff : option Num.num
}.

Definition one : Num.num := Num.Fin 1.

Definition buildRootIT (nvars : Z) : result IT.t :=
  let terms :=
    map (fun termIdx =>
           map (fun tIdx => if (termIdx =? tIdx)%nat then 1%Z else 0%Z)
               (indices nvars))
        (indices nvars) in
  let funcs := map (fun _ => Fid) (indices nvars) in
  coeffs <-? Array_fill nvars one ;;
  Ok (IT.mk terms funcs coeffs nvars None).

Definition composeIT (m : IT.t) (nt : newTerm) : IT.t :=
  IT.mk (IT.terms m ++ [term nt])
        (IT.funcs m ++ [func nt])
        (IT.coeffs m ++ [match coeff nt with Some c => c | None => one end])
        (IT.length m + 1)
        (IT.score m).

Definition copyIT (m : IT.t) : IT.t :=
  IT.mk (map (fun term => term) (IT.terms m))
        (IT.funcs m) (IT.coeffs m) (IT.length m) (IT.score m).

Definition every_zero (term : list Z) : bool :=
  forallb (fun t => (t =? 0)%Z) term.

Definition same_exponents (term other : list Z) : bool :=
  forallb (fun '(t1, t2) => (t1 =? t2)%Z) (zip term other).

(** The inner [for] loop of [sanitizeIT]: one push of [tIndex] for every
    later index [i] holding the same exponents and the same function. *)
Fixpoint later_duplicates (m : IT.t) (term : list Z) (tIndex : nat)
         (later : list nat) : result (list nat) :=
  match later with
  | [] => Ok []
  | i :: later' =>
      match nth_error (IT.terms m) i with
      | None => Throw TypeError
      | Some other =>
          rest <-? later_duplicates m term tIndex later' ;;
          Ok (if same_exponents term other
                 && opt_fn_eqb (nth_error (IT.funcs m) tIndex)
                               (nth_error (IT.funcs m) i)
              then tIndex :: rest else rest)
      end
  end.

(** [IT.terms.forEach(...)], from index [tIndex] on. *)
Fixpoint toRemove_from (m : IT.t) (tIndex : nat) (ts : list (list Z))
  : result (list nat) :=
  match ts with
  | [] => Ok []
  | term :: ts' =>
      here <-? (if every_zero term then Ok [tIndex]
                else later_duplicates m term tIndex
                       (seq (S tIndex) (Z.to_nat (IT.length m) - S tIndex))) ;;
      rest <-? toRemove_from m (S tIndex) ts' ;;
      Ok (here ++ rest)
  end.

Definition toRemove (m : IT.t) : result (list nat) :=
  toRemove_from m 0 (IT.terms m).

Definition spliceIT (m : IT.t) (index : nat) : IT.t :=
  IT.mk (splice1 index (IT.terms m))
        (splice1 index (IT.funcs m))
        (splice1 index (IT.coeffs m))
        (IT.length m) (IT.score m).

(** The object passed to [sanitizeIT] once the splices are done and its
    [length] is refreshed: the function works in place. *)
Definition sanitize_inplace (m : IT.t) : result IT.t :=
  idx <-? toRemove m ;;
  let m' := fold_left spliceIT (rev idx) m in
  Ok (IT.mk (IT.terms m') (IT.funcs m') (IT.coeffs m')
            (Z.of_nat (List.length (IT.terms m'))) (IT.score m')).

Definition sanitizeIT (m : IT.t) : result IT.t :=
  let backup := copyIT m in
  m' <-? sanitize_inplace m ;;
  Ok (if (IT.length m' =? 0)%Z then backup else m').

(** The references of the model are well formed when the three parallel
    arrays and the cached [length] agree. *)
Definition wf (m : IT.t) : Prop :=
  List.length (IT.funcs m) = List.length (IT.terms m)
  /\ List.length (IT.coeffs m) = List.length (IT.terms m)
  /\ IT.length m = Z.of_nat (List.length (IT.terms m)).

(** ** The host's mathematical functions *)

Class MathHost : Type := {
  Math_sin  : Num.num -> Num.num;
  Math_cos  : Num.num -> Num.num;
  Math_tan  : Num.num -> Num.num;
  Math_sqrt : Num.num -> Num.num;
  Math_exp  : Num.num -> Num.num;
  Math_log  : Num.num -> Num.num
}.

(** ** Linear algebra of the fitter

    [fitIT] calls [math.transpose], [math.multiply] and [math.inv] of the
    math.js library, whose code is not part of the repository.  The three
    operations are modelled from the specification's description of the
    fitter (the normal equations, and a fit that is skipped when the matrix
    is not invertible); [None] stands for a call that raises an exception
    (all of them are made inside one [try] block). *)

Module MathJS.

Definition matrix : Type := list (list Num.num).

Definition column (j : nat) (A : matrix) : list Num.num :=
  map (fun row => nth j row Num.NaN) A.

Definition dot (u v : list Num.num) : Num.num :=
  fold_left Num.add (map (fun '(a, b) => Num.mul a b) (zip u v)) (Num.Fin 0).

(** Modelled from the spec: [math.transpose], absent from the sources.  The
    columns of [A] become rows; a matrix without columns is refused. *)
Definition transpose (A : matrix) : option matrix :=
  match A with
  | [] => Some []
  | row :: _ =>
      if (List.length row =? 0)%nat then None
      else Some (map (fun j => column j A) (seq 0 (List.length row)))
  end.

(** Modelled from the spec: [math.multiply], absent from the sources.  The
    matrix product; empty operands and mismatched dimensions are refused. *)
Definition multiply (A B : matrix) : option matrix :=
  match A, B with
  | rowA :: _, rowB :: _ =>
      if (List.length rowA =? List.length B)%nat
      then Some (map (fun row =>
                        map (fun j => dot row (column j B))
                            (seq 0 (List.length rowB)))
                     A)
      else None
  | _, _ => None
  end.

Definition sign (k : nat) : Num.num :=
  if Nat.even k then Num.Fin 1 else Num.Fin (-1).

(** Determinant by expansion along the first row. *)
Fixpoint det_rec (n : nat) (A : matrix) : Num.num :=
  match n, A with
  | S n', row :: rest =>
      fold_left Num.add
        (map (fun j =>
                Num.mul (Num.mul (sign j) (nth j row Num.NaN))
                        (det_rec n' (map (splice1 j) rest)))
             (seq 0 (List.length row)))
        (Num.Fin 0)
  | _, _ => Num.Fin 1
  end.

Definition det (A : matrix) : Num.num := det_rec (List.length A) A.

Definition minor (i j : nat) (A : matrix) : matrix :=
  map (splice1 j) (splice1 i A).

(** Modelled from the spec: [math.inv], absent from the sources.  The
    inverse as adjugate over determinant; it fails on a matrix that is not
    square or whose determinant is zero (a singular matrix). *)
Definition inv (A : matrix) : option matrix :=
  let n := List.length A in
  if (n =? 0)%nat || negb (forallb (fun row => (List.length row =? n)%nat) A)
  then None
  else
    let d := det A in
    if Num.eqb d (Num.Fin 0) then None
    else Some (map (fun i =>
                      map (fun j =>
                             Num.div (Num.mul (sign (i + j)) (det (minor j i A))) d)
                          (seq 0 n))
                   (seq 0 n)).

End MathJS.

(** ** Evaluation, fitting and pruning *)

Section Fitter.

Context {host : MathHost}.

(** The table [funs]. *)
Definition funs (f : fn) (x : Num.num) : Num.num :=
  match f with
  | Fsin => Math_sin x
  | Fcos => Math_cos x
  | Ftan => Math_tan x
  | Fabs => Num.abs x
  | Fid => x
  | Fsqrt => if Num.ltb x (Num.Fin 0) then Num.Fin 0 else Math_sqrt x
  | Fexp => if Num.geb x (Num.Fin 300) then Math_exp (Num.Fin 300) else Math_exp x
  | Flog => if Num.leb x (Num.Fin 0) then Num.Fin 0 else Math_log x
  end.

(** [zip(X, term).map(([x, t]) => Math.pow(x, t)).reduce(prod, 1)]. *)
Definition interaction (X : list Num.num) (term : list Z) : Num.num :=
  fold_left Num.mul (map (fun '(x, t) => Num.pow x t) (zip X term)) (Num.Fin 1).

Definition evalIT (m : IT.t) (X : list Num.num) : Num.num :=
  fold_left Num.add
    (map (fun '(c, f, term) => Num.mul c (funs f (interaction X term)))
         (zip3 (IT.coeffs m) (IT.funcs m) (IT.terms m)))
    (Num.Fin 0).

(** The design matrix [XsHat]. *)
Definition design (m : IT.t) (Xs : list (list Num.num)) : MathJS.matrix :=
  map (fun X =>
         map (fun '(f, term) => funs f (interaction X term))
             (zip (IT.funcs m) (IT.terms m)))
      Xs.

(** The body of the [try] block: the coefficients of the normal equations,
    or [None] when one of the library calls raises. *)
Definition leastSquares (XsHat : MathJS.matrix) (ys : list Num.num)
  : option (list Num.num) :=
  let ysHat := map (fun y => [y]) ys in
  match MathJS.transpose XsHat with
  | None => None
  | Some XsHatT =>
      match MathJS.multiply XsHatT XsHat with
      | None => None
      | Some gram =>
          match MathJS.inv gram with
          | None => None
          | Some q1 =>
              match MathJS.multiply XsHatT ysHat with
              | None => None
              | Some q2 =>
                  match MathJS.multiply q1 q2 with
                  | None => None
                  | Some ws => Some (map (fun w => nth 0 w Num.NaN) ws)
                  end
              end
          end
      end
  end.

Definition MAE (m : IT.t) (Xs : list (list Num.num)) (ys : list Num.num)
  : Num.num :=
  Num.div
    (fold_left Num.add
       (map (fun '(X, y) => Num.abs (Num.sub (evalIT m X) y)) (zip Xs ys))
       (Num.Fin 0))
    (Num.of_Z (Z.of_nat (List.length Xs))).

Definition fitIT (m : IT.t) (Xs : list (list Num.num)) (ys : list Num.num)
  : IT.t :=
  let coeffs :=
    match leastSquares (design m Xs) ys with
    | Some ws => ws
    | None => IT.coeffs m      (* catch: the coefficients stay *)
    end in
  let m1 := IT.mk (IT.terms m) (IT.funcs m) coeffs (IT.length m) (IT.score m) in
  let score := Num.div (Num.Fin 1) (Num.add (Num.Fin 1) (MAE m1 Xs ys)) in
  IT.mk (IT.terms m1) (IT.funcs m1) (IT.coeffs m1) (IT.length m1)
        (Some (if Num.isFinite score then score else Num.Fin 0)).

(** [a.filter((_, index) => p(index))], the first element having index
    [index]. *)
Fixpoint filter_index {A : Type} (p : nat -> bool) (index : nat) (a : list A)
  : list A :=
  match a with
  | [] => []
  | x :: a' =>
      if p index then x :: filter_index p (S index) a'
      else filter_index p (S index) a'
  end.

Definition findCoeffs (m : IT.t) (threshold : Num.num) (index : nat) : bool :=
  match nth_error (IT.coeffs m) index with
  | Some c => Num.gtb (Num.abs c) threshold
  | None => false       (* Math.abs(undefined) is NaN *)
  end.

Definition prune (m : IT.t) (threshold : Num.num) : IT.t :=
  IT.mk (filter_index (findCoeffs m threshold) 0 (IT.terms m))
        (filter_index (findCoeffs m threshold) 0 (IT.funcs m))
        (filter_index (findCoeffs m threshold) 0 (IT.coeffs m))
        (Z.of_nat (List.length
                     (filter_index (findCoeffs m threshold) 0 (IT.coeffs m))))
        None.

(** [simplifyIT]; the recursion is on a model with fewer coefficients, and
    [fuel] bounds its depth. *)
Fixpoint simplifyIT_rec (fuel : nat) (m : IT.t) (Xs : list (list Num.num))
         (ys : list Num.num) (nvars : Z) (threshold : Num.num) : IT.t :=
  let newIT := prune m threshold in
  if (IT.length newIT =? 0)%Z then m
  else if (IT.length newIT =? IT.length m)%Z then m
  else
    match fuel with
    | O => m
    | S fuel' => simplifyIT_rec fuel' (fitIT newIT Xs ys) Xs ys nvars threshold
    end.

Definition simplifyIT (m : IT.t) (Xs : list (list Num.num))
           (ys : list Num.num) (nvars : Z) (threshold : Num.num) : IT.t :=
  simplifyIT_rec (List.length (IT.coeffs m)) m Xs ys nvars threshold.

End Fitter.

(** ** Random builders and mutation *)

(** [Array.from({length: n}, f)] in the two effects. *)
Fixpoint mapM {A B : Type} (f : A -> M B) (a : list A) : M (list B) :=
  match a with
  | [] => ret []
  | x :: a' => y <- f x ;; ys <- mapM f a' ;; ret (y :: ys)
  end.

Fixpoint mapR {A B : Type} (f : A -> result B) (a : list A) : result (list B) :=
  match a with
  | [] => Ok []
  | x :: a' => y <-? f x ;; ys <-? mapR f a' ;; Ok (y :: ys)
  end.

Definition Array_from {A : Type} (n : Z) (f : nat -> M A) : M (list A) :=
  if (2 ^ 32 <=? n)%Z then lift (Throw RangeError) else mapM f (indices n).

(** [Math.random() * 2 * (expolim+1) - 1 - expolim << 0]. *)
Definition randomExponent (expolim : Z) : M Z :=
  r <- random ;;
  ret (Num.toInt32
         (Num.sub
            (Num.sub (Num.mul (Num.mul r (Num.of_Z 2)) (Num.of_Z (expolim + 1)))
                     (Num.of_Z 1))
            (Num.of_Z expolim))).

(** [funs[funsKeys[funsKeys.length * Math.random() << 0]]]. *)
Definition randomFun : M fn :=
  r <- random ;;
  match get_index funsKeys
          (Num.toInt32 (Num.mul (Num.of_Z (Z.of_nat (List.length funsKeys))) r)) with
  | Some f => ret f
  | None => lift (Throw Unsupported)
  end.

(** [createTerm]: a draw of [nvars] exponents, repeated while it is all
    zero. *)
Fixpoint createTerm_rec (fuel : nat) (nvars expolim : Z) : M (list Z) :=
  match fuel with
  | O => lift (Throw Exhausted)
  | S fuel' =>
      term <- Array_from nvars (fun _ => randomExponent expolim) ;;
      if every_zero term then createTerm_rec fuel' nvars expolim else ret term
  end.

Definition createTerm (nvars expolim : Z) : M (list Z) :=
  fun g => createTerm_rec (S (List.length g)) nvars expolim g.

Definition buildRandIT (nTerms nvars expolim : Z) : M IT.t :=
  terms <- Array_from nTerms (fun _ => createTerm nvars expolim) ;;
  funcs <- Array_from nTerms (fun _ => randomFun) ;;
  coeffs <- lift (Array_fill nTerms one) ;;
  ret (IT.mk terms funcs coeffs nTerms None).

Definition mutateopIT (m : IT.t) : M IT.t :=
  r <- random ;;
  let index := Num.toInt32 (Num.mul (Num.of_Z (IT.length m)) r) in
  f <- randomFun ;;
  funcs <- lift (set_index index f (IT.funcs m)) ;;
  ret (IT.mk (IT.terms m) funcs (IT.coeffs m) (IT.length m) (IT.score m)).

(** The model after the single assignment of [mutatetermsIT]. *)
Definition replaceExponent (m : IT.t) (nvars expolim : Z) : M IT.t :=
  r1 <- random ;;
  let termIdx := Num.toInt32 (Num.mul (Num.of_Z (IT.length m)) r1) in
  r2 <- random ;;
  let tIdx := Num.toInt32 (Num.mul (Num.of_Z nvars) r2) in
  t <- randomExponent expolim ;;
  match get_index (IT.terms m) termIdx with
  | None => lift (Throw TypeError)
  | Some term =>
      term' <- lift (set_index tIdx t term) ;;
      terms <- lift (set_index termIdx term' (IT.terms m)) ;;
      ret (IT.mk terms (IT.funcs m) (IT.coeffs m) (IT.length m) (IT.score m))
  end.

Definition mutatetermsIT (m : IT.t) (nvars expolim : Z) : M IT.t :=
  m' <- replaceExponent m nvars expolim ;;
  if existsb every_zero (IT.terms m')
  then buildRandIT (IT.length m') nvars expolim
  else ret m'.

(** ** The search strategies *)

(** A score as a number: a missing score reads as [undefined], NaN in a
    comparison. *)
Definition scoreOf (m : IT.t) : Num.num :=
  match IT.score m with
  | Some s => s
  | None => Num.NaN
  end.

Definition bestScore (bestExp currentExp : IT.t) : IT.t :=
  if Num.gtb (scoreOf currentExp) (scoreOf bestExp) then currentExp else bestExp.

(** [a.reduce(bestScore)], which raises on an empty array. *)
Definition reduce_bestScore (a : list IT.t) : result IT.t :=
  match a with
  | [] => Throw TypeError
  | x :: a' => Ok (fold_left bestScore a' x)
  end.

(** [Xs[0].length]. *)
Definition nvarsOf (Xs : list (list Num.num)) : result Z :=
  match Xs with
  | [] => Throw TypeError
  | X :: _ => Ok (Z.of_nat (List.length X))
  end.

(** [a.some(body)] over a loop that carries a state: it stops at the first
    index for which the body answers [true]. *)
Fixpoint someM {S : Type} (body : Z -> S -> M (S * bool)) (a : list Z) (st : S)
  : M S :=
  match a with
  | [] => ret st
  | i :: a' =>
      r <- body i st ;;
      if snd r then ret (fst r) else someM body a' (fst r)
  end.

Fixpoint someR {S : Type} (body : Z -> S -> result (S * bool)) (a : list Z)
         (st : S) : result S :=
  match a with
  | [] => Ok st
  | i :: a' =>
      r <-? body i st ;;
      if snd r then Ok (fst r) else someR body a' (fst r)
  end.

Section Search.

Context {host : MathHost}.

Variables (Xs : list (list Num.num)) (ys : list Num.num).

(** [Math.round(popSize / (maxSize - minSize + 1))] as an array length. *)
Definition shareOf (popSize minSize maxSize : Z) : result Z :=
  let d := (maxSize - minSize + 1)%Z in
  if (d =? 0)%Z
  then (if (0 <? popSize)%Z then Throw RangeError else Ok 0%Z)
  else Ok (Num.round_div popSize d).

(** The initial population of ITES and ITLS. *)
Definition initialPopulation (popSize minSize maxSize expolim nvars : Z)
  : M (list IT.t) :=
  sizes <- lift (range minSize (maxSize + 1) 1) ;;
  groups <- mapM (fun expSize =>
                    n <- lift (shareOf popSize minSize maxSize) ;;
                    Array_from n (fun _ =>
                      m <- buildRandIT expSize nvars expolim ;;
                      s <- lift (sanitizeIT m) ;;
                      ret (fitIT s Xs ys)))
                 sizes ;;
  ret (concat groups).

(** The tournament of two: [pop[pop.length * Math.random() << 0]] twice,
    the copy of the better one. *)
Definition tournament (pop : list IT.t) : M IT.t :=
  r1 <- random ;;
  r2 <- random ;;
  let pick r :=
    get_index pop (Num.toInt32 (Num.mul (Num.of_Z (Z.of_nat (List.length pop))) r)) in
  match pick r1, pick r2 with
  | Some exp1, Some exp2 =>
      ret (copyIT (if Num.gtb (scoreOf exp1) (scoreOf exp2) then exp1 else exp2))
  | _, _ => lift (Throw TypeError)
  end.

Definition mutate (nvars expolim : Z) (parentIT : IT.t) : M IT.t :=
  r <- random ;;
  m <- (if Num.gtb r (Num.Fin (1 # 2)) then mutateopIT parentIT
        else mutatetermsIT parentIT nvars expolim) ;;
  s <- lift (sanitizeIT m) ;;
  ret (fitIT s Xs ys).

(** One generation of ITES on the state [(pop, best)]. *)
Definition ITES_generation (popSize selectedSize expolim nvars : Z)
           (stopScore : Num.num) (g : Z) (st : list IT.t * IT.t)
  : M (list IT.t * IT.t * bool) :=
  let pop := fst st in
  parents <- Array_from selectedSize (fun _ => tournament pop) ;;
  parents <- mapM (mutate nvars expolim) parents ;;
  pop <- Array_from popSize (fun _ => tournament parents) ;;
  best <- lift (reduce_bestScore pop) ;;
  ret (pop, best, Num.geb (scoreOf best) stopScore).

Definition threshold_final : Num.num := Num.Fin (1 # 200).

Definition ITES (popSize selectedSize minSize maxSize expolim generations : Z)
           (stopScore : Num.num) : M IT.t :=
  nvars <- lift (nvarsOf Xs) ;;
  pop <- initialPopulation popSize minSize maxSize expolim nvars ;;
  best <- lift (reduce_bestScore pop) ;;
  gens <- lift (range 0 generations 1) ;;
  st <- someM (ITES_generation popSize selectedSize expolim nvars stopScore)
              gens (pop, best) ;;
  ret (simplifyIT (snd st) Xs ys nvars threshold_final).

(** The neighbour of [best] for one term, function, variable and
    increment; [None] is the [undefined] that [filter(Boolean)] drops. *)
Definition neighbor (best : IT.t) (termIdx opIdx tIdx : nat) (tIncrement : Z)
  : result (option IT.t) :=
  let nb := copyIT best in
  match nth_error (IT.terms nb) termIdx with
  | None => Throw TypeError
  | Some term =>
      match nth_error term tIdx with
      | None => Throw Unsupported      (* undefined + tIncrement is NaN *)
      | Some t =>
          term' <-? set_nth tIdx (t + tIncrement)%Z term ;;
          terms <-? set_nth termIdx term' (IT.terms nb) ;;
          match nth_error funsKeys opIdx with
          | None => Throw Unsupported
          | Some f =>
              funcs <-? set_nth termIdx f (IT.funcs nb) ;;
              Ok (if every_zero term' then None
                  else Some (IT.mk terms funcs (IT.coeffs nb) (IT.length nb)
                                   (IT.score nb)))
          end
      end
  end.

Definition somes {A : Type} (a : list (option A)) : list A :=
  flat_map (fun o => match o with Some x => [x] | None => [] end) a.

Definition neighbors (best : IT.t) (nvars : Z) : result (list IT.t) :=
  per_term <-? mapR (fun termIdx =>
    per_op <-? mapR (fun opIdx =>
      per_var <-? mapR (fun tIdx =>
        per_inc <-? mapR (neighbor best termIdx opIdx tIdx) [(-1)%Z; 0%Z; 1%Z] ;;
        Ok (somes per_inc))
        (indices nvars) ;;
      Ok (concat per_var))
      (indices (Z.of_nat (List.length funsKeys))) ;;
    Ok (concat per_op))
    (indices (IT.length best)) ;;
  Ok (concat per_term).

(** One neighbour of the scan.  [sanitizeIT] and [fitIT] work in place: when
    [sanitizeIT] hands back its argument, [neigh] is the fitted model
    afterwards; when it hands back the backup, [neigh] is left spliced. *)
Definition ITLS_accept (best neigh : IT.t) : result IT.t :=
  spliced <-? sanitize_inplace neigh ;;
  returned <-? sanitizeIT neigh ;;
  let fitted := fitIT returned Xs ys in
  let neigh' := if (IT.length spliced =? 0)%Z then spliced else fitted in
  Ok (if Num.gtb (scoreOf fitted) (scoreOf best) then neigh' else best).

(** [neighbors.some(...)]: the scan stops once the best score reaches
    [stopScore]. *)
Fixpoint ITLS_scan (stopScore : Num.num) (best : IT.t) (ns : list IT.t)
  : result (IT.t * bool) :=
  match ns with
  | [] => Ok (best, false)
  | neigh :: ns' =>
      best' <-? ITLS_accept best neigh ;;
      if Num.geb (scoreOf best') stopScore then Ok (best', true)
      else ITLS_scan stopScore best' ns'
  end.

Definition ITLS_iteration (nvars : Z) (stopScore : Num.num) (i : Z) (best : IT.t)
  : result (IT.t * bool) :=
  ns <-? neighbors best nvars ;;
  ITLS_scan stopScore best ns.

Definition ITLS (popSize minSize maxSize expolim iterations : Z)
           (stopScore : Num.num) : M IT.t :=
  nvars <- lift (nvarsOf Xs) ;;
  pop <- initialPopulation popSize minSize maxSize expolim nvars ;;
  best <- lift (reduce_bestScore pop) ;;
  its <- lift (range 0 iterations 1) ;;
  best <- lift (someR (ITLS_iteration nvars stopScore) its best) ;;
  ret (simplifyIT best Xs ys nvars threshold_final).

End Search.

Section TreeSearch.

Context {host : MathHost}.

Variables (Xs : list (list Num.num)) (ys : list Num.num).

(** [leaf.terms[j]] where the source goes on to read its elements. *)
Definition termAt (leaf : IT.t) (j : nat) : result (list Z) :=
  match nth_error (IT.terms leaf) j with
  | Some t => Ok t
  | None => Throw TypeError
  end.

(** The pushes of the inner loop over [k] for the pair [(j, k)]. *)
Definition pairCandidates (i minI : Z) (leaf : IT.t) (j k : nat)
  : result (list newTerm) :=
  tj <-? termAt leaf j ;;
  tk <-? termAt leaf k ;;
  Ok (mkTerm (map (fun '(t1, t2) => (t1 + t2)%Z) (zip tj tk)) Fid None
      :: (if (minI <=? i)%Z
          then [mkTerm (map (fun '(t1, t2) => (t1 - t2)%Z) (zip tj tk)) Fid None]
          else [])).

(** The pushes of the loop over [funsKeys] for the term [j]. *)
Definition swapCandidates (leaf : IT.t) (j : nat) : result (list newTerm) :=
  per_key <-? mapR (fun f =>
    if negb (opt_fn_eqb (Some f) (nth_error (IT.funcs leaf) j))
    then (tj <-? termAt leaf j ;; Ok [mkTerm tj f None])
    else Ok [])
    funsKeys ;;
  Ok (concat per_key).

(** [toExpand] before it is filtered. *)
Definition candidates (i minI minT : Z) (leaf : IT.t) : result (list newTerm) :=
  let n := Z.to_nat (IT.length leaf) in
  per_j <-? mapR (fun j =>
    pairs <-? mapR (pairCandidates i minI leaf j) (seq j (n - j)) ;;
    swaps <-? (if (minT <=? i)%Z then swapCandidates leaf j else Ok []) ;;
    Ok (concat pairs ++ swaps))
    (seq 0 n) ;;
  Ok (concat per_j).

(** [fitIT(sanitizeIT(composeIT(copyIT(base), term)), Xs, ys)]. *)
Definition attempt (base : IT.t) (nt : newTerm) : result IT.t :=
  s <-? sanitizeIT (composeIT (copyIT base) nt) ;;
  Ok (fitIT s Xs ys).

Fixpoint filterR {A : Type} (p : A -> result bool) (a : list A) : result (list A) :=
  match a with
  | [] => Ok []
  | x :: a' =>
      b <-? p x ;;
      rest <-? filterR p a' ;;
      Ok (if b then x :: rest else rest)
  end.

Definition improves (leaf : IT.t) (nt : newTerm) : result bool :=
  a <-? attempt leaf nt ;;
  Ok (Num.gtb (scoreOf a) (scoreOf leaf)).

(** One pass of the greedy search: the candidates that did not improve the
    running best stay in [toExpand]. *)
Fixpoint greedyPass (greedyBest : IT.t) (toExpand : list newTerm)
  : result (IT.t * list newTerm) :=
  match toExpand with
  | [] => Ok (greedyBest, [])
  | nt :: rest =>
      a <-? attempt greedyBest nt ;;
      if Num.gtb (scoreOf a) (scoreOf greedyBest)
      then greedyPass (copyIT a) rest
      else (r <-? greedyPass greedyBest rest ;; Ok (fst r, nt :: snd r))
  end.

(** The [while (toExpand.length > 0)] loop; [fuel] bounds the number of
    passes. *)
Fixpoint greedySearch (fuel : nat) (nvars : Z) (threshold : Num.num)
         (leaf : IT.t) (toExpand : list newTerm) : result (list IT.t) :=
  match toExpand with
  | [] => Ok []
  | _ :: _ =>
      match fuel with
      | O => Throw Exhausted
      | S fuel' =>
          r <-? greedyPass leaf toExpand ;;
          let greedyBest := simplifyIT (fst r) Xs ys nvars threshold in
          children <-? greedySearch fuel' nvars threshold leaf (snd r) ;;
          Ok (greedyBest :: children)
      end
  end.

Definition expandLeaf (nvars : Z) (threshold : Num.num) (i minI minT : Z)
           (leaf : IT.t) : result (list IT.t) :=
  toExpand <-? candidates i minI minT leaf ;;
  toExpand <-? filterR (improves leaf) toExpand ;;
  children <-? greedySearch (List.length toExpand) nvars threshold leaf toExpand ;;
  Ok (match children with [] => [leaf] | _ :: _ => children end).

Definition SYMTREE_iteration (nvars : Z) (threshold : Num.num) (minI minT : Z)
           (stopScore : Num.num) (i : Z) (leaves : list IT.t)
  : result (list IT.t * bool) :=
  nodes <-? mapR (expandLeaf nvars threshold i minI minT) leaves ;;
  let leaves' := concat nodes in
  b <-? reduce_bestScore leaves' ;;
  Ok (leaves', Num.geb (scoreOf b) stopScore).

Definition SYMTREE (iterations : Z) (threshold : Num.num) (minI minT : Z)
           (stopScore : Num.num) : result IT.t :=
  nvars <-? nvarsOf Xs ;;
  root <-? buildRootIT nvars ;;
  let best := fitIT root Xs ys in
  its <-? range 0 iterations 1 ;;
  leaves <-? someR (SYMTREE_iteration nvars threshold minI minT stopScore)
                   its [best] ;;
  b <-? reduce_bestScore leaves ;;
  Ok (simplifyIT b Xs ys nvars threshold_final).

End TreeSearch.

(** ** Reference definitions

    The definitions below follow the wording of the specification; the
    properties compare them with the code above. *)

Section Reference.

Context {host : MathHost}.

(** The product over the variables [v] of [X[v]] raised to [exps[v]]. *)
Definition termProduct (X : list Num.num) (exps : list Z) : Num.num :=
  fold_left Num.mul
    (map (fun v => Num.pow (nth v X Num.NaN) (nth v exps 0%Z))
         (seq 0 (List.length X)))
    (Num.Fin 1).

(** The sum over the terms [i] of [coeffs[i] * funcs[i] (product)]. *)
Definition weightedSum (m : IT.t) (X : list Num.num) : Num.num :=
  fold_left Num.add
    (map (fun i =>
            Num.mul (nth i (IT.coeffs m) Num.NaN)
                    (funs (nth i (IT.funcs m) Fid)
                          (termProduct X (nth i (IT.terms m) []))))
         (seq 0 (List.length (IT.terms m))))
    (Num.Fin 0).

End Reference.


(** The model carries a score that is a finite number. *)
Definition hasFiniteScore (m : IT.t) : Prop :=
  exists q, IT.score m = Some (Num.Fin q).

(** Term [i] repeats the exponents and the function of term [tIndex]. *)
Definition duplicateOf (m : IT.t) (tIndex i : nat) : bool :=
  same_exponents (nth tIndex (IT.terms m) []) (nth i (IT.terms m) [])
  && opt_fn_eqb (nth_error (IT.funcs m) tIndex) (nth_error (IT.funcs m) i).

Definition laterDuplicates (m : IT.t) (k : nat) : list nat :=
  filter (duplicateOf m k) (seq (S k) (List.length (IT.terms m) - S k)).

(** The indices that [sanitizeIT] pushes in round [k] of its [forEach]. *)
Definition pushes (m : IT.t) (k : nat) : list nat :=
  if every_zero (nth k (IT.terms m) []) then [k]
  else map (fun _ => k) (laterDuplicates m k).

(** Term [k] is not all zero and is the last occurrence of its exponents
    and function. *)
Definition keptLast (m : IT.t) (k : nat) : bool :=
  negb (every_zero (nth k (IT.terms m) []))
  && (List.length (laterDuplicates m k) =? 0)%nat.

(** The model reduced to the terms that are not all zero and have no later
    duplicate, in their order, each with its own function and coefficient. *)
Definition keepLast (m : IT.t) : IT.t :=
  IT.mk (filter_index (keptLast m) 0 (IT.terms m))
        (filter_index (keptLast m) 0 (IT.funcs m))
        (filter_index (keptLast m) 0 (IT.coeffs m))
        (Z.of_nat (List.length (filter_index (keptLast m) 0 (IT.terms m))))
        (IT.score m).

(** How often [sanitizeIT] pushes the index [k]. *)
Definition pushCount (m : IT.t) (k : nat) : nat :=
  if every_zero (nth k (IT.terms m) []) then 1%nat
  else List.length (laterDuplicates m k).

(** The indices that survive the splices of [sanitizeIT]. *)
Definition survivors (m : IT.t) : list nat :=
  fold_right (fun index a => splice1 index a)
             (seq 0 (List.length (IT.terms m)))
             (flat_map (pushes m) (seq 0 (List.length (IT.terms m)))).

(** Indices of a segment [a .. b) that are increasing and all kept. *)
Definition good (m : IT.t) (a b : nat) (R : list nat) : Prop :=
  StronglySorted lt R
  /\ Forall (fun k => (a <= k < b)%nat /\ keptLast m k = true) R.

(** The model holds no all-zero exponent vector and no two terms with the
    same exponents and the same function. *)
Definition clean (m : IT.t) : Prop :=
  existsb every_zero (IT.terms m) = false
  /\ forall i j, (i < j < List.length (IT.terms m))%nat ->
                 duplicateOf m i j = false.

Definition elementwise (op : Z -> Z -> Z) (a b : list Z) : list Z :=
  map (fun '(t1, t2) => op t1 t2) (zip a b).


(** The pushes of [candidates] on a well-formed leaf, without the checks. *)
Definition pairPure (i minI : Z) (leaf : IT.t) (j k : nat) : list newTerm :=
  mkTerm (elementwise Z.add (nth j (IT.terms leaf) []) (nth k (IT.terms leaf) []))
         Fid None
  :: (if (minI <=? i)%Z
      then [mkTerm (elementwise Z.sub (nth j (IT.terms leaf) [])
                                      (nth k (IT.terms leaf) []))
                   Fid None]
      else []).

Definition swapPure (leaf : IT.t) (j : nat) : list newTerm :=
  flat_map (fun f => if negb (opt_fn_eqb (Some f) (nth_error (IT.funcs leaf) j))
                     then [mkTerm (nth j (IT.terms leaf) []) f None] else [])
           funsKeys.

Definition candidatesPure (i minI minT : Z) (leaf : IT.t) : list newTerm :=
  let n := List.length (IT.terms leaf) in
  flat_map (fun j => flat_map (pairPure i minI leaf j) (seq j (n - j))
                     ++ (if (minT <=? i)%Z then swapPure leaf j else []))
           (seq 0 n).

(** The score that [fitIT] derives from a mean absolute error. *)
Definition scoreFromMAE (mae : Num.num) : Num.num :=
  Num.div (Num.Fin 1) (Num.add (Num.Fin 1) mae).

(** The values a mean absolute error can take: a finite number that is not
    negative, [Infinity] or NaN. *)
Definition nonneg (x : Num.num) : Prop :=
  match x with
  | Num.Fin q => 0 <= q
  | Num.PInf => True
  | Num.NInf => False
  | Num.NaN => True
  end.

(** A host whose library functions answer NaN.  It instantiates the
    statements on concrete inputs. *)
Definition nanHost : MathHost :=
  Build_MathHost (fun _ => Num.NaN) (fun _ => Num.NaN) (fun _ => Num.NaN)
                 (fun _ => Num.NaN) (fun _ => Num.NaN) (fun _ => Num.NaN).

(** ** Concrete inputs *)

(** The unfitted root model on two variables. *)
Definition root2 : IT.t :=
  IT.mk [[1; 0]; [0; 1]]%Z [Fid; Fid] [Num.Fin 1; Num.Fin 1] 2 None.

(** Two copies of one term, told apart by their coefficients. *)
Definition duplicate_pair : IT.t :=
  IT.mk [[1%Z]; [1%Z]] [Fid; Fid] [Num.Fin 2; Num.Fin 3] 2 None.

(** Three copies of one term. *)
Definition triplicate : IT.t :=
  IT.mk [[1%Z]; [1%Z]; [1%Z]] [Fid; Fid; Fid]
        [Num.Fin 1; Num.Fin 1; Num.Fin 1] 3 None.

(** Three copies of one term followed by another term. *)
Definition triplicate_and_one : IT.t :=
  IT.mk [[1%Z]; [1%Z]; [1%Z]; [2%Z]] [Fid; Fid; Fid; Fid]
        [Num.Fin 1; Num.Fin 1; Num.Fin 1; Num.Fin 1] 4 None.

(** A one-sample dataset on which the column of [log(x)] is zero. *)
Definition singular_model : IT.t := IT.mk [[1%Z]] [Flog] [Num.Fin 7] 1 None.
Definition singular_Xs : list (list Num.num) := [[Num.Fin (-1)]].
Definition singular_ys : list Num.num := [Num.Fin 1].

(** A mutation that zeroes the only exponent of a one-term model; the
    remaining draws rebuild the model as [sin(x^1)]. *)
Definition single_term : IT.t := IT.mk [[1%Z]] [Fid] [Num.Fin 1] 1 None.
Definition rebuild_draws : rng := [0; 0; 1 # 2; 3 # 4; 0].
Definition rebuilt : IT.t := IT.mk [[1%Z]] [Fsin] [Num.Fin 1] 1 None.

(** The best model of ITLS after one iteration from [regress_after]. *)
Definition local_after : IT.t :=
  IT.mk [[1%Z]] [Fabs] [Num.Fin 1] 1 (Some (Num.Fin 1)).

(** A run of ITES: population of one, one parent, one sample [x = -1],
    [y = 1]; the draws build the term [x^1] with function [id], select it,
    and mutate its function to [log]. *)
Definition regress_Xs : list (list Num.num) := [[Num.Fin (-1)]].
Definition regress_ys : list Num.num := [Num.Fin 1].
Definition regress_draws : rng := [3 # 4; 1 # 2; 0; 0; 3 # 4; 0; 7 # 8; 0; 0].
Definition regress_before : IT.t :=
  IT.mk [[1%Z]] [Fid] [Num.Fin (-1)] 1 (Some (Num.Fin 1)).
Definition regress_after : IT.t :=
  IT.mk [[1%Z]] [Flog] [Num.Fin (-1)] 1 (Some (Num.Fin (1 # 2))).

(** A run of SYMTREE: [y = x + 2 x^2] sampled at [x = 1/10] and [x = 1/5],
    pruning threshold 1. *)
Definition tree_Xs : list (list Num.num) := [[Num.Fin (1 # 10)]; [Num.Fin (1 # 5)]].
Definition tree_ys : list Num.num := [Num.Fin (3 # 25); Num.Fin (7 # 25)].
Definition tree_before : IT.t :=
  IT.mk [[1%Z]] [Fid] [Num.Fin (34 # 25)] 1 (Some (Num.Fin (250 # 253))).
Definition tree_after : IT.t :=
  IT.mk [[2%Z]] [Fid] [Num.Fin (124 # 17)] 1 (Some (Num.Fin (34 # 35))).

(** ** Predicates used by the properties of the builders and the searches *)



(** A value that [Math.random] may return. *)
Definition validDraw (r : Q) : Prop := 0 <= r /\ r < 1.

(** Every exponent lies between [-(expolim + 1)] and [expolim]. *)
Definition exponentsWithin (expolim : Z) (term : list Z) : Prop :=
  Forall (fun e => (- (expolim + 1) <= e <= expolim)%Z) term.

(** [a'] is [a] with the element at index [i] replaced by [v]. *)
Definition replacedAt {A : Type} (i : nat) (v : A) (a a' : list A) : Prop :=
  List.length a' = List.length a
  /\ nth_error a' i = Some v
  /\ forall k, k <> i -> nth_error a' k = nth_error a k.

(** What ITES keeps true of every model of its population: aligned arrays,
    a finite score, and between 1 and [maxSize] terms. *)
Definition member (maxSize : Z) (m : IT.t) : Prop :=
  wf m /\ hasFiniteScore m /\ (1 <= IT.length m <= maxSize)%Z.

(** Every exponent vector has one entry per variable. *)
Definition shaped (nvars : Z) (m : IT.t) : Prop :=
  Forall (fun term => List.length term = Z.to_nat nvars) (IT.terms m).

(** What a neighbour of [best] in ITLS shares with it. *)
Definition neighbourly (nvars : Z) (best n : IT.t) : Prop :=
  wf n /\ shaped nvars n /\ IT.length n = IT.length best
  /\ IT.score n = IT.score best.

(** What ITLS keeps true of its best model. *)
Definition tracked (nvars bound : Z) (m : IT.t) : Prop :=
  wf m /\ shaped nvars m /\ (IT.length m <= bound)%Z.

(** A number with its fraction in lowest terms. *)
Definition norm (x : Num.num) : Num.num :=
  match x with
  | Num.Fin a => Num.Fin (Qred a)
  | _ => x
  end.

(** The exponent vector of the root model for variable [k], from position
    [s] on. *)
Definition unit (k : nat) (s len : nat) : list Z :=
  map (fun tIdx => if (k =? tIdx)%nat then 1%Z else 0%Z) (seq s len).

(** [a] is [b] with some elements left out, the others in their order. *)
Inductive sublist {A : Type} : list A -> list A -> Prop :=
| sublist_nil : sublist [] []
| sublist_keep x a b : sublist a b -> sublist (x :: a) (x :: b)
| sublist_drop x a b : sublist a b -> sublist a (x :: b).

(** The terms of a model: each function with its exponent vector. *)
Definition termsOf (m : IT.t) : list (fn * list Z) := zip (IT.funcs m) (IT.terms m).

(** The model without terms. *)
Definition empty_model : IT.t := IT.mk [] [] [] 0 None.

(** ** Printing

    [String.prototype.format] and [printIT_latex].  Strings are values of
    [string]; [Number.prototype.toFixed] belongs to the host, like
    [Math.sin], and is a parameter; the integers substituted into a
    template are converted by [showZ]. *)

Module Printing.

Import Ascii String.
Local Open Scope string_scope.

Class NumberHost : Type := {
  Number_toFixed : Num.num -> Z -> string
}.

(** [String(z)] for an integer. *)
Definition showZ (z : Z) : string :=
  DecimalString.NilZero.string_of_int (Z.to_int z).

(** [f.name] for the functions of the table [funs]. *)
Definition name (f : fn) : string :=
  match f with
  | Fsin => "sin" | Fcos => "cos" | Ftan => "tan" | Fabs => "abs"
  | Fid => "id" | Fsqrt => "sqrt" | Fexp => "exp" | Flog => "log"
  end.

Definition isDigit (c : ascii) : bool :=
  (48 <=? nat_of_ascii c)%nat && (nat_of_ascii c <=? 57)%nat.

(** The longest prefix of digits, and what follows it. *)
Fixpoint digits (s : string) : string * string :=
  match s with
  | String c s' =>
      if isDigit c then (String c (fst (digits s')), snd (digits s'))
      else (EmptyString, s)
  | EmptyString => (EmptyString, EmptyString)
  end.

Fixpoint natOfDigits (acc : nat) (s : string) : nat :=
  match s with
  | String c s' => natOfDigits (10 * acc + (nat_of_ascii c - 48)) s'
  | EmptyString => acc
  end.

(** [args[number]]: the digits [number] name an element only when they are
    written without a leading zero. *)
Definition argument (args : list string) (number : string) : option string :=
  match number with
  | String "0" (String _ _) => None
  | _ => nth_error args (natOfDigits 0 number)
  end.

(** [this.replace(/{(\d+)}/g, ...)]: every [{n}] is replaced by [args[n]]
    when that is defined and is left as it is otherwise; the text put in is
    not scanned again.  [fuel] bounds the scan by the length of the
    string. *)
Fixpoint format_scan (fuel : nat) (s : string) (args : list string) : string :=
  match fuel with
  | O => s
  | S fuel' =>
      match s with
      | EmptyString => EmptyString
      | String c rest =>
          if Ascii.eqb c "{" then
            match digits rest with
            | (String d ds, String c2 rest') =>
                if Ascii.eqb c2 "}" then
                  (match argument args (String d ds) with
                   | Some a => a
                   | None => String c (String d ds ++ "}")
                   end) ++ format_scan fuel' rest' args
                else String c (format_scan fuel' rest args)
            | _ => String c (format_scan fuel' rest args)
            end
          else String c (format_scan fuel' rest args)
      end
  end.

Definition format (s : string) (args : list string) : string :=
  format_scan (String.length s) s args.

(** [Boolean(s)] on a string: the empty string is dropped by
    [filter(Boolean)]. *)
Definition nonEmpty (s : string) : bool := negb (String.eqb s EmptyString).

(** One round of [term.forEach] in [printIT_latex]: a factor of the
    numerator for a positive exponent, of the denominator for a negative
    one, nothing for the exponent 0. *)
Definition pushFactor (acc : list string * list string) (ti : Z * nat)
  : list string * list string :=
  let '(nom, den) := acc in
  let '(t, index) := ti in
  if (t =? 1)%Z
  then ((nom ++ [format "x{0}" [showZ (Z.of_nat index)]])%list, den)
  else if (1 <? t)%Z
  then ((nom ++ [format "x{0}^{{1}}" [showZ (Z.of_nat index); showZ t]])%list, den)
  else if (t =? -1)%Z
  then (nom, (den ++ [format "x{0}" [showZ (Z.of_nat index)]])%list)
  else if (t <? -1)%Z
  then (nom, (den ++ [format "x{0}^{{1}}"
                             [showZ (Z.of_nat index); showZ (-1 * t)]])%list)
  else (nom, den).

Section Printers.

Context {numberHost : NumberHost}.

(** The summand of one term, [None] standing for [undefined]. *)
Definition latexTerm (c : Num.num) (f : fn) (term : list Z) : option string :=
  let c_str :=
    if String.eqb (Number_toFixed c 3) "1.000" then EmptyString
    else format "{0} \cdot " [Number_toFixed c 3] in
  let pushed :=
    fold_left pushFactor (combine term (seq 0 (List.length term))) ([], []) in
  let nom := String.concat " \cdot " (filter nonEmpty (fst pushed)) in
  let den := String.concat " \cdot " (filter nonEmpty (snd pushed)) in
  let f_str := fun wrap =>
    if String.eqb (name f) "id" then wrap else name f ++ "(" ++ wrap ++ ")" in
  if (String.length nom =? 0)%nat && (String.length den =? 0)%nat then None
  else if (String.length nom =? 0)%nat
  then Some (c_str ++ f_str (format "\frac{1}{{0}}" [den]))
  else if (String.length den =? 0)%nat
  then Some (c_str ++ f_str (format "{0}" [nom]))
  else Some (c_str ++ f_str (format "\frac{{0}}{{1}}" [nom; den])).

(** [printIT_latex(IT, false)]: one entry per term. *)
Definition printIT_latex_list (m : IT.t) : list (option string) :=
  map (fun '(c, f, term) => latexTerm c f term)
      (zip3 (IT.coeffs m) (IT.funcs m) (IT.terms m)).

(** [printIT_latex(IT)]. *)
Definition printIT_latex (m : IT.t) : string :=
  String.concat " + " (filter nonEmpty (somes (printIT_latex_list m))).

End Printers.

(** A host that prints every number with three decimals as [2.500]; it
    instantiates the statements on concrete inputs. *)
Definition constantHost : NumberHost :=
  Build_NumberHost (fun _ _ => "2.500").

(** Both lists of factors hold no empty string. *)
Definition allNonEmpty (acc : list string * list string) : Prop :=
  Forall (fun s => nonEmpty s = true) (fst acc)
  /\ Forall (fun s => nonEmpty s = true) (snd acc).

Definition pushedCount (acc : list string * list string) : nat :=
  (List.length (fst acc) + List.length (snd acc))%nat.

Definition isUndefined {A : Type} (o : option A) : bool :=
  match o with
  | Some _ => false
  | None => true
  end.

End Printing.

(** A model with a term whose exponents are all zero. *)
Definition with_constant : IT.t :=
  IT.mk [[1; -2]; [0; 0]; [0; 3]]%Z [Fid; Fsin; Flog]
        [Num.Fin 1; Num.Fin 1; Num.Fin 1] 3 None.

(** * Properties *)

(** ** Monads and arrays *)

Lemma bind_ext {A B : Type} (c : M A) (k1 k2 : A -> M B) (g : rng) :
  (forall a g', k1 a g' = k2 a g') -> bind c k1 g = bind c k2 g.
Proof.
  intros E. unfold bind. destruct (c g) as [[a g']|e]; [apply E|reflexivity].
Qed.

Lemma rbind_ext {A B : Type} (c : result A) (k1 k2 : A -> result B) :
  (forall a, k1 a = k2 a) -> rbind c k1 = rbind c k2.
Proof.
  intros E. destruct c; [apply E|reflexivity].
Qed.

Lemma lift_bind {A B : Type} (a : A) (k : A -> M B) (g : rng) :
  bind (lift (Ok a)) k g = k a g.
Proof. reflexivity. Qed.

Lemma someM_single {S : Type} (body : Z -> S -> M (S * bool)) i st g :
  someM body [i] st g = (r <- body i st ;; ret (fst r)) g.
Proof.
  simpl. unfold bind. destruct (body i st g) as [[r g']|e]; [|reflexivity].
  destruct (snd r); reflexivity.
Qed.

Lemma someR_single {S : Type} (body : Z -> S -> result (S * bool)) i st :
  someR body [i] st = (r <-? body i st ;; Ok (fst r)).
Proof.
  simpl. destruct (body i st) as [r|e]; [|reflexivity].
  simpl. destruct (snd r); reflexivity.
Qed.

Lemma zip_nth {A B : Type} (a : list A) (b : list B) da db :
  List.length a = List.length b ->
  zip a b = map (fun i => (nth i a da, nth i b db)) (seq 0 (List.length a)).
Proof.
  revert b. induction a as [|x a IH]; intros [|y b] E; simpl in *; try discriminate.
  - reflexivity.
  - f_equal. rewrite <- seq_shift, map_map. apply IH. lia.
Qed.

Lemma zip3_nth {A B C : Type} (a : list A) (b : list B) (c : list C) da db dc :
  List.length a = List.length c -> List.length b = List.length c ->
  zip3 a b c
  = map (fun i => (nth i a da, nth i b db, nth i c dc)) (seq 0 (List.length c)).
Proof.
  revert a b. induction c as [|z c IH]; intros [|x a] [|y b] E1 E2;
    simpl in *; try discriminate.
  - reflexivity.
  - f_equal. rewrite <- seq_shift, map_map. apply IH; lia.
Qed.

(** ** The loop budget ([range]) *)

Lemma range_start_start (start : Z) : range start start 1 = Ok [start].
Proof.
  unfold range. simpl (1 =? 0)%Z. cbv iota.
  replace (start - start)%Z with 0%Z by lia. reflexivity.
Qed.

Section ZeroBudget.

Context {host : MathHost}.

Variables (Xs : list (list Num.num)) (ys : list Num.num).

Lemma ITES_zero popSize selectedSize minSize maxSize expolim stopScore g :
  ITES Xs ys popSize selectedSize minSize maxSize expolim 0 stopScore g
  = (nvars <- lift (nvarsOf Xs) ;;
     pop <- initialPopulation Xs ys popSize minSize maxSize expolim nvars ;;
     best <- lift (reduce_bestScore pop) ;;
     r <- ITES_generation Xs ys popSize selectedSize expolim nvars stopScore 0
            (pop, best) ;;
     ret (simplifyIT (snd (fst r)) Xs ys nvars threshold_final)) g.
Proof.
  unfold ITES. rewrite range_start_start.
  apply bind_ext; intros nvars g1.
  apply bind_ext; intros pop g2.
  apply bind_ext; intros best g3.
  rewrite lift_bind.
  unfold bind at 1. rewrite someM_single.
  unfold bind.
  destruct (ITES_generation _ _ _ _ _ _ _ _ _ _) as [[r g4]|e]; reflexivity.
Qed.

Lemma ITLS_zero popSize minSize maxSize expolim stopScore g :
  ITLS Xs ys popSize minSize maxSize expolim 0 stopScore g
  = (nvars <- lift (nvarsOf Xs) ;;
     pop <- initialPopulation Xs ys popSize minSize maxSize expolim nvars ;;
     best <- lift (reduce_bestScore pop) ;;
     r <- lift (ITLS_iteration Xs ys nvars stopScore 0 best) ;;
     ret (simplifyIT (fst r) Xs ys nvars threshold_final)) g.
Proof.
  unfold ITLS. rewrite range_start_start.
  apply bind_ext; intros nvars g1.
  apply bind_ext; intros pop g2.
  apply bind_ext; intros best g3.
  rewrite lift_bind. rewrite someR_single.
  unfold bind, lift. destruct (ITLS_iteration _ _ _ _ _ _) as [r|e]; reflexivity.
Qed.

Lemma SYMTREE_zero threshold minI minT stopScore :
  SYMTREE Xs ys 0 threshold minI minT stopScore
  = (nvars <-? nvarsOf Xs ;;
     root <-? buildRootIT nvars ;;
     r <-? SYMTREE_iteration Xs ys nvars threshold minI minT stopScore 0
             [fitIT root Xs ys] ;;
     b <-? reduce_bestScore (fst r) ;;
     Ok (simplifyIT b Xs ys nvars threshold_final)).
Proof.
  unfold SYMTREE. rewrite range_start_start.
  apply rbind_ext; intros nvars.
  apply rbind_ext; intros root.
  cbn [rbind]. rewrite someR_single.
  destruct (SYMTREE_iteration _ _ _ _ _ _ _ _ _) as [r|e]; reflexivity.
Qed.

Lemma SYMTREE_negative_budget threshold minI minT stopScore X Xs' :
  Xs = X :: Xs' ->
  SYMTREE Xs ys (-1) threshold minI minT stopScore = Throw RangeError.
Proof.
  intros ->. unfold SYMTREE. simpl nvarsOf. cbn [rbind].
  unfold buildRootIT, Array_fill.
  replace (Z.of_nat (List.length X) <? 0)%Z with false
    by (symmetry; apply Z.ltb_ge; lia).
  simpl orb.
  match goal with |- context [if ?c then _ else _] => destruct c end; reflexivity.
Qed.

End ZeroBudget.

(** C10, as stated, fails for a budget below zero: [range(0, -1)] calls
    [Array(-1)], which raises RangeError instead of returning [[0]], and the
    search (here SYMTREE on a one-sample dataset) raises before any
    iteration runs. *)
Lemma negative_budget_raises :
  range 0 (-1) 1 = Throw RangeError
  /\ range 0 (-1) 1 <> Ok [0%Z]
  /\ (forall (host : MathHost) ys threshold minI minT stopScore,
        SYMTREE [[Num.Fin 1]] ys (-1) threshold minI minT stopScore
        = Throw RangeError).
Proof.
  split; [reflexivity|]. split; [discriminate|].
  intros. eapply SYMTREE_negative_budget. reflexivity.
Qed.

(** C10 (amended): with a budget of exactly zero, [range(start, start)]
    returns the one-element list [[start]], and each of ITES, ITLS and
    SYMTREE runs its loop body exactly once (for index 0) between the set-up
    and the final [simplifyIT]. *)
Theorem zero_budget_runs_one_iteration :
  (forall start, range start start 1 = Ok [start])
  /\ (forall (host : MathHost) Xs ys popSize selectedSize minSize maxSize
             expolim stopScore g,
        ITES Xs ys popSize selectedSize minSize maxSize expolim 0 stopScore g
        = (nvars <- lift (nvarsOf Xs) ;;
           pop <- initialPopulation Xs ys popSize minSize maxSize expolim nvars ;;
           best <- lift (reduce_bestScore pop) ;;
           r <- ITES_generation Xs ys popSize selectedSize expolim nvars
                  stopScore 0 (pop, best) ;;
           ret (simplifyIT (snd (fst r)) Xs ys nvars threshold_final)) g)
  /\ (forall (host : MathHost) Xs ys popSize minSize maxSize expolim stopScore g,
        ITLS Xs ys popSize minSize maxSize expolim 0 stopScore g
        = (nvars <- lift (nvarsOf Xs) ;;
           pop <- initialPopulation Xs ys popSize minSize maxSize expolim nvars ;;
           best <- lift (reduce_bestScore pop) ;;
           r <- lift (ITLS_iteration Xs ys nvars stopScore 0 best) ;;
           ret (simplifyIT (fst r) Xs ys nvars threshold_final)) g)
  /\ (forall (host : MathHost) Xs ys threshold minI minT stopScore,
        SYMTREE Xs ys 0 threshold minI minT stopScore
        = (nvars <-? nvarsOf Xs ;;
           root <-? buildRootIT nvars ;;
           r <-? SYMTREE_iteration Xs ys nvars threshold minI minT stopScore 0
                   [fitIT root Xs ys] ;;
           b <-? reduce_bestScore (fst r) ;;
           Ok (simplifyIT b Xs ys nvars threshold_final))).
Proof.
  split; [exact range_start_start|].
  split; [intros; apply ITES_zero|].
  split; [intros; apply ITLS_zero|].
  intros; apply SYMTREE_zero.
Qed.

(** ** Evaluation *)

Section Evaluation.

Context {host : MathHost}.

Lemma interaction_product X term :
  List.length term = List.length X -> interaction X term = termProduct X term.
Proof.
  intros E. unfold interaction, termProduct.
  rewrite (zip_nth X term Num.NaN 0%Z) by lia.
  rewrite map_map. reflexivity.
Qed.

Lemma evalIT_weightedSum m X :
  wf m -> Forall (fun t => List.length t = List.length X) (IT.terms m) ->
  evalIT m X = weightedSum m X.
Proof.
  intros (Hf & Hc & _) Hall. unfold evalIT, weightedSum.
  rewrite (zip3_nth (IT.coeffs m) (IT.funcs m) (IT.terms m) Num.NaN Fid [])
    by assumption.
  rewrite map_map. f_equal. apply map_ext_in. intros i Hi.
  rewrite interaction_product; [reflexivity|].
  rewrite Forall_forall in Hall. apply Hall. apply nth_In.
  apply in_seq in Hi. lia.
Qed.

End Evaluation.

(** C2: on a well-formed model whose exponent vectors have one entry per
    variable, [evalIT] is the sum over the terms [i] of [coeffs[i]] times
    [funcs[i]] applied to the product over the variables [v] of
    [X[v] ^ terms[i][v]]; and [buildRootIT(2)] is the model with terms
    [[1,0],[0,1]], functions [id, id] and coefficients [1, 1], whose value
    at [X = [2, 3]] is 5. *)
Theorem evalIT_is_weighted_sum :
  (forall (host : MathHost) m X,
      wf m -> Forall (fun t => List.length t = List.length X) (IT.terms m) ->
      evalIT m X = weightedSum m X)
  /\ buildRootIT 2 = Ok root2
  /\ (forall (host : MathHost),
        (root <-? buildRootIT 2 ;; Ok (evalIT root [Num.Fin 2; Num.Fin 3]))
        = Ok (Num.Fin 5)).
Proof.
  split; [intros; apply evalIT_weightedSum; assumption|].
  split; reflexivity.
Qed.

Lemma evalIT_is_weighted_sum_witness :
  evalIT (host:=nanHost) root2 [Num.Fin 2; Num.Fin 3]
  = weightedSum (host:=nanHost) root2 [Num.Fin 2; Num.Fin 3].
Proof.
  apply (proj1 evalIT_is_weighted_sum).
  - repeat split.
  - repeat constructor.
Defined.

(** ** The score assigned by [fitIT] *)

Lemma Qltb_lt a b : Num.Qltb a b = true <-> a < b.
Proof.
  unfold Num.Qltb. rewrite negb_true_iff.
  split; intros H.
  - apply Qnot_le_lt. intros L. apply Qle_bool_iff in L. congruence.
  - destruct (Qle_bool b a) eqn:E; [|reflexivity].
    apply Qle_bool_iff in E. exfalso. apply (Qlt_not_le _ _ H E).
Qed.

Lemma nonneg_abs x : nonneg (Num.abs x).
Proof.
  destruct x; cbn [nonneg Num.abs Num.fin]; auto.
  rewrite Qred_correct. apply Qabs_nonneg.
Qed.

Lemma nonneg_add x y : nonneg x -> nonneg y -> nonneg (Num.add x y).
Proof.
  destruct x, y; cbn [nonneg Num.add Num.fin]; auto.
  intros Hx Hy. rewrite Qred_correct. lra.
Qed.

Lemma nonneg_sum l acc :
  nonneg acc -> Forall nonneg l -> nonneg (fold_left Num.add l acc).
Proof.
  revert acc. induction l as [|x l IH]; intros acc Ha Hl; simpl; [assumption|].
  inversion Hl; subst. apply IH; [apply nonneg_add|]; assumption.
Qed.

Lemma nonneg_div_count x (n : nat) :
  nonneg x -> nonneg (Num.div x (Num.of_Z (Z.of_nat n))).
Proof.
  assert (0 <= inject_Z (Z.of_nat n)) as Hn.
  { change 0 with (inject_Z 0). rewrite <- Zle_Qle. lia. }
  destruct x as [q| | |]; cbn [nonneg Num.div Num.of_Z]; intros Hx.
  - destruct (Qeq_bool (inject_Z (Z.of_nat n)) 0) eqn:E.
    + unfold Num.signed_inf. destruct (q ?= 0) eqn:C; cbn [nonneg]; auto.
      apply Qlt_alt in C. apply (Qlt_not_le _ _ C Hx).
    + cbn [nonneg Num.fin]. rewrite Qred_correct. apply Qeq_bool_neq in E.
      unfold Qdiv. apply Qmult_le_0_compat; [assumption|].
      apply Qinv_le_0_compat. assumption.
  - destruct (Num.Qltb (inject_Z (Z.of_nat n)) 0) eqn:E; cbn [nonneg]; auto.
    apply Qltb_lt in E. apply (Qlt_not_le _ _ E Hn).
  - contradiction.
  - exact I.
Qed.

Lemma score_of_finite_MAE q :
  0 <= q ->
  exists s, scoreFromMAE (Num.Fin q) = Num.Fin s /\ 0 <= s /\ s <= 1.
Proof.
  intros Hq. unfold scoreFromMAE. cbn [Num.add Num.div Num.fin].
  assert (1 <= Qred (1 + q)) as H1.
  { rewrite Qred_correct. lra. }
  destruct (Qeq_bool (Qred (1 + q)) 0) eqn:E.
  - apply Qeq_bool_iff in E. rewrite E in H1. lra.
  - eexists. split; [reflexivity|]. rewrite Qred_correct.
    set (d := Qred (1 + q)) in *.
    assert (0 < d) by lra.
    split.
    + apply Qle_shift_div_l; [assumption|]. lra.
    + apply Qle_shift_div_r; [assumption|]. lra.
Qed.


Section Fit.

Context {host : MathHost}.

Lemma MAE_nonneg m Xs ys : nonneg (MAE m Xs ys).
Proof.
  unfold MAE. apply nonneg_div_count.
  apply nonneg_sum; [cbn [nonneg]; apply Qle_refl|].
  apply Forall_forall. intros x Hx. apply in_map_iff in Hx.
  destruct Hx as ([X y] & <- & _). apply nonneg_abs.
Qed.

Lemma fitIT_score_eq m Xs ys :
  IT.score (fitIT m Xs ys)
  = Some (if Num.isFinite (scoreFromMAE (MAE (fitIT m Xs ys) Xs ys))
          then scoreFromMAE (MAE (fitIT m Xs ys) Xs ys) else Num.Fin 0).
Proof. reflexivity. Qed.

Lemma fitIT_finite_score m Xs ys :
  exists q, IT.score (fitIT m Xs ys) = Some (Num.Fin q).
Proof.
  unfold fitIT. cbn [IT.score].
  match goal with |- context [Num.isFinite ?s] => destruct s eqn:E end;
    cbn [Num.isFinite]; eexists; reflexivity.
Qed.


Lemma fitIT_terms m Xs ys : IT.terms (fitIT m Xs ys) = IT.terms m.
Proof. reflexivity. Qed.

Lemma fitIT_funcs m Xs ys : IT.funcs (fitIT m Xs ys) = IT.funcs m.
Proof. reflexivity. Qed.

Lemma fitIT_length m Xs ys : IT.length (fitIT m Xs ys) = IT.length m.
Proof. reflexivity. Qed.

End Fit.

(** C5: the score assigned by [fitIT] is [1 / (1 + MAE)] and lies in
    [0, 1] whenever the mean absolute error of the fitted model is finite,
    and is 0 whenever it is not finite. *)
Theorem fitIT_score_of_MAE :
  forall (host : MathHost) m Xs ys,
    (Num.isFinite (MAE (fitIT m Xs ys) Xs ys) = true ->
       IT.score (fitIT m Xs ys)
       = Some (Num.div (Num.Fin 1)
                       (Num.add (Num.Fin 1) (MAE (fitIT m Xs ys) Xs ys)))
       /\ Num.leb (Num.Fin 0) (scoreOf (fitIT m Xs ys)) = true
       /\ Num.leb (scoreOf (fitIT m Xs ys)) (Num.Fin 1) = true)
    /\ (Num.isFinite (MAE (fitIT m Xs ys) Xs ys) = false ->
       IT.score (fitIT m Xs ys) = Some (Num.Fin 0)).
Proof.
  intros host m Xs ys.
  pose proof (MAE_nonneg (fitIT m Xs ys) Xs ys) as Hn.
  unfold scoreOf. rewrite fitIT_score_eq.
  destruct (MAE (fitIT m Xs ys) Xs ys) as [q| | |] eqn:E; cbn [nonneg] in Hn.
  - split; [intros _|discriminate].
    destruct (score_of_finite_MAE Hn) as (s & Hs & H0 & H1).
    fold (scoreFromMAE (Num.Fin q)). rewrite Hs. simpl.
    split; [reflexivity|]. split; apply Qle_bool_iff; assumption.
  - split; [discriminate|reflexivity].
  - contradiction.
  - split; [discriminate|reflexivity].
Qed.



Lemma fitIT_score_of_MAE_witness :
  Num.leb (scoreOf (fitIT (host:=nanHost) singular_model singular_Xs singular_ys))
          (Num.Fin 1) = true.
Proof.
  apply (proj1 (fitIT_score_of_MAE nanHost singular_model singular_Xs singular_ys)).
  reflexivity.
Defined.

(** ** Results of the effectful code *)

Lemma bind_Ok {A B : Type} (c : M A) (k : A -> M B) g b g' :
  bind c k g = Ok (b, g') ->
  exists a g1, c g = Ok (a, g1) /\ k a g1 = Ok (b, g').
Proof.
  unfold bind. destruct (c g) as [[a g1]|e]; [|discriminate].
  intros H. exists a, g1. split; [reflexivity|assumption].
Qed.

Lemma lift_Ok {A : Type} (r : result A) g a g' :
  lift r g = Ok (a, g') -> r = Ok a /\ g' = g.
Proof.
  unfold lift. destruct r; [|discriminate]. intros [= -> ->]. split; reflexivity.
Qed.

Lemma ret_Ok {A : Type} (a : A) g b g' : ret a g = Ok (b, g') -> b = a /\ g' = g.
Proof. intros [= -> ->]. split; reflexivity. Qed.

Lemma rbind_Ok {A B : Type} (c : result A) (k : A -> result B) b :
  rbind c k = Ok b -> exists a, c = Ok a /\ k a = Ok b.
Proof.
  destruct c as [a|e]; [|discriminate].
  intros H. exists a. split; [reflexivity|assumption].
Qed.

Lemma mapM_Ok {A B : Type} (P : B -> Prop) (f : A -> M B) a :
  (forall x g y g', f x g = Ok (y, g') -> P y) ->
  forall g ys g', mapM f a g = Ok (ys, g') ->
    Forall P ys /\ List.length ys = List.length a.
Proof.
  intros Hf. induction a as [|x a IH]; intros g ys g' H; simpl in H.
  - apply ret_Ok in H. destruct H as [-> _]. split; [constructor|reflexivity].
  - apply bind_Ok in H. destruct H as (y & g1 & Hy & H).
    apply bind_Ok in H. destruct H as (ys' & g2 & Hys & H).
    apply ret_Ok in H. destruct H as [-> _].
    destruct (IH _ _ _ Hys) as [HP Hl].
    split; [constructor; [eapply Hf; eassumption|assumption]|simpl; lia].
Qed.

Lemma Array_from_Ok {A : Type} (P : A -> Prop) n (f : nat -> M A) :
  (forall i g y g', f i g = Ok (y, g') -> P y) ->
  forall g ys g', Array_from n f g = Ok (ys, g') ->
    Forall P ys /\ List.length ys = Z.to_nat n.
Proof.
  intros Hf g ys g' H. unfold Array_from in H.
  destruct (2 ^ 32 <=? n)%Z; [discriminate|].
  destruct (mapM_Ok P f (indices n) Hf _ H) as [HP Hl].
  split; [assumption|]. rewrite Hl. unfold indices. apply length_seq.
Qed.

Lemma mapR_pure {A B : Type} (f : A -> result B) (h : A -> B) l :
  (forall x, In x l -> f x = Ok (h x)) -> mapR f l = Ok (map h l).
Proof.
  induction l as [|x l IH]; intros H; simpl; [reflexivity|].
  rewrite (H x) by (left; reflexivity). simpl.
  rewrite IH by (intros y Hy; apply H; right; assumption). reflexivity.
Qed.

Lemma filterR_pure {A : Type} (p : A -> result bool) (q : A -> bool) l :
  (forall x, In x l -> p x = Ok (q x)) -> filterR p l = Ok (filter q l).
Proof.
  induction l as [|x l IH]; intros H; simpl; [reflexivity|].
  rewrite (H x) by (left; reflexivity). simpl.
  rewrite IH by (intros y Hy; apply H; right; assumption). reflexivity.
Qed.

Lemma mapR_Forall {A B : Type} (P : B -> Prop) (f : A -> result B) l ys :
  (forall x y, f x = Ok y -> P y) -> mapR f l = Ok ys -> Forall P ys.
Proof.
  intros Hf. revert ys. induction l as [|x l IH]; intros ys H; simpl in H.
  - injection H as <-. constructor.
  - destruct (f x) as [y|e] eqn:E; [|discriminate]. simpl in H.
    destruct (mapR f l) as [ys'|e]; [|discriminate]. simpl in H.
    injection H as <-. constructor; [eapply Hf; eassumption|apply IH; reflexivity].
Qed.

Lemma Forall_concat {A : Type} (P : A -> Prop) ls :
  Forall (Forall P) ls -> Forall P (concat ls).
Proof.
  induction 1 as [|l ls Hl _ IH]; simpl; [constructor|].
  apply Forall_app. split; assumption.
Qed.

Lemma Forall_somes {A : Type} (P : A -> Prop) l :
  Forall (fun o => match o with Some x => P x | None => True end) l ->
  Forall P (somes l).
Proof.
  induction 1 as [|o l Ho _ IH]; simpl; [constructor|].
  destruct o; simpl; [constructor|]; assumption.
Qed.

(** ** Filtering by index *)

Lemma filter_index_length_le {A : Type} (p : nat -> bool) i (a : list A) :
  (List.length (filter_index p i a) <= List.length a)%nat.
Proof.
  revert i. induction a as [|x a IH]; intros i; simpl; [lia|].
  destruct (p i); simpl; specialize (IH (S i)); lia.
Qed.

Lemma filter_index_length_eq {A B : Type} (p : nat -> bool) i
      (a : list A) (b : list B) :
  List.length a = List.length b ->
  List.length (filter_index p i a) = List.length (filter_index p i b).
Proof.
  revert i b. induction a as [|x a IH]; intros i [|y b] E; simpl in *;
    try discriminate; [reflexivity|].
  destruct (p i); simpl; rewrite (IH (S i) b) by lia; reflexivity.
Qed.


Lemma filter_index_In_length {A : Type} (p : nat -> bool) i (a : list A) k :
  (i <= k < i + List.length a)%nat -> p k = true ->
  (0 < List.length (filter_index p i a))%nat.
Proof.
  revert i. induction a as [|x a IH]; intros i Hk Hp; simpl in *; [lia|].
  destruct (p i) eqn:E; simpl; [lia|].
  apply IH; [|assumption].
  destruct (Nat.eq_dec i k) as [->|N]; [congruence|lia].
Qed.

(** ** Pruning ([simplifyIT]) *)


Lemma multiply_length A B C :
  MathJS.multiply A B = Some C -> List.length C = List.length A.
Proof.
  unfold MathJS.multiply. destruct A as [|rowA A']; [discriminate|].
  destruct B as [|rowB B']; [discriminate|].
  destruct (_ =? _)%nat; [|discriminate].
  intros [= <-]. simpl. rewrite length_map. reflexivity.
Qed.

Lemma inv_length A C : MathJS.inv A = Some C -> List.length C = List.length A.
Proof.
  unfold MathJS.inv. destruct (_ || _); [discriminate|].
  destruct (Num.eqb _ _); [discriminate|].
  intros [= <-]. rewrite length_map, length_seq. reflexivity.
Qed.

Lemma transpose_length A C :
  MathJS.transpose A = Some C ->
  match A with
  | [] => C = []
  | row :: _ => List.length C = List.length row
  end.
Proof.
  unfold MathJS.transpose. destruct A as [|row A']; [intros [= <-]; reflexivity|].
  destruct (_ =? _)%nat; [discriminate|].
  intros [= <-]. rewrite length_map, length_seq. reflexivity.
Qed.

Lemma zip_length {A B : Type} (a : list A) (b : list B) :
  List.length a = List.length b -> List.length (zip a b) = List.length b.
Proof. intros E. unfold zip. rewrite length_combine. lia. Qed.

Lemma prune_wf m threshold : wf m -> wf (prune m threshold).
Proof.
  intros (Hf & Hc & Hl). unfold wf, prune.
  cbn [IT.terms IT.funcs IT.coeffs IT.length].
  repeat split.
  - apply filter_index_length_eq. assumption.
  - apply filter_index_length_eq. assumption.
  - f_equal. apply filter_index_length_eq. assumption.
Qed.


Lemma prune_length_le m threshold :
  wf m -> (IT.length (prune m threshold) <= IT.length m)%Z.
Proof.
  intros (Hf & Hc & Hl). unfold prune. cbn [IT.length]. rewrite Hl, <- Hc.
  pose proof (filter_index_length_le (findCoeffs m threshold) 0 (IT.coeffs m)).
  lia.
Qed.


Lemma prune_zip3_gen (q : Num.num -> bool) (cs : list Num.num) :
  forall (fs : list fn) (ts : list (list Z)) (pre : list Num.num),
    List.length fs = List.length cs -> List.length ts = List.length cs ->
    let p := fun i => match nth_error (pre ++ cs) i with
                      | Some c => q c
                      | None => false
                      end in
    zip3 (filter_index p (List.length pre) cs)
         (filter_index p (List.length pre) fs)
         (filter_index p (List.length pre) ts)
    = filter (fun '(c, _, _) => q c) (zip3 cs fs ts).
Proof.
  induction cs as [|c cs IH]; intros [|f fs] [|t ts] pre Hf Ht; simpl in *;
    try discriminate; [reflexivity|].
  rewrite nth_error_app2 by lia. rewrite Nat.sub_diag. simpl.
  specialize (IH fs ts (pre ++ [c])). rewrite <- app_assoc in IH. simpl in IH.
  rewrite length_app in IH. simpl in IH. rewrite Nat.add_1_r in IH.
  destruct (q c); simpl; rewrite IH by lia; reflexivity.
Qed.

(** A pass removes whole terms: exponents, function and coefficient. *)
Lemma prune_zip3 m threshold :
  wf m ->
  zip3 (IT.coeffs (prune m threshold)) (IT.funcs (prune m threshold))
       (IT.terms (prune m threshold))
  = filter (fun '(c, _, _) => Num.gtb (Num.abs c) threshold)
           (zip3 (IT.coeffs m) (IT.funcs m) (IT.terms m)).
Proof.
  intros (Hf & Hc & _). unfold prune, findCoeffs.
  cbn [IT.coeffs IT.funcs IT.terms].
  apply (prune_zip3_gen (fun c => Num.gtb (Num.abs c) threshold)
           (IT.coeffs m) (IT.funcs m) (IT.terms m) []); lia.
Qed.

Section Simplify.

Context {host : MathHost}.

Lemma leastSquares_length m Xs ys ws :
  leastSquares (design m Xs) ys = Some ws ->
  List.length ws = List.length (zip (IT.funcs m) (IT.terms m)).
Proof.
  unfold leastSquares. cbv zeta.
  destruct (MathJS.transpose (design m Xs)) as [XsHatT|] eqn:Ht; [|discriminate].
  destruct (MathJS.multiply XsHatT (design m Xs)) as [gram|] eqn:Hg;
    [|discriminate].
  destruct (MathJS.inv gram) as [q1|] eqn:Hi; [|discriminate].
  destruct (MathJS.multiply XsHatT (map _ ys)) as [q2|] eqn:H2; [|discriminate].
  destruct (MathJS.multiply q1 q2) as [ws'|] eqn:Hw; [|discriminate].
  intros [= <-]. rewrite length_map.
  rewrite (multiply_length _ _ Hw), (inv_length _ Hi), (multiply_length _ _ Hg).
  apply transpose_length in Ht. unfold design in *.
  destruct Xs as [|X Xs']; simpl in *.
  - subst XsHatT. discriminate.
  - rewrite Ht. apply length_map.
Qed.

Lemma fitIT_wf m Xs ys : wf m -> wf (fitIT m Xs ys).
Proof.
  intros (Hf & Hc & Hl). unfold wf, fitIT.
  cbn [IT.terms IT.funcs IT.coeffs IT.length].
  repeat split; try assumption.
  destruct (leastSquares (design m Xs) ys) as [ws|] eqn:E; [|assumption].
  rewrite (leastSquares_length _ _ _ E). apply zip_length. assumption.
Qed.

Lemma simplifyIT_rec_eq fuel m Xs ys nvars threshold :
  simplifyIT_rec fuel m Xs ys nvars threshold
  = if (IT.length (prune m threshold) =? 0)%Z then m
    else if (IT.length (prune m threshold) =? IT.length m)%Z then m
    else match fuel with
         | O => m
         | S fuel' =>
             simplifyIT_rec fuel' (fitIT (prune m threshold) Xs ys) Xs ys nvars
                            threshold
         end.
Proof. destruct fuel; reflexivity. Qed.

Lemma simplifyIT_rec_nonempty fuel m Xs ys nvars threshold :
  IT.length m <> 0%Z ->
  IT.length (simplifyIT_rec fuel m Xs ys nvars threshold) <> 0%Z.
Proof.
  revert m. induction fuel as [|fuel IH]; intros m Hm; rewrite simplifyIT_rec_eq;
    destruct (IT.length (prune m threshold) =? 0)%Z eqn:E0; try assumption;
    destruct (_ =? IT.length m)%Z; try assumption.
  apply IH. rewrite fitIT_length. apply Z.eqb_neq. assumption.
Qed.





End Simplify.



(** ** Exponent mutation ([mutatetermsIT]) *)

Lemma createTerm_rec_nonzero fuel nvars expolim g term g' :
  createTerm_rec fuel nvars expolim g = Ok (term, g') -> every_zero term = false.
Proof.
  revert g. induction fuel as [|fuel IH]; intros g H; simpl in H; [discriminate|].
  apply bind_Ok in H. destruct H as (t & g1 & _ & H).
  destruct (every_zero t) eqn:E.
  - eapply IH; eassumption.
  - apply ret_Ok in H. destruct H as [-> _]. assumption.
Qed.

Lemma createTerm_nonzero nvars expolim g term g' :
  createTerm nvars expolim g = Ok (term, g') -> every_zero term = false.
Proof. apply createTerm_rec_nonzero. Qed.

Lemma no_zero_term terms :
  Forall (fun term => every_zero term = false) terms ->
  existsb every_zero terms = false.
Proof.
  induction 1 as [|t ts Ht _ IH]; simpl; [reflexivity|].
  rewrite Ht, IH. reflexivity.
Qed.

Lemma buildRandIT_Ok nTerms nvars expolim g m g' :
  buildRandIT nTerms nvars expolim g = Ok (m, g') ->
  existsb every_zero (IT.terms m) = false
  /\ IT.length m = nTerms
  /\ List.length (IT.terms m) = Z.to_nat nTerms.
Proof.
  intros H. unfold buildRandIT in H.
  apply bind_Ok in H. destruct H as (terms & g1 & Ht & H).
  apply bind_Ok in H. destruct H as (funcs & g2 & _ & H).
  apply bind_Ok in H. destruct H as (coeffs & g3 & _ & H).
  apply ret_Ok in H. destruct H as [-> _]. cbn [IT.terms IT.length].
  apply (Array_from_Ok (fun term => every_zero term = false)) in Ht.
  - destruct Ht as [Hz Hl]. split; [apply no_zero_term; assumption|].
    split; [reflexivity|assumption].
  - intros i g0 y g0' Hy. eapply createTerm_nonzero; eassumption.
Qed.

Lemma replaceExponent_Ok m nvars expolim g m1 g1 :
  replaceExponent m nvars expolim g = Ok (m1, g1) ->
  IT.funcs m1 = IT.funcs m /\ IT.coeffs m1 = IT.coeffs m
  /\ IT.length m1 = IT.length m /\ IT.score m1 = IT.score m
  /\ exists termIdx tIdx t term term',
       get_index (IT.terms m) termIdx = Some term
       /\ set_index tIdx t term = Ok term'
       /\ set_index termIdx term' (IT.terms m) = Ok (IT.terms m1).
Proof.
  intros H. unfold replaceExponent in H.
  apply bind_Ok in H. destruct H as (r1 & g2 & _ & H).
  apply bind_Ok in H. destruct H as (r2 & g3 & _ & H).
  apply bind_Ok in H. destruct H as (t & g4 & _ & H).
  destruct (get_index (IT.terms m) _) as [term|] eqn:Eg; [|discriminate].
  apply bind_Ok in H. destruct H as (term' & g5 & Hs1 & H).
  apply bind_Ok in H. destruct H as (terms' & g6 & Hs2 & H).
  apply ret_Ok in H. destruct H as [-> _].
  cbn [IT.funcs IT.coeffs IT.length IT.score IT.terms].
  apply lift_Ok in Hs1. destruct Hs1 as [Hs1 _].
  apply lift_Ok in Hs2. destruct Hs2 as [Hs2 _].
  repeat (split; [reflexivity|]).
  do 5 eexists. split; [eassumption|]. split; eassumption.
Qed.



(** ** Redundancy removal ([sanitizeIT]) *)

Lemma later_duplicates_Ok m term tIndex later :
  Forall (fun i => (i < List.length (IT.terms m))%nat) later ->
  later_duplicates m term tIndex later
  = Ok (map (fun _ => tIndex)
            (filter (fun i => same_exponents term (nth i (IT.terms m) [])
                              && opt_fn_eqb (nth_error (IT.funcs m) tIndex)
                                            (nth_error (IT.funcs m) i))
                    later)).
Proof.
  induction 1 as [|i later Hi _ IH]; simpl; [reflexivity|].
  destruct (nth_error (IT.terms m) i) as [other|] eqn:E.
  - rewrite IH. simpl. rewrite (nth_error_nth _ _ _ E).
    destruct (_ && _); reflexivity.
  - apply nth_error_None in E. lia.
Qed.

Lemma toRemove_from_Ok m tIndex ts :
  Z.to_nat (IT.length m) = List.length (IT.terms m) ->
  ts = skipn tIndex (IT.terms m) ->
  toRemove_from m tIndex ts
  = Ok (flat_map (pushes m) (seq tIndex (List.length ts))).
Proof.
  intros Hlen. revert tIndex.
  induction ts as [|term ts IH]; intros tIndex Hts; simpl.
  - reflexivity.
  - assert (nth tIndex (IT.terms m) [] = term) as Hterm.
    { rewrite <- (firstn_skipn tIndex (IT.terms m)) at 1.
      assert (tIndex < List.length (IT.terms m))%nat as Hlt.
      { destruct (Nat.lt_ge_cases tIndex (List.length (IT.terms m))) as [L|G];
          [assumption|].
        rewrite skipn_all2 in Hts by assumption. discriminate. }
      rewrite app_nth2; rewrite length_firstn, Nat.min_l by lia; [|lia].
      rewrite Nat.sub_diag, <- Hts. reflexivity. }
    assert (ts = skipn (S tIndex) (IT.terms m)) as Hts'.
    { change (S tIndex) with (1 + tIndex)%nat.
      rewrite <- skipn_skipn, <- Hts. reflexivity. }
    rewrite (IH _ Hts'). unfold pushes at 2. rewrite Hterm.
    destruct (every_zero term) eqn:Ez; simpl.
    + reflexivity.
    + rewrite later_duplicates_Ok.
      * simpl. unfold laterDuplicates, duplicateOf. rewrite Hterm, Hlen.
        reflexivity.
      * apply Forall_forall. intros i Hi. apply in_seq in Hi. lia.
Qed.

(** On a well-formed model the scan raises nothing. *)
Lemma toRemove_Ok m :
  wf m ->
  toRemove m = Ok (flat_map (pushes m) (seq 0 (List.length (IT.terms m)))).
Proof.
  intros (_ & _ & Hl). unfold toRemove. apply toRemove_from_Ok.
  - rewrite Hl. apply Nat2Z.id.
  - reflexivity.
Qed.

Lemma splice1_app {A : Type} (pre l : list A) x :
  splice1 (List.length pre) (pre ++ x :: l) = pre ++ l.
Proof.
  induction pre as [|y pre IH]; simpl; [reflexivity|]. rewrite IH. reflexivity.
Qed.

(** Splicing a set of indices, the highest first, keeps the others. *)
Lemma splice_filtered {A : Type} (p : nat -> bool) (l pre : list A) :
  fold_right (fun index a => splice1 index a) (pre ++ l)
             (filter (fun k => negb (p k))
                     (seq (List.length pre) (List.length l)))
  = pre ++ filter_index p (List.length pre) l.
Proof.
  revert pre. induction l as [|x l IH]; intros pre; simpl; [reflexivity|].
  specialize (IH (pre ++ [x])). rewrite <- app_assoc in IH. simpl in IH.
  rewrite length_app in IH. simpl in IH. rewrite Nat.add_1_r in IH.
  destruct (p (List.length pre)); simpl.
  - rewrite IH. rewrite <- app_assoc. reflexivity.
  - rewrite IH. rewrite <- app_assoc. simpl. apply splice1_app.
Qed.

Lemma fold_spliceIT idx m :
  fold_left spliceIT idx m
  = IT.mk (fold_left (fun a index => splice1 index a) idx (IT.terms m))
          (fold_left (fun a index => splice1 index a) idx (IT.funcs m))
          (fold_left (fun a index => splice1 index a) idx (IT.coeffs m))
          (IT.length m) (IT.score m).
Proof.
  revert m. induction idx as [|i idx IH]; intros m; simpl.
  - destruct m; reflexivity.
  - rewrite IH. reflexivity.
Qed.

Lemma fold_left_rev_splice {A : Type} idx (a : list A) :
  fold_left (fun a index => splice1 index a) (rev idx) a
  = fold_right (fun index a => splice1 index a) a idx.
Proof.
  rewrite <- (rev_involutive idx) at 2.
  symmetry.
  apply (fold_left_rev_right (fun index (a : list A) => splice1 index a)).
Qed.

Lemma pushes_atmost1 m :
  (forall k, (List.length (laterDuplicates m k) <= 1)%nat) ->
  forall l, flat_map (pushes m) l = filter (fun k => negb (keptLast m k)) l.
Proof.
  intros H l. induction l as [|k l IH]; simpl; [reflexivity|].
  rewrite IH. unfold pushes, keptLast.
  destruct (every_zero _); simpl; [reflexivity|].
  specialize (H k).
  destruct (laterDuplicates m k) as [|a [|b r]]; simpl in *;
    [reflexivity|reflexivity|lia].
Qed.

Lemma sanitize_inplace_keepLast m :
  wf m ->
  (forall k, (List.length (laterDuplicates m k) <= 1)%nat) ->
  sanitize_inplace m = Ok (keepLast m).
Proof.
  intros Hwf H1. unfold sanitize_inplace. rewrite (toRemove_Ok Hwf). simpl.
  rewrite fold_spliceIT. cbn [IT.terms IT.funcs IT.coeffs IT.score].
  rewrite !fold_left_rev_splice. rewrite pushes_atmost1 by assumption.
  destruct Hwf as (Hf & Hc & Hl).
  pose proof (splice_filtered (keptLast m) (IT.terms m) []) as Ht.
  pose proof (splice_filtered (keptLast m) (IT.funcs m) []) as Hfu.
  pose proof (splice_filtered (keptLast m) (IT.coeffs m) []) as Hco.
  simpl in Ht, Hfu, Hco. rewrite Hf in Hfu. rewrite Hc in Hco.
  rewrite Ht, Hfu, Hco. reflexivity.
Qed.

Lemma sanitize_inplace_score m s :
  sanitize_inplace m = Ok s -> IT.score s = IT.score m.
Proof.
  unfold sanitize_inplace. intros H. apply rbind_Ok in H.
  destruct H as (idx & _ & [= <-]). cbn [IT.score]. rewrite fold_spliceIT.
  reflexivity.
Qed.

Lemma sanitizeIT_total m : wf m -> exists r, sanitizeIT m = Ok r.
Proof.
  intros Hwf. unfold sanitizeIT, sanitize_inplace. rewrite (toRemove_Ok Hwf).
  simpl. eexists. reflexivity.
Qed.

Lemma same_exponents_refl t : same_exponents t t = true.
Proof.
  unfold same_exponents, zip. induction t as [|a t IH]; simpl; [reflexivity|].
  rewrite Z.eqb_refl. assumption.
Qed.

Lemma opt_fn_eqb_refl f : opt_fn_eqb f f = true.
Proof. destruct f as [[]|]; reflexivity. Qed.

(** C3, as stated, fails: of two equal terms [sanitizeIT] removes the one
    at the earlier index.  On the two-term model with coefficients 2 and 3
    the index pushed for removal is 0, and the surviving term carries the
    coefficient 3 of index 1, not the coefficient 2 of index 0. *)
Lemma sanitizeIT_removes_first_occurrence :
  toRemove duplicate_pair = Ok [0%nat]
  /\ sanitizeIT duplicate_pair = Ok (IT.mk [[1%Z]] [Fid] [Num.Fin 3] 1 None)
  /\ nth_error (IT.coeffs duplicate_pair) 0 = Some (Num.Fin 2)
  /\ nth_error (IT.coeffs duplicate_pair) 1 = Some (Num.Fin 3)
  /\ Num.Fin 2 <> Num.Fin 3.
Proof.
  repeat split. discriminate.
Qed.

(** C3 (amended): on a well-formed model in which no term has more than one
    later duplicate, when the terms at indices [i < j] carry equal
    exponent vectors (not all zero) and equal functions, [sanitizeIT]
    removes the earlier one and keeps the later one: it returns the terms
    that are not all zero and have no later duplicate, in order, each with
    its own function and coefficient; index [i] is not among them and index
    [j] is. *)
Theorem sanitizeIT_keeps_last_occurrence :
  forall m i j,
    wf m ->
    (forall k, (List.length (laterDuplicates m k) <= 1)%nat) ->
    (i < j < List.length (IT.terms m))%nat ->
    nth i (IT.terms m) [] = nth j (IT.terms m) [] ->
    every_zero (nth i (IT.terms m) []) = false ->
    nth_error (IT.funcs m) i = nth_error (IT.funcs m) j ->
    sanitizeIT m = Ok (keepLast m)
    /\ keptLast m i = false
    /\ keptLast m j = true.
Proof.
  intros m i j Hwf H1 Hij Ht Hz Hf.
  assert (duplicateOf m i j = true) as Hdij.
  { unfold duplicateOf.
    rewrite Ht, Hf, same_exponents_refl, opt_fn_eqb_refl. reflexivity. }
  assert (In j (laterDuplicates m i)) as Hin.
  { apply filter_In. split; [apply in_seq; lia|assumption]. }
  assert (keptLast m i = false) as Hki.
  { unfold keptLast. destruct (laterDuplicates m i); [destruct Hin|].
    simpl. apply andb_false_r. }
  assert (keptLast m j = true) as Hkj.
  { unfold keptLast. rewrite <- Ht, Hz. simpl.
    destruct (laterDuplicates m j) as [|k r] eqn:E; [reflexivity|]. exfalso.
    assert (In k (laterDuplicates m j)) as Hk by (rewrite E; left; reflexivity).
    apply filter_In in Hk. destruct Hk as [Hks Hkd]. apply in_seq in Hks.
    assert (In k (laterDuplicates m i)) as Hk'.
    { apply filter_In. split; [apply in_seq; lia|].
      unfold duplicateOf in *. rewrite Ht, Hf. assumption. }
    assert (NoDup (laterDuplicates m i)) as Hnd.
    { apply NoDup_filter, seq_NoDup. }
    assert (incl [j; k] (laterDuplicates m i)) as Hincl.
    { intros x [<-|[<-|[]]]; assumption. }
    assert (NoDup [j; k]) as Hnd2.
    { constructor; [intros [E'|[]]; lia|].
      constructor; [intros []|constructor]. }
    pose proof (NoDup_incl_length Hnd2 Hincl) as Hlen.
    specialize (H1 i). simpl in Hlen. lia. }
  split; [|split; assumption].
  unfold sanitizeIT. rewrite sanitize_inplace_keepLast by assumption. simpl.
  assert (0 < List.length (filter_index (keptLast m) 0 (IT.terms m)))%nat
    as Hpos.
  { apply filter_index_In_length with (k := j); [lia|assumption]. }
  destruct (Z.of_nat _ =? 0)%Z eqn:E; [apply Z.eqb_eq in E; lia|reflexivity].
Qed.

Lemma sanitizeIT_keeps_last_occurrence_witness :
  sanitizeIT duplicate_pair = Ok (keepLast duplicate_pair)
  /\ keptLast duplicate_pair 0 = false
  /\ keptLast duplicate_pair 1 = true.
Proof.
  apply sanitizeIT_keeps_last_occurrence.
  - repeat split.
  - intros [|[|k]]; simpl; lia.
  - simpl; lia.
  - reflexivity.
  - reflexivity.
  - reflexivity.
Defined.

(** C4 (the failing input): on three copies of one term the index 0 is
    pushed twice and the index 1 once, the three splices empty the model,
    and [sanitizeIT] hands back the backup, which still holds the three
    duplicates; with a fourth, different term the splices remove all three
    copies and only the fourth term is left. *)
Theorem sanitizeIT_triplicate :
  toRemove triplicate = Ok [0; 0; 1]%nat
  /\ sanitizeIT triplicate = Ok triplicate
  /\ duplicateOf triplicate 0 1 = true
  /\ toRemove triplicate_and_one = Ok [0; 0; 1]%nat
  /\ sanitizeIT triplicate_and_one
     = Ok (IT.mk [[2%Z]] [Fid] [Num.Fin 1] 1 None).
Proof.
  repeat split.
Qed.

(** ** Candidate terms of SYMTREE *)


Lemma termAt_Ok leaf j :
  (j < List.length (IT.terms leaf))%nat ->
  termAt leaf j = Ok (nth j (IT.terms leaf) []).
Proof.
  intros H. unfold termAt.
  destruct (nth_error (IT.terms leaf) j) eqn:E.
  - rewrite (nth_error_nth _ _ _ E). reflexivity.
  - apply nth_error_None in E. lia.
Qed.

Lemma pairCandidates_Ok i minI leaf j k :
  (j < List.length (IT.terms leaf))%nat ->
  (k < List.length (IT.terms leaf))%nat ->
  pairCandidates i minI leaf j k = Ok (pairPure i minI leaf j k).
Proof.
  intros Hj Hk. unfold pairCandidates. rewrite !termAt_Ok by assumption.
  reflexivity.
Qed.

Lemma swapCandidates_Ok leaf j :
  (j < List.length (IT.terms leaf))%nat ->
  swapCandidates leaf j = Ok (swapPure leaf j).
Proof.
  intros Hj. unfold swapCandidates, swapPure.
  rewrite (mapR_pure _
             (fun f => if negb (opt_fn_eqb (Some f) (nth_error (IT.funcs leaf) j))
                       then [mkTerm (nth j (IT.terms leaf) []) f None] else [])).
  - cbn [rbind]. rewrite flat_map_concat_map. reflexivity.
  - intros f _. destruct (negb _); [|reflexivity].
    rewrite termAt_Ok by assumption. reflexivity.
Qed.

Lemma candidates_Ok i minI minT leaf :
  wf leaf -> candidates i minI minT leaf = Ok (candidatesPure i minI minT leaf).
Proof.
  intros (_ & _ & Hl). unfold candidates, candidatesPure.
  rewrite Hl, Nat2Z.id.
  set (n := List.length (IT.terms leaf)).
  rewrite (mapR_pure _
             (fun j => flat_map (pairPure i minI leaf j) (seq j (n - j))
                       ++ (if (minT <=? i)%Z then swapPure leaf j else []))).
  - cbn [rbind]. rewrite flat_map_concat_map. reflexivity.
  - intros j Hj. apply in_seq in Hj.
    rewrite (mapR_pure _ (pairPure i minI leaf j)).
    + cbn [rbind]. destruct (minT <=? i)%Z.
      * rewrite swapCandidates_Ok by (fold n; lia). cbn [rbind].
        rewrite flat_map_concat_map. reflexivity.
      * cbn [rbind]. rewrite flat_map_concat_map. reflexivity.
    + intros k Hk. apply in_seq in Hk. apply pairCandidates_Ok; fold n; lia.
Qed.


Lemma copyIT_id m : copyIT m = m.
Proof. unfold copyIT. rewrite map_id. destruct m; reflexivity. Qed.

Lemma composeIT_wf m nt : wf m -> wf (composeIT m nt).
Proof.
  intros (Hf & Hc & Hl). unfold wf, composeIT.
  cbn [IT.terms IT.funcs IT.coeffs IT.length].
  rewrite !length_app. simpl. repeat split; lia.
Qed.

Section Candidates.

Context {host : MathHost}.

Variables (Xs : list (list Num.num)) (ys : list Num.num).

Lemma attempt_total leaf nt : wf leaf -> exists a, attempt Xs ys leaf nt = Ok a.
Proof.
  intros Hwf. unfold attempt. rewrite copyIT_id.
  destruct (sanitizeIT_total (composeIT_wf nt Hwf)) as (r & Hr).
  rewrite Hr. simpl. eexists. reflexivity.
Qed.

End Candidates.



(** ** The tracked best score *)

Lemma geb_refl_fin q : Num.geb (Num.Fin q) (Num.Fin q) = true.
Proof. unfold Num.geb. simpl. apply Qle_bool_iff. apply Qle_refl. Qed.

Lemma gtb_geb_trans x y z :
  Num.gtb x y = true -> Num.geb y z = true -> Num.geb x z = true.
Proof.
  unfold Num.gtb, Num.geb.
  destruct x as [a| | |], y as [b| | |], z as [c| | |]; simpl;
    try discriminate; try reflexivity.
  intros H1 H2. apply Qltb_lt in H1. apply Qle_bool_iff in H2.
  apply Qle_bool_iff. lra.
Qed.

Lemma neighbor_score best termIdx opIdx tIdx inc o :
  neighbor best termIdx opIdx tIdx inc = Ok o ->
  match o with Some n => IT.score n = IT.score best | None => True end.
Proof.
  unfold neighbor. rewrite copyIT_id.
  destruct (nth_error (IT.terms best) termIdx) as [term|]; [|discriminate].
  destruct (nth_error term tIdx) as [t|]; [|discriminate].
  intros H. apply rbind_Ok in H. destruct H as (term' & _ & H).
  apply rbind_Ok in H. destruct H as (terms & _ & H).
  destruct (nth_error funsKeys opIdx) as [f|]; [|discriminate].
  apply rbind_Ok in H. destruct H as (funcs & _ & H).
  injection H as <-. destruct (every_zero term'); [exact I|reflexivity].
Qed.

(** Every neighbour carries the score of the model it was copied from. *)
Lemma neighbors_score best nvars ns :
  neighbors best nvars = Ok ns ->
  Forall (fun n => IT.score n = IT.score best) ns.
Proof.
  unfold neighbors. intros H.
  apply rbind_Ok in H. destruct H as (per_term & H & [= <-]).
  apply Forall_concat. revert H. apply mapR_Forall. intros termIdx l H.
  apply rbind_Ok in H. destruct H as (per_op & H & [= <-]).
  apply Forall_concat. revert H. apply mapR_Forall. intros opIdx l H.
  apply rbind_Ok in H. destruct H as (per_var & H & [= <-]).
  apply Forall_concat. revert H. apply mapR_Forall. intros tIdx l H.
  apply rbind_Ok in H. destruct H as (per_inc & H & [= <-]).
  apply Forall_somes. revert H. apply mapR_Forall. intros inc o H.
  eapply neighbor_score. eassumption.
Qed.

Lemma bestScore_fold_In a x : In (fold_left bestScore a x) (x :: a).
Proof.
  revert x. induction a as [|y a IH]; intros x; simpl; [left; reflexivity|].
  specialize (IH (bestScore x y)). simpl in IH. destruct IH as [E|I].
  - rewrite <- E. unfold bestScore.
    destruct (Num.gtb _ _); [right; left|left]; reflexivity.
  - right. right. assumption.
Qed.

Lemma reduce_bestScore_In a best : reduce_bestScore a = Ok best -> In best a.
Proof.
  destruct a as [|x a]; [discriminate|]. intros [= <-]. apply bestScore_fold_In.
Qed.

Section LocalSearch.

Context {host : MathHost}.

Variables (Xs : list (list Num.num)) (ys : list Num.num).

Lemma fitIT_hasFiniteScore m : hasFiniteScore (fitIT m Xs ys).
Proof. apply fitIT_finite_score. Qed.

(** Within a scan the best score never falls below the score [s0] that the
    best model had when the neighbourhood was built. *)
Lemma ITLS_accept_invariant s0 best neigh best' :
  IT.score neigh = Some (Num.Fin s0) ->
  hasFiniteScore best -> Num.geb (scoreOf best) (Num.Fin s0) = true ->
  ITLS_accept Xs ys best neigh = Ok best' ->
  hasFiniteScore best' /\ Num.geb (scoreOf best') (Num.Fin s0) = true.
Proof.
  intros Hn Hb Hge H. unfold ITLS_accept in H.
  apply rbind_Ok in H. destruct H as (spliced & Hs & H).
  apply rbind_Ok in H. destruct H as (returned & _ & H).
  injection H as <-.
  destruct (Num.gtb (scoreOf (fitIT returned Xs ys)) (scoreOf best)) eqn:Egt;
    [|split; assumption].
  destruct (IT.length spliced =? 0)%Z.
  - apply sanitize_inplace_score in Hs. rewrite Hn in Hs.
    split; [exists s0; assumption|].
    unfold scoreOf. rewrite Hs. apply geb_refl_fin.
  - split; [apply fitIT_hasFiniteScore|]. eapply gtb_geb_trans; eassumption.
Qed.

Lemma ITLS_scan_invariant s0 stopScore ns :
  Forall (fun n => IT.score n = Some (Num.Fin s0)) ns ->
  forall best best' stop,
    hasFiniteScore best -> Num.geb (scoreOf best) (Num.Fin s0) = true ->
    ITLS_scan Xs ys stopScore best ns = Ok (best', stop) ->
    hasFiniteScore best' /\ Num.geb (scoreOf best') (Num.Fin s0) = true.
Proof.
  induction 1 as [|neigh ns Hn _ IH]; intros best best' stop Hb Hge H;
    simpl in H.
  - injection H as <- <-. split; assumption.
  - apply rbind_Ok in H. destruct H as (b1 & Ha & H).
    assert (hasFiniteScore b1 /\ Num.geb (scoreOf b1) (Num.Fin s0) = true)
      as [Hb1 Hge1] by (eapply ITLS_accept_invariant; eassumption).
    destruct (Num.geb (scoreOf b1) stopScore).
    + injection H as <- <-. split; assumption.
    + eapply IH; eassumption.
Qed.

Lemma ITLS_iteration_monotone nvars stopScore i best best' stop :
  hasFiniteScore best ->
  ITLS_iteration Xs ys nvars stopScore i best = Ok (best', stop) ->
  Num.geb (scoreOf best') (scoreOf best) = true /\ hasFiniteScore best'.
Proof.
  intros (s0 & Hs0) H. unfold ITLS_iteration in H.
  apply rbind_Ok in H. destruct H as (ns & Hns & H).
  apply neighbors_score in Hns. rewrite Hs0 in Hns.
  assert (scoreOf best = Num.Fin s0) as Hsc
      by (unfold scoreOf; rewrite Hs0; reflexivity).
  assert (hasFiniteScore best' /\ Num.geb (scoreOf best') (Num.Fin s0) = true)
    as [Hf Hge].
  { eapply ITLS_scan_invariant;
      [exact Hns | exists s0; exact Hs0
       | rewrite Hsc; apply geb_refl_fin | exact H]. }
  rewrite Hsc. split; assumption.
Qed.

Lemma geb_trans x y z :
  Num.geb x y = true -> Num.geb y z = true -> Num.geb x z = true.
Proof.
  unfold Num.geb.
  destruct x as [a| | |], y as [b| | |], z as [c| | |]; simpl;
    try discriminate; try reflexivity.
  intros H1 H2. apply Qle_bool_iff in H1. apply Qle_bool_iff in H2.
  apply Qle_bool_iff. lra.
Qed.

Lemma ITLS_loop_monotone nvars stopScore its :
  forall best best',
    hasFiniteScore best ->
    someR (ITLS_iteration Xs ys nvars stopScore) its best = Ok best' ->
    Num.geb (scoreOf best') (scoreOf best) = true /\ hasFiniteScore best'.
Proof.
  induction its as [|i its IH]; intros best best' Hb H; simpl in H.
  - injection H as <-. split; [|assumption].
    destruct Hb as (q & Hq). unfold scoreOf. rewrite Hq. apply geb_refl_fin.
  - apply rbind_Ok in H. destruct H as ([b1 stop] & Hit & H). simpl in H.
    assert (Num.geb (scoreOf b1) (scoreOf best) = true /\ hasFiniteScore b1)
      as [Hge Hb1] by (eapply ITLS_iteration_monotone; eassumption).
    destruct stop.
    + injection H as <-. split; assumption.
    + destruct (IH _ _ Hb1 H) as [Hge' Hb'].
      split; [eapply geb_trans; eassumption|assumption].
Qed.

Lemma initialPopulation_fitted popSize minSize maxSize expolim nvars g pop g' :
  initialPopulation Xs ys popSize minSize maxSize expolim nvars g = Ok (pop, g') ->
  Forall hasFiniteScore pop.
Proof.
  unfold initialPopulation. intros H.
  apply bind_Ok in H. destruct H as (sizes & g1 & _ & H).
  apply bind_Ok in H. destruct H as (groups & g2 & Hg & H).
  apply ret_Ok in H. destruct H as [-> _].
  apply Forall_concat.
  eapply (mapM_Ok (Forall hasFiniteScore)); [|eassumption].
  intros expSize g3 group g4 Hgr.
  apply bind_Ok in Hgr. destruct Hgr as (n & g5 & _ & Hgr).
  eapply (Array_from_Ok hasFiniteScore); [|eassumption].
  intros k g6 y g7 Hy.
  apply bind_Ok in Hy. destruct Hy as (m & g8 & _ & Hy).
  apply bind_Ok in Hy. destruct Hy as (s & g9 & _ & Hy).
  apply ret_Ok in Hy. destruct Hy as [-> _]. apply fitIT_hasFiniteScore.
Qed.

End LocalSearch.

(** C1, as stated, fails for ITES and for SYMTREE.  In ITES the best model
    is recomputed from the new population alone: on the run below (for any
    host) the best score is 1 before generation 0 and 1/2 after it.  In
    SYMTREE the best model is recomputed from the new leaves, which are
    pruned with the caller's threshold: on the run below the only leaf has
    score 250/253 before iteration 0 and 34/35 after it. *)
Lemma best_score_can_decrease :
  (forall host : MathHost,
      (pop <- initialPopulation regress_Xs regress_ys 1 1 1 1 1 ;;
       lift (reduce_bestScore pop)) regress_draws
      = Ok (regress_before, [0; 0; 3 # 4; 0; 7 # 8; 0; 0])
      /\ ITES_generation regress_Xs regress_ys 1 1 1 1 (Num.Fin (99 # 100)) 0
           ([regress_before], regress_before) [0; 0; 3 # 4; 0; 7 # 8; 0; 0]
         = Ok ([regress_after], regress_after, false, []))
  /\ Num.geb (scoreOf regress_after) (scoreOf regress_before) = false
  /\ (forall host : MathHost,
        (root <-? buildRootIT 1 ;; Ok (fitIT root tree_Xs tree_ys))
        = Ok tree_before
        /\ SYMTREE_iteration tree_Xs tree_ys 1 (Num.Fin 1) 100 100 (Num.Fin 1) 0
             [tree_before]
           = Ok ([tree_after], false))
  /\ Num.geb (scoreOf tree_after) (scoreOf tree_before) = false.
Proof.
  split. { intros host. split; vm_compute; reflexivity. }
  split. { reflexivity. }
  split. { intros host. split; vm_compute; reflexivity. }
  reflexivity.
Qed.

(** C1 (amended): in ITLS the tracked best score does not decrease over an
    iteration.  The best model of the initial population carries a finite
    score; and from a best model with a finite score, the best model after
    one iteration (one scan of the neighbourhood) has a finite score that
    is greater than or equal to the score before the iteration; hence the
    same holds from the start to the end of the whole loop. *)
Theorem ITLS_best_score_monotone :
  forall (host : MathHost) Xs ys,
    (forall popSize minSize maxSize expolim nvars g pop g' best,
        initialPopulation Xs ys popSize minSize maxSize expolim nvars g
        = Ok (pop, g') ->
        reduce_bestScore pop = Ok best -> hasFiniteScore best)
    /\ (forall nvars stopScore i best best' stop,
          hasFiniteScore best ->
          ITLS_iteration Xs ys nvars stopScore i best = Ok (best', stop) ->
          Num.geb (scoreOf best') (scoreOf best) = true
          /\ hasFiniteScore best')
    /\ (forall nvars stopScore its best best',
          hasFiniteScore best ->
          someR (ITLS_iteration Xs ys nvars stopScore) its best = Ok best' ->
          Num.geb (scoreOf best') (scoreOf best) = true
          /\ hasFiniteScore best').
Proof.
  intros host Xs ys. split; [|split].
  - intros popSize minSize maxSize expolim nvars g pop g' best Hp Hr.
    apply initialPopulation_fitted in Hp. apply reduce_bestScore_In in Hr.
    rewrite Forall_forall in Hp. apply Hp. assumption.
  - intros. eapply ITLS_iteration_monotone; eassumption.
  - intros. eapply ITLS_loop_monotone; eassumption.
Qed.

Lemma ITLS_best_score_monotone_witness :
  Num.geb (scoreOf local_after) (scoreOf regress_after) = true
  /\ hasFiniteScore local_after.
Proof.
  apply (proj1 (proj2 (ITLS_best_score_monotone nanHost regress_Xs regress_ys))
               1%Z (Num.Fin (99 # 100)) 0%Z regress_after local_after true).
  - exists (1 # 2). reflexivity.
  - vm_compute. reflexivity.
Defined.

(** ** The structural invariant *)

Lemma splice1_length_eq {A B : Type} i (a : list A) (b : list B) :
  List.length a = List.length b ->
  List.length (splice1 i a) = List.length (splice1 i b).
Proof.
  revert i b. induction a as [|x a IH]; intros i [|y b] E; simpl in *;
    try discriminate.
  - destruct i; reflexivity.
  - destruct i; simpl; [lia|]. rewrite (IH i b) by lia. reflexivity.
Qed.

Lemma fold_splice_length_eq {A B : Type} idx (a : list A) (b : list B) :
  List.length a = List.length b ->
  List.length (fold_left (fun a index => splice1 index a) idx a)
  = List.length (fold_left (fun a index => splice1 index a) idx b).
Proof.
  revert a b. induction idx as [|i idx IH]; intros a b E; simpl; [assumption|].
  apply IH. apply splice1_length_eq. assumption.
Qed.

Lemma sanitize_inplace_wf m s : wf m -> sanitize_inplace m = Ok s -> wf s.
Proof.
  intros (Hf & Hc & _) H. unfold sanitize_inplace in H.
  apply rbind_Ok in H. destruct H as (idx & _ & [= <-]).
  rewrite fold_spliceIT. unfold wf. cbn [IT.terms IT.funcs IT.coeffs IT.length].
  repeat split; apply fold_splice_length_eq; assumption.
Qed.

Lemma sanitizeIT_wf m r : wf m -> sanitizeIT m = Ok r -> wf r.
Proof.
  intros Hwf H. unfold sanitizeIT in H.
  apply rbind_Ok in H. destruct H as (s & Hs & [= <-]).
  destruct (IT.length s =? 0)%Z.
  - rewrite copyIT_id. assumption.
  - eapply sanitize_inplace_wf; eassumption.
Qed.

Lemma buildRootIT_wf nvars m : buildRootIT nvars = Ok m -> wf m.
Proof.
  unfold buildRootIT, Array_fill. intros H.
  destruct ((nvars <? 0)%Z || (2 ^ 32 <=? nvars)%Z) eqn:E; [discriminate|].
  injection H as <-. unfold wf. cbn [IT.terms IT.funcs IT.coeffs IT.length].
  rewrite !length_map, repeat_length. unfold indices. rewrite length_seq.
  apply orb_false_iff in E. destruct E as [E _]. apply Z.ltb_ge in E.
  repeat split; lia.
Qed.

Lemma buildRandIT_wf nTerms nvars expolim g m g' :
  buildRandIT nTerms nvars expolim g = Ok (m, g') -> wf m.
Proof.
  intros H. unfold buildRandIT in H.
  apply bind_Ok in H. destruct H as (terms & g1 & Ht & H).
  apply bind_Ok in H. destruct H as (funcs & g2 & Hf & H).
  apply bind_Ok in H. destruct H as (coeffs & g3 & Hc & H).
  apply ret_Ok in H. destruct H as [-> _].
  apply (Array_from_Ok (fun _ => True)) in Ht; [|intros; exact I].
  apply (Array_from_Ok (fun _ => True)) in Hf; [|intros; exact I].
  apply lift_Ok in Hc. destruct Hc as [Hc _]. unfold Array_fill in Hc.
  destruct ((nTerms <? 0)%Z || (2 ^ 32 <=? nTerms)%Z) eqn:E; [discriminate|].
  injection Hc as <-.
  apply orb_false_iff in E. destruct E as [E _]. apply Z.ltb_ge in E.
  unfold wf. cbn [IT.terms IT.funcs IT.coeffs IT.length].
  rewrite repeat_length. destruct Ht as [_ Ht]. destruct Hf as [_ Hf].
  repeat split; lia.
Qed.

Section Invariant.

Context {host : MathHost}.

Lemma simplifyIT_rec_wf fuel m Xs ys nvars threshold :
  wf m -> wf (simplifyIT_rec fuel m Xs ys nvars threshold).
Proof.
  revert m. induction fuel as [|fuel IH]; intros m Hwf; rewrite simplifyIT_rec_eq;
    destruct (_ =? 0)%Z; try assumption; destruct (_ =? _)%Z; try assumption.
  apply IH. apply fitIT_wf, prune_wf. assumption.
Qed.

Lemma simplifyIT_wf m Xs ys nvars threshold :
  wf m -> wf (simplifyIT m Xs ys nvars threshold).
Proof. apply simplifyIT_rec_wf. Qed.

End Invariant.

(** X1: the structural invariant [|terms| = |funcs| = |coeffs| = length]
    holds for every model that [buildRootIT] or [buildRandIT] returns, and
    [copyIT], [composeIT], [sanitizeIT], [fitIT] and [simplifyIT] preserve
    it. *)
Theorem structural_invariant :
  (forall nvars m, buildRootIT nvars = Ok m -> wf m)
  /\ (forall nTerms nvars expolim g m g',
        buildRandIT nTerms nvars expolim g = Ok (m, g') -> wf m)
  /\ (forall m, wf m -> wf (copyIT m))
  /\ (forall m nt, wf m -> wf (composeIT m nt))
  /\ (forall m r, wf m -> sanitizeIT m = Ok r -> wf r)
  /\ (forall (host : MathHost) m Xs ys, wf m -> wf (fitIT m Xs ys))
  /\ (forall (host : MathHost) m Xs ys nvars threshold,
        wf m -> wf (simplifyIT m Xs ys nvars threshold)).
Proof.
  split; [exact buildRootIT_wf|].
  split; [exact buildRandIT_wf|].
  split; [intros m H; rewrite copyIT_id; assumption|].
  split; [intros; apply composeIT_wf; assumption|].
  split; [exact sanitizeIT_wf|].
  split; [intros; apply fitIT_wf; assumption|].
  intros; apply simplifyIT_wf; assumption.
Qed.

(** ** What [sanitizeIT] guarantees *)

Lemma splice1_map {A B : Type} (f : A -> B) i l :
  splice1 i (map f l) = map f (splice1 i l).
Proof.
  revert i. induction l as [|x l IH]; intros i; simpl.
  - destruct i; reflexivity.
  - destruct i; simpl; [reflexivity|]. rewrite IH. reflexivity.
Qed.

Lemma fold_splice_map {A B : Type} (f : A -> B) idx l :
  fold_right (fun index a => splice1 index a) (map f l) idx
  = map f (fold_right (fun index a => splice1 index a) l idx).
Proof.
  induction idx as [|i idx IH]; simpl; [reflexivity|].
  rewrite IH. apply splice1_map.
Qed.

Lemma map_nth_seq {A : Type} (a : list A) d :
  map (fun k => nth k a d) (seq 0 (List.length a)) = a.
Proof.
  induction a as [|x a IH]; simpl; [reflexivity|].
  rewrite <- seq_shift, map_map. simpl. rewrite IH. reflexivity.
Qed.

(** The splices select the same indices in every array. *)
Lemma fold_splice_select {A : Type} idx (a : list A) d :
  fold_right (fun index a => splice1 index a) a idx
  = map (fun k => nth k a d)
        (fold_right (fun index a => splice1 index a)
                    (seq 0 (List.length a)) idx).
Proof.
  rewrite <- fold_splice_map. rewrite map_nth_seq. reflexivity.
Qed.

Lemma splice1_pre {A : Type} (pre l : list A) :
  splice1 (List.length pre) (pre ++ l) = pre ++ tl l.
Proof.
  induction pre as [|y pre IH]; simpl.
  - destruct l; reflexivity.
  - rewrite IH. reflexivity.
Qed.

Lemma tl_skipn {A : Type} c (l : list A) : tl (skipn c l) = skipn (S c) l.
Proof.
  revert l. induction c as [|c IH]; intros l; simpl.
  - destruct l; reflexivity.
  - destruct l as [|x l]; [reflexivity|]. rewrite IH. reflexivity.
Qed.

(** Splicing the same index [c] times removes [c] consecutive elements. *)
Lemma splice_repeat {A : Type} (pre l : list A) c :
  fold_right (fun index a => splice1 index a) (pre ++ l)
             (repeat (List.length pre) c)
  = pre ++ skipn c l.
Proof.
  induction c as [|c IH]; simpl; [reflexivity|].
  rewrite IH, splice1_pre, tl_skipn. reflexivity.
Qed.

Lemma pushes_repeat m k : pushes m k = repeat k (pushCount m k).
Proof.
  unfold pushes, pushCount. destruct (every_zero _); [reflexivity|].
  induction (laterDuplicates m k) as [|x l IH]; simpl; [reflexivity|].
  rewrite IH. reflexivity.
Qed.

Lemma keptLast_count m k : keptLast m k = true <-> pushCount m k = 0%nat.
Proof.
  unfold keptLast, pushCount. destruct (every_zero _); simpl.
  - split; [discriminate|lia].
  - apply Nat.eqb_eq.
Qed.

Lemma good_skipn m a b c R : good m a b R -> good m a b (skipn c R).
Proof.
  intros [Hs Hf]. revert R Hs Hf. induction c as [|c IH]; intros R Hs Hf; simpl.
  - split; assumption.
  - destruct R as [|x R]; [split; assumption|].
    inversion Hs; subst. inversion Hf; subst. apply IH; assumption.
Qed.

Lemma good_weaken m a a' b R : (a <= a')%nat -> good m a' b R -> good m a b R.
Proof.
  intros Ha [Hs Hf]. split; [assumption|].
  eapply Forall_impl; [|exact Hf]. simpl. intros k [Hk Hkept].
  split; [lia|assumption].
Qed.

(** Every index that is pushed is removed; the splices that repeat an index
    remove further, later survivors. *)
Lemma splice_pushes m len :
  forall a pre,
    List.length pre = a ->
    exists R,
      fold_right (fun index l => splice1 index l) (pre ++ seq a len)
                 (flat_map (pushes m) (seq a len))
      = pre ++ R
      /\ good m a (a + len) R.
Proof.
  induction len as [|len IH]; intros a pre Ha; subst a; simpl.
  - exists []. split; [reflexivity|]. split; constructor.
  - rewrite fold_right_app.
    destruct (IH (S (List.length pre)) (pre ++ [List.length pre]))
      as (R' & HR' & Hg').
    { rewrite length_app. simpl. lia. }
    rewrite <- app_assoc in HR'. simpl in HR'. rewrite HR'.
    rewrite <- app_assoc. cbn [app]. rewrite pushes_repeat, splice_repeat.
    destruct (keptLast m (List.length pre)) eqn:Ek.
    + apply keptLast_count in Ek. rewrite Ek. simpl.
      exists (List.length pre :: R'). split; [reflexivity|].
      destruct Hg' as [Hs Hf]. split.
      * constructor; [assumption|].
        eapply Forall_impl; [|exact Hf]. simpl. intros k [Hk _]. lia.
      * constructor; [split; [lia|apply keptLast_count; assumption]|].
        eapply Forall_impl; [|exact Hf]. simpl. intros k [Hk Hkept].
        split; [lia|assumption].
    + destruct (pushCount m (List.length pre)) as [|c] eqn:Ec.
      * apply keptLast_count in Ec. congruence.
      * simpl. exists (skipn c R'). split; [reflexivity|].
        apply good_skipn.
        apply good_weaken with (a' := S (List.length pre)); [lia|].
        replace (List.length pre + S len)%nat
          with (S (List.length pre) + len)%nat by lia.
        assumption.
Qed.

Lemma survivors_good m : good m 0 (List.length (IT.terms m)) (survivors m).
Proof.
  unfold survivors.
  destruct (@splice_pushes m (List.length (IT.terms m)) 0%nat [] eq_refl)
    as (R & HR & Hg).
  simpl in HR. rewrite HR. assumption.
Qed.

Lemma sanitize_inplace_select m :
  wf m ->
  sanitize_inplace m
  = Ok (IT.mk (map (fun k => nth k (IT.terms m) []) (survivors m))
              (map (fun k => nth k (IT.funcs m) Fid) (survivors m))
              (map (fun k => nth k (IT.coeffs m) Num.NaN) (survivors m))
              (Z.of_nat (List.length (survivors m)))
              (IT.score m)).
Proof.
  intros Hwf. unfold sanitize_inplace. rewrite (toRemove_Ok Hwf). cbn [rbind].
  rewrite fold_spliceIT. cbn [IT.terms IT.funcs IT.coeffs IT.score].
  rewrite !fold_left_rev_splice.
  destruct Hwf as (Hf & Hc & _).
  rewrite (fold_splice_select _ (IT.terms m) []).
  rewrite (fold_splice_select _ (IT.funcs m) Fid).
  rewrite (fold_splice_select _ (IT.coeffs m) Num.NaN).
  rewrite Hf, Hc. fold (survivors m). rewrite length_map. reflexivity.
Qed.

Lemma sorted_nth_lt R :
  StronglySorted lt R ->
  forall i j, (i < j < List.length R)%nat -> (nth i R 0 < nth j R 0)%nat.
Proof.
  induction 1 as [|x R Hs IH Hall]; intros i j Hij; simpl in *; [lia|].
  destruct i, j; try lia.
  - rewrite Forall_forall in Hall. apply Hall. apply nth_In. lia.
  - apply IH. lia.
Qed.

Lemma laterDuplicates_nil m k j :
  laterDuplicates m k = [] -> (k < j < List.length (IT.terms m))%nat ->
  duplicateOf m k j = false.
Proof.
  intros H Hj. destruct (duplicateOf m k j) eqn:E; [|reflexivity].
  assert (In j (laterDuplicates m k)) as Hin.
  { apply filter_In. split; [apply in_seq; lia|assumption]. }
  rewrite H in Hin. destruct Hin.
Qed.

Lemma sanitize_inplace_clean m s :
  wf m -> sanitize_inplace m = Ok s -> clean s.
Proof.
  intros Hwf H. rewrite (sanitize_inplace_select Hwf) in H. injection H as <-.
  destruct (survivors_good m) as [Hs Hf].
  set (R := survivors m) in *.
  assert (forall k, (k < List.length R)%nat ->
                    (nth k R 0 < List.length (IT.terms m))%nat
                    /\ keptLast m (nth k R 0%nat) = true) as Hk.
  { intros k Hlt. rewrite Forall_forall in Hf.
    destruct (Hf (nth k R 0%nat) (nth_In _ _ Hlt)) as [Hr Hkept].
    split; [lia|assumption]. }
  destruct Hwf as (Hfl & _ & _).
  unfold clean. cbn [IT.terms]. split.
  - apply no_zero_term. apply Forall_forall. intros t Ht.
    apply in_map_iff in Ht. destruct Ht as (k & <- & Hin).
    rewrite Forall_forall in Hf. destruct (Hf k Hin) as [_ Hkept].
    unfold keptLast in Hkept. apply andb_true_iff in Hkept.
    destruct Hkept as [Hz _]. apply negb_true_iff in Hz. assumption.
  - intros i j Hij. rewrite length_map in Hij.
    unfold duplicateOf. cbn [IT.terms IT.funcs].
    assert (forall k, (k < List.length R)%nat ->
              nth k (map (fun k0 => nth k0 (IT.terms m) []) R) []
              = nth (nth k R 0%nat) (IT.terms m) []) as Hnt.
    { intros k Hlt.
      rewrite (nth_indep _ [] (nth 0 (IT.terms m) []))
        by (rewrite length_map; assumption).
      apply (map_nth (fun k0 => nth k0 (IT.terms m) []) R 0%nat k). }
    assert (forall k, (k < List.length R)%nat ->
              nth_error (map (fun k0 => nth k0 (IT.funcs m) Fid) R) k
              = nth_error (IT.funcs m) (nth k R 0%nat)) as Hnf.
    { intros k Hlt. rewrite nth_error_map.
      rewrite (nth_error_nth' R 0%nat Hlt). simpl.
      symmetry. apply nth_error_nth'. rewrite Hfl. apply Hk. assumption. }
    rewrite !Hnt, !Hnf by lia.
    pose proof (sorted_nth_lt Hs Hij) as Hlt.
    destruct (Hk i) as [Hri Hki]; [lia|]. destruct (Hk j) as [Hrj Hkj]; [lia|].
    unfold keptLast in Hki. apply andb_true_iff in Hki. destruct Hki as [_ Hnil].
    apply Nat.eqb_eq in Hnil. apply length_zero_iff_nil in Hnil.
    apply (laterDuplicates_nil m Hnil). lia.
Qed.

(** X2: on a well-formed model [sanitizeIT] returns either a non-empty model
    with no all-zero exponent vector and no two terms sharing exponents
    and function, or, when its splices leave no term at all, the input
    unchanged. *)
Theorem sanitizeIT_clean_or_unchanged :
  forall m r,
    wf m -> sanitizeIT m = Ok r ->
    (clean r /\ IT.length r <> 0%Z)
    \/ (r = m /\ exists s, sanitize_inplace m = Ok s /\ IT.length s = 0%Z).
Proof.
  intros m r Hwf H. unfold sanitizeIT in H.
  apply rbind_Ok in H. destruct H as (s & Hs & [= <-]).
  destruct (IT.length s =? 0)%Z eqn:E.
  - right. split; [apply copyIT_id|]. exists s. split; [assumption|].
    apply Z.eqb_eq. assumption.
  - left. split; [eapply sanitize_inplace_clean; eassumption|].
    apply Z.eqb_neq. assumption.
Qed.

Lemma sanitizeIT_clean_or_unchanged_witness :
  (clean (IT.mk [[1%Z]] [Fid] [Num.Fin 3] 1 None)
   /\ IT.length (IT.mk [[1%Z]] [Fid] [Num.Fin 3] 1 None) <> 0%Z)
  \/ (IT.mk [[1%Z]] [Fid] [Num.Fin 3] 1 None = duplicate_pair
      /\ exists s, sanitize_inplace duplicate_pair = Ok s /\ IT.length s = 0%Z).
Proof.
  apply sanitizeIT_clean_or_unchanged; [repeat split|reflexivity].
Defined.

(** ** Termination of the tree expansion *)

Lemma mapR_total {A B : Type} (P : A -> Prop) (Q : B -> Prop)
      (f : A -> result B) l :
  (forall x, P x -> exists y, f x = Ok y /\ Q y) ->
  Forall P l ->
  exists ys, mapR f l = Ok ys /\ Forall Q ys /\ List.length ys = List.length l.
Proof.
  intros Hf. induction 1 as [|x l Hx _ IH]; simpl.
  - exists []. split; [reflexivity|]. split; [constructor|reflexivity].
  - destruct (Hf x Hx) as (y & Hy & HQ). rewrite Hy. cbn [rbind].
    destruct IH as (ys & Hys & HQs & Hl). rewrite Hys. cbn [rbind].
    exists (y :: ys). split; [reflexivity|].
    split; [constructor; assumption|simpl; lia].
Qed.

Lemma concat_nonempty {A : Type} (ls : list (list A)) :
  ls <> [] -> Forall (fun l => l <> []) ls -> concat ls <> [].
Proof.
  intros Hne Hall. destruct ls as [|l ls]; [congruence|].
  inversion Hall; subst. simpl. destruct l; [congruence|discriminate].
Qed.

Lemma filterR_In {A : Type} (p : A -> result bool) l kept x :
  filterR p l = Ok kept -> In x kept -> p x = Ok true.
Proof.
  revert kept. induction l as [|y l IH]; intros kept H Hin; simpl in H.
  - injection H as <-. destruct Hin.
  - apply rbind_Ok in H. destruct H as (b & Hb & H).
    apply rbind_Ok in H. destruct H as (rest & Hr & [= <-]).
    destruct b.
    + destruct Hin as [<-|Hin]; [assumption|]. eapply IH; eassumption.
    + eapply IH; eassumption.
Qed.

Lemma range_total start stop :
  (start <= stop < start + 2 ^ 32)%Z -> exists l, range start stop 1 = Ok l.
Proof.
  intros H. unfold range. simpl (1 =? 0)%Z. cbv iota.
  rewrite Z.div_1_r.
  replace ((- (start - stop) <? 0)%Z) with false
    by (symmetry; apply Z.ltb_ge; lia).
  replace ((2 ^ 32 <=? - (start - stop))%Z) with false
    by (symmetry; apply Z.leb_gt; lia).
  simpl. eexists. reflexivity.
Qed.

Section Termination.

Context {host : MathHost}.

Variables (Xs : list (list Num.num)) (ys : list Num.num).

Lemma attempt_wf base nt a : wf base -> attempt Xs ys base nt = Ok a -> wf a.
Proof.
  intros Hwf H. unfold attempt in H. apply rbind_Ok in H.
  destruct H as (s & Hs & [= <-]). apply fitIT_wf.
  eapply sanitizeIT_wf; [|eassumption].
  rewrite copyIT_id. apply composeIT_wf. assumption.
Qed.

Lemma greedyPass_total toExpand :
  forall greedyBest,
    wf greedyBest ->
    exists gb rest,
      greedyPass Xs ys greedyBest toExpand = Ok (gb, rest)
      /\ wf gb
      /\ (List.length rest <= List.length toExpand)%nat
      /\ incl rest toExpand.
Proof.
  induction toExpand as [|nt l IH]; intros gb Hwf; simpl.
  - exists gb, []. split; [reflexivity|]. split; [assumption|].
    split; [apply Nat.le_refl|apply incl_refl].
  - destruct (attempt_total Xs ys nt Hwf) as (a & Ha). rewrite Ha. simpl.
    destruct (Num.gtb (scoreOf a) (scoreOf gb)).
    + assert (wf (copyIT a)) as Hwa.
      { rewrite copyIT_id. eapply attempt_wf; eassumption. }
      destruct (IH _ Hwa) as (gb' & rest & Hp & Hw' & Hl & Hi).
      exists gb', rest. rewrite Hp. split; [reflexivity|]. split; [assumption|].
      split; [simpl; lia|]. apply incl_tl. assumption.
    + destruct (IH _ Hwf) as (gb' & rest & Hp & Hw' & Hl & Hi).
      rewrite Hp. simpl. exists gb', (nt :: rest).
      split; [reflexivity|]. split; [assumption|]. split; [simpl; lia|].
      apply incl_cons; [left; reflexivity|apply incl_tl; assumption].
Qed.

(** A pass that starts from the leaf accepts its first candidate when that
    candidate improves the leaf, so it leaves fewer candidates. *)
Lemma greedyPass_shrinks leaf nt l gb rest :
  wf leaf ->
  improves Xs ys leaf nt = Ok true ->
  greedyPass Xs ys leaf (nt :: l) = Ok (gb, rest) ->
  (List.length rest <= List.length l)%nat /\ incl rest l.
Proof.
  intros Hwf Him H. simpl in H. unfold improves in Him.
  apply rbind_Ok in Him. destruct Him as (a & Ha & Hgt). rewrite Ha in H.
  simpl in H. injection Hgt as Hgt. rewrite Hgt in H.
  assert (wf (copyIT a)) as Hwa.
  { rewrite copyIT_id. eapply attempt_wf; eassumption. }
  destruct (greedyPass_total l Hwa) as (gb' & rest' & Hp & _ & Hl & Hi).
  rewrite Hp in H. injection H as <- <-. split; assumption.
Qed.

Lemma greedySearch_total nvars threshold leaf :
  wf leaf ->
  forall fuel toExpand,
    (forall nt, In nt toExpand -> improves Xs ys leaf nt = Ok true) ->
    (List.length toExpand <= fuel)%nat ->
    exists children,
      greedySearch Xs ys fuel nvars threshold leaf toExpand = Ok children
      /\ Forall wf children.
Proof.
  intros Hwf. induction fuel as [|fuel IH]; intros toExpand Hall Hlen.
  - destruct toExpand; [|simpl in Hlen; lia].
    exists []. simpl. split; [reflexivity|constructor].
  - destruct toExpand as [|nt l].
    + exists []. simpl. split; [reflexivity|constructor].
    + cbn [greedySearch].
      destruct (greedyPass_total (nt :: l) Hwf) as (gb & rest & Hp & Hwg & _ & _).
      rewrite Hp. cbn [rbind fst snd].
      assert ((List.length rest <= List.length l)%nat /\ incl rest l)
        as (Hl & Hi).
      { eapply greedyPass_shrinks;
          [exact Hwf|apply Hall; left; reflexivity|exact Hp]. }
      destruct (IH rest) as (children & Hc & Hwc).
      * intros x Hx. apply Hall. right. apply Hi. assumption.
      * simpl in Hlen. lia.
      * rewrite Hc. cbn [rbind]. eexists. split; [reflexivity|].
        constructor; [apply simplifyIT_wf; assumption|assumption].
Qed.

Lemma expandLeaf_Ok nvars threshold i minI minT leaf :
  wf leaf ->
  exists children,
    expandLeaf Xs ys nvars threshold i minI minT leaf = Ok children
    /\ children <> []
    /\ Forall wf children.
Proof.
  intros Hwf. unfold expandLeaf.
  rewrite (candidates_Ok i minI minT Hwf). cbn [rbind].
  destruct (filterR (improves Xs ys leaf) (candidatesPure i minI minT leaf))
    as [kept|e] eqn:Hk.
  2:{ rewrite (filterR_pure _
                 (fun c => match attempt Xs ys leaf c with
                           | Ok a => Num.gtb (scoreOf a) (scoreOf leaf)
                           | Throw _ => false
                           end)) in Hk; [discriminate|].
      intros c _. unfold improves.
      destruct (attempt_total Xs ys c Hwf) as (a & Ha). rewrite Ha. reflexivity. }
  cbn [rbind].
  assert (exists children,
             greedySearch Xs ys (List.length kept) nvars threshold leaf kept
             = Ok children
             /\ Forall wf children)
    as (children & Hg & Hwc).
  { apply greedySearch_total; [assumption| |apply Nat.le_refl].
    intros nt Hin. eapply filterR_In; eassumption. }
  rewrite Hg. cbn [rbind]. destruct children as [|c cs].
  - exists [leaf]. split; [reflexivity|].
    split; [discriminate|constructor; [assumption|constructor]].
  - exists (c :: cs). split; [reflexivity|]. split; [discriminate|assumption].
Qed.

Lemma SYMTREE_iteration_total nvars threshold minI minT stopScore i leaves :
  leaves <> [] -> Forall wf leaves ->
  exists leaves' stop,
    SYMTREE_iteration Xs ys nvars threshold minI minT stopScore i leaves
    = Ok (leaves', stop)
    /\ leaves' <> [] /\ Forall wf leaves'.
Proof.
  intros Hne Hwf. unfold SYMTREE_iteration.
  assert (exists nodes,
             mapR (expandLeaf Xs ys nvars threshold i minI minT) leaves = Ok nodes
             /\ Forall (fun cs => cs <> [] /\ Forall wf cs) nodes
             /\ List.length nodes = List.length leaves)
    as (nodes & Hn & Hall & Hlen).
  { apply mapR_total with (P := wf); [|assumption].
    intros leaf Hl.
    destruct (expandLeaf_Ok nvars threshold i minI minT Hl)
      as (children & Hc & Hcne & Hcw).
    exists children. split; [assumption|]. split; assumption. }
  rewrite Hn. cbn [rbind].
  assert (concat nodes <> []) as Hcne.
  { apply concat_nonempty.
    - destruct nodes; [destruct leaves; [congruence|discriminate]|discriminate].
    - eapply Forall_impl; [|exact Hall]. simpl. intros l [H _]. assumption. }
  assert (Forall wf (concat nodes)) as Hcw.
  { apply Forall_concat. eapply Forall_impl; [|exact Hall]. simpl.
    intros l [_ H]. assumption. }
  destruct (concat nodes) as [|x l] eqn:E; [congruence|].
  simpl. eexists _, _. split; [reflexivity|]. split; [discriminate|assumption].
Qed.

Lemma SYMTREE_loop_total nvars threshold minI minT stopScore its :
  forall leaves,
    leaves <> [] -> Forall wf leaves ->
    exists leaves',
      someR (SYMTREE_iteration Xs ys nvars threshold minI minT stopScore)
            its leaves
      = Ok leaves'
      /\ leaves' <> [] /\ Forall wf leaves'.
Proof.
  induction its as [|i its IH]; intros leaves Hne Hwf; simpl.
  - exists leaves. split; [reflexivity|]. split; assumption.
  - destruct (@SYMTREE_iteration_total nvars threshold minI minT stopScore i
                 leaves Hne Hwf)
      as (leaves1 & stop & H1 & Hne1 & Hwf1).
    rewrite H1. cbn [rbind fst snd]. destruct stop.
    + exists leaves1. split; [reflexivity|]. split; assumption.
    + apply IH; assumption.
Qed.

End Termination.

(** X3: on a well-formed leaf the expansion step of SYMTREE returns: its
    greedy [while] loop ends within as many passes as there are filtered
    candidates, no exception is raised, and the children it returns are a
    non-empty list of well-formed models. *)
Theorem expandLeaf_total :
  forall (host : MathHost) Xs ys nvars threshold i minI minT leaf,
    wf leaf ->
    exists children,
      expandLeaf Xs ys nvars threshold i minI minT leaf = Ok children
      /\ children <> []
      /\ Forall wf children.
Proof.
  intros. apply expandLeaf_Ok. assumption.
Qed.

Lemma expandLeaf_total_witness :
  exists children,
    expandLeaf (host:=nanHost) tree_Xs tree_ys 1 (Num.Fin 1) 0 100 100 tree_before
    = Ok children
    /\ children <> []
    /\ Forall wf children.
Proof.
  apply expandLeaf_total. repeat split.
Defined.

(** X4: SYMTREE returns a well-formed model, raising no exception, for
    every non-empty dataset and every iteration budget from 0 to
    [2^32 - 1]. *)
Theorem SYMTREE_total :
  forall (host : MathHost) X Xs' ys iterations threshold minI minT stopScore,
    (0 <= iterations < 2 ^ 32)%Z -> (Z.of_nat (List.length X) < 2 ^ 32)%Z ->
    exists m,
      SYMTREE (X :: Xs') ys iterations threshold minI minT stopScore = Ok m
      /\ wf m.
Proof.
  intros host X Xs' ys iterations threshold minI minT stopScore Hit HX.
  unfold SYMTREE. simpl nvarsOf. cbn [rbind].
  destruct (buildRootIT (Z.of_nat (List.length X))) as [root|e] eqn:Hroot.
  2:{ unfold buildRootIT, Array_fill in Hroot.
      replace ((Z.of_nat (List.length X) <? 0)%Z) with false in Hroot
        by (symmetry; apply Z.ltb_ge; lia).
      replace ((2 ^ 32 <=? Z.of_nat (List.length X))%Z) with false in Hroot
        by (symmetry; apply Z.leb_gt; lia).
      discriminate. }
  cbn [rbind].
  destruct (@range_total 0 iterations) as (its & Hits); [lia|].
  rewrite Hits. cbn [rbind].
  assert (exists leaves,
             someR (SYMTREE_iteration (X :: Xs') ys (Z.of_nat (List.length X))
                      threshold minI minT stopScore)
                   its [fitIT root (X :: Xs') ys]
             = Ok leaves
             /\ leaves <> [] /\ Forall wf leaves)
    as (leaves & Hl & Hne & Hwf).
  { apply SYMTREE_loop_total; [discriminate|].
    constructor; [|constructor]. apply fitIT_wf. eapply buildRootIT_wf.
    eassumption. }
  rewrite Hl. cbn [rbind]. destruct leaves as [|x l]; [congruence|].
  simpl. eexists. split; [reflexivity|].
  apply simplifyIT_wf.
  assert (In (fold_left bestScore l x) (x :: l)) as Hin
      by apply bestScore_fold_In.
  rewrite Forall_forall in Hwf. apply Hwf. assumption.
Qed.

Lemma SYMTREE_total_witness :
  exists m,
    SYMTREE (host:=nanHost) tree_Xs tree_ys 1 (Num.Fin 1) 100 100 (Num.Fin 1)
    = Ok m
    /\ wf m.
Proof.
  apply SYMTREE_total; [split; [discriminate|reflexivity]|reflexivity].
Defined.

(** ** The enumeration [range] *)

Lemma ceil_div a b : (0 < b)%Z -> (- (- a / b) = (a + b - 1) / b)%Z.
Proof.
  intros Hb.
  pose proof (Z.div_mod (-a) b ltac:(lia)) as H1.
  pose proof (Z.mod_pos_bound (-a) b Hb) as H2.
  apply Z.div_unique with (r := (b - 1 - (- a) mod b)%Z); [lia|].
  nia.
Qed.

Lemma range_ascending start stop step :
  (0 < step)%Z -> (start < stop)%Z -> (stop - start <= (2 ^ 32 - 1) * step)%Z ->
  exists l,
    range start stop step = Ok l
    /\ Z.of_nat (List.length l) = ((stop - start + step - 1) / step)%Z
    /\ (forall k, (k < List.length l)%nat ->
                  nth_error l k = Some (start + Z.of_nat k * step)%Z)
    /\ Forall (fun x => (start <= x < stop)%Z) l.
Proof.
  intros Hstep Hlt Hbig. unfold range.
  replace (step =? 0)%Z with false by (symmetry; apply Z.eqb_neq; lia).
  replace (start - stop)%Z with (- (stop - start))%Z by lia.
  rewrite (ceil_div (stop - start) Hstep).
  set (n := ((stop - start + step - 1) / step)%Z).
  assert (1 <= n < 2 ^ 32)%Z as Hn.
  { unfold n. split.
    - apply Z.div_le_lower_bound; lia.
    - apply Z.div_lt_upper_bound; [lia|]. lia. }
  replace (n <? 0)%Z with false by (symmetry; apply Z.ltb_ge; lia).
  replace (2 ^ 32 <=? n)%Z with false by (symmetry; apply Z.leb_gt; lia).
  cbn [orb]. cbv zeta. rewrite length_map. unfold indices. rewrite length_seq.
  replace (Z.to_nat n =? 0)%nat with false by (symmetry; apply Nat.eqb_neq; lia).
  eexists. split; [reflexivity|]. rewrite length_map, length_seq.
  split; [lia|]. split.
  - intros k Hk. rewrite nth_error_map, nth_error_seq.
    replace (k <? Z.to_nat n)%nat with true by (symmetry; apply Nat.ltb_lt; lia).
    reflexivity.
  - apply Forall_forall. intros x Hx. apply in_map_iff in Hx.
    destruct Hx as (k & <- & Hk). apply in_seq in Hk.
    assert (Z.of_nat k <= n - 1)%Z by lia.
    assert ((n - 1) * step < stop - start)%Z.
    { unfold n.
      pose proof (Z.div_mod (stop - start + step - 1) step ltac:(lia)).
      pose proof (Z.mod_pos_bound (stop - start + step - 1) step Hstep). nia. }
    nia.
Qed.



(** X6: for a positive step, [range] never returns an empty array: when
    [stop] lies in [(start - step, start]] the array that would be empty is
    replaced by [[start]], and when [stop <= start - step] the call
    [Array(n)] with a negative [n] raises RangeError. *)
Theorem range_degenerate :
  forall start stop step,
    (0 < step)%Z ->
    ((start - step < stop <= start)%Z -> range start stop step = Ok [start])
    /\ ((stop <= start - step)%Z -> range start stop step = Throw RangeError)
    /\ (forall l, range start stop step = Ok l ->
                  l <> [] /\ nth_error l 0 = Some start).
Proof.
  intros start stop step Hstep. unfold range.
  replace (step =? 0)%Z with false by (symmetry; apply Z.eqb_neq; lia).
  replace (start - stop)%Z with (- (stop - start))%Z by lia.
  rewrite (ceil_div (stop - start) Hstep).
  set (n := ((stop - start + step - 1) / step)%Z).
  split; [|split].
  - intros H. assert (n = 0%Z) as ->.
    { unfold n. apply Z.div_small. lia. }
    reflexivity.
  - intros H. assert (n < 0)%Z as Hn.
    { unfold n. apply Z.div_lt_upper_bound; lia. }
    replace (n <? 0)%Z with true by (symmetry; apply Z.ltb_lt; lia).
    reflexivity.
  - intros l.
    match goal with |- context [if ?c then _ else _] => destruct c end;
      [discriminate|].
    intros [= <-]. unfold indices.
    destruct (Z.to_nat n) as [|k]; simpl.
    + split; [discriminate|reflexivity].
    + split; [discriminate|]. f_equal. lia.
Qed.

Lemma range_degenerate_witness :
  ((5 - 1 < 5 <= 5)%Z -> range 5 5 1 = Ok [5%Z])
  /\ ((5 <= 5 - 1)%Z -> range 5 5 1 = Throw RangeError)
  /\ (forall l, range 5 5 1 = Ok l -> l <> [] /\ nth_error l 0 = Some 5%Z).
Proof.
  apply (@range_degenerate 5 5 1). lia.
Defined.

(** ** The reduction with [bestScore] *)

Lemma gtb_fin_false_geb p q :
  Num.gtb (Num.Fin p) (Num.Fin q) = false -> Num.geb (Num.Fin q) (Num.Fin p) = true.
Proof.
  unfold Num.gtb, Num.geb, Num.ltb, Num.leb, Num.Qltb.
  intros H. apply negb_false_iff in H. exact H.
Qed.

Lemma gtb_fin_true_geb p q :
  Num.gtb (Num.Fin p) (Num.Fin q) = true -> Num.geb (Num.Fin p) (Num.Fin q) = true.
Proof.
  unfold Num.gtb, Num.geb, Num.ltb, Num.leb. intros H.
  apply Qltb_lt in H. apply Qle_bool_iff. apply Qlt_le_weak. assumption.
Qed.

Lemma fold_bestScore_max a :
  forall x, hasFiniteScore x -> Forall hasFiniteScore a ->
    hasFiniteScore (fold_left bestScore a x)
    /\ Num.geb (scoreOf (fold_left bestScore a x)) (scoreOf x) = true
    /\ Forall (fun y => Num.geb (scoreOf (fold_left bestScore a x)) (scoreOf y) = true) a.
Proof.
  induction a as [|y a IH]; intros x Hx Ha; simpl.
  - split; [assumption|]. split; [|constructor].
    destruct Hx as (q & Hq). unfold scoreOf. rewrite Hq. apply geb_refl_fin.
  - inversion Ha as [|? ? Hy Ha']; subst.
    assert (hasFiniteScore (bestScore x y)) as Hb.
    { unfold bestScore. destruct (Num.gtb _ _); assumption. }
    destruct (IH _ Hb Ha') as (Hf & Hge & Hall).
    assert (Num.geb (scoreOf (bestScore x y)) (scoreOf x) = true
            /\ Num.geb (scoreOf (bestScore x y)) (scoreOf y) = true) as [Hbx Hby].
    { unfold bestScore. destruct Hx as (p & Hp). destruct Hy as (q & Hq).
      destruct (Num.gtb (scoreOf y) (scoreOf x)) eqn:E;
        unfold scoreOf in *; rewrite ?Hp, ?Hq in *.
      - split; [apply gtb_fin_true_geb; assumption|apply geb_refl_fin].
      - split; [apply geb_refl_fin|apply gtb_fin_false_geb; assumption]. }
    split; [assumption|]. split; [eapply geb_trans; eassumption|].
    constructor; [eapply geb_trans; eassumption|assumption].
Qed.

(** The winner is the first of the best: everything before it scores
    strictly less. *)
Lemma fold_bestScore_first a :
  forall x, hasFiniteScore x -> Forall hasFiniteScore a ->
    fold_left bestScore a x = x
    \/ exists pre post,
         a = pre ++ fold_left bestScore a x :: post
         /\ Num.gtb (scoreOf (fold_left bestScore a x)) (scoreOf x) = true
         /\ Forall (fun y => Num.gtb (scoreOf (fold_left bestScore a x)) (scoreOf y)
                             = true) pre.
Proof.
  induction a as [|y a IH]; intros x Hx Ha; simpl.
  - left. reflexivity.
  - inversion Ha as [|? ? Hy Ha']; subst.
    destruct (Num.gtb (scoreOf y) (scoreOf x)) eqn:E.
    + replace (bestScore x y) with y by (unfold bestScore; rewrite E; reflexivity).
      destruct (IH y Hy Ha') as [Heq|(pre & post & Hsplit & Hgt & Hpre)].
      * right. exists [], a. rewrite Heq. simpl. split; [reflexivity|].
        split; [assumption|constructor].
      * right. exists (y :: pre), post. simpl.
        split; [f_equal; assumption|].
        split.
        -- destruct (fold_bestScore_max Hy Ha') as ((r & Hr) & _ & _).
           destruct Hx as (p & Hp). destruct Hy as (q & Hq).
           unfold scoreOf in *. rewrite Hp, Hq, Hr in *.
           unfold Num.gtb, Num.ltb in *. apply Qltb_lt. apply Qltb_lt in E.
           apply Qltb_lt in Hgt. eapply Qlt_trans; eassumption.
        -- constructor; assumption.
    + replace (bestScore x y) with x by (unfold bestScore; rewrite E; reflexivity).
      destruct (IH x Hx Ha') as [Heq|(pre & post & Hsplit & Hgt & Hpre)].
      * left. assumption.
      * right. exists (y :: pre), post. simpl.
        split; [f_equal; assumption|]. split; [assumption|].
        constructor; [|assumption].
        destruct (fold_bestScore_max Hx Ha') as ((r & Hr) & _ & _).
        destruct Hx as (p & Hp). destruct Hy as (q & Hq).
        unfold scoreOf in *. rewrite Hp, Hq, Hr in *.
        unfold Num.gtb, Num.ltb in *. apply Qltb_lt. apply Qltb_lt in Hgt.
        unfold Num.Qltb in E. apply negb_false_iff in E. apply Qle_bool_iff in E.
        eapply Qle_lt_trans; eassumption.
Qed.

(** A first element without a usable score is never replaced. *)
Lemma reduce_bestScore_nan x a :
  scoreOf x = Num.NaN -> reduce_bestScore (x :: a) = Ok x.
Proof.
  intros Hx. simpl. f_equal. revert x Hx.
  induction a as [|y a IH]; intros x Hx; simpl; [reflexivity|].
  replace (bestScore x y) with x; [apply IH; assumption|].
  unfold bestScore. rewrite Hx. unfold Num.gtb, Num.ltb.
  destruct (scoreOf y); reflexivity.
Qed.

(** X7: on a non-empty array of models that all carry a finite score,
    [a.reduce(bestScore)] returns the first model of maximal score: every
    model before it scores strictly less, every model after it scores at
    most as much.  A first model whose score is missing or NaN is returned
    whatever follows it, and the reduction of an empty array raises
    TypeError. *)
Theorem reduce_bestScore_first_maximum :
  (forall a,
      a <> [] -> Forall hasFiniteScore a ->
      exists best pre post,
        reduce_bestScore a = Ok best
        /\ a = pre ++ best :: post
        /\ Forall (fun y => Num.gtb (scoreOf best) (scoreOf y) = true) pre
        /\ Forall (fun y => Num.geb (scoreOf best) (scoreOf y) = true) post)
  /\ (forall x a, scoreOf x = Num.NaN -> reduce_bestScore (x :: a) = Ok x)
  /\ reduce_bestScore [] = Throw TypeError.
Proof.
  split; [|split; [exact reduce_bestScore_nan|reflexivity]].
  intros a Hne Hall. destruct a as [|x a]; [congruence|]. simpl.
  inversion Hall as [|? ? Hx Ha]; subst.
  destruct (fold_bestScore_max Hx Ha) as (_ & _ & Hmax).
  destruct (fold_bestScore_first Hx Ha) as [Heq|(pre & post & Hsplit & Hgt & Hpre)].
  - exists x, [], a. rewrite Heq in *. split; [reflexivity|].
    split; [reflexivity|]. split; [constructor|assumption].
  - remember (fold_left bestScore a x) as b eqn:Eb.
    exists b, (x :: pre), post.
    split; [reflexivity|]. split; [simpl; f_equal; assumption|].
    split; [constructor; assumption|].
    rewrite Hsplit in Hmax. apply Forall_app in Hmax. destruct Hmax as [_ Hmax].
    inversion Hmax; assumption.
Qed.

Lemma reduce_bestScore_first_maximum_witness :
  exists best pre post,
    reduce_bestScore [regress_after; regress_before; local_after] = Ok best
    /\ [regress_after; regress_before; local_after] = pre ++ best :: post
    /\ Forall (fun y => Num.gtb (scoreOf best) (scoreOf y) = true) pre
    /\ Forall (fun y => Num.geb (scoreOf best) (scoreOf y) = true) post.
Proof.
  apply (proj1 reduce_bestScore_first_maximum); [discriminate|].
  repeat constructor; eexists; reflexivity.
Defined.

(** ** Composition and evaluation *)

Lemma zip3_snoc {A B C : Type} (a : list A) (b : list B) (c : list C) x y z :
  List.length a = List.length c -> List.length b = List.length c ->
  zip3 (a ++ [x]) (b ++ [y]) (c ++ [z]) = zip3 a b c ++ [(x, y, z)].
Proof.
  revert b c. induction a as [|x0 a IH]; intros [|y0 b] [|z0 c] Ha Hb;
    simpl in *; try discriminate; [reflexivity|].
  f_equal. apply IH; lia.
Qed.

(** X8: on a model with aligned arrays, [composeIT] adds the contribution
    of the new term to the value of the model: the value of the composed
    model at [X] is the value of the old model plus the coefficient of the
    new term (1 when it has none) times its function applied to its
    product of powers. *)
Theorem composeIT_adds_a_term :
  forall (host : MathHost) m nt X,
    wf m ->
    evalIT (composeIT m nt) X
    = Num.add (evalIT m X)
              (Num.mul (match coeff nt with Some c => c | None => Num.Fin 1 end)
                       (funs (func nt) (interaction X (term nt)))).
Proof.
  intros host m nt X (Hf & Hc & _). unfold evalIT, composeIT.
  cbn [IT.terms IT.funcs IT.coeffs].
  rewrite zip3_snoc by assumption.
  rewrite map_app, fold_left_app. reflexivity.
Qed.

Lemma composeIT_adds_a_term_witness :
  evalIT (host:=nanHost) (composeIT root2 (mkTerm [1; 1]%Z Fid None))
         [Num.Fin 2; Num.Fin 3]
  = Num.add (evalIT (host:=nanHost) root2 [Num.Fin 2; Num.Fin 3])
            (Num.mul (Num.Fin 1)
                     (funs (host:=nanHost) Fid
                           (interaction [Num.Fin 2; Num.Fin 3] [1; 1]%Z))).
Proof.
  apply (@composeIT_adds_a_term nanHost root2 (mkTerm [1; 1]%Z Fid None)).
  repeat split.
Defined.

(** *** The root model *)

Lemma Qred_idem a : Qred (Qred a) = Qred a.
Proof. apply Qred_complete. apply Qred_correct. Qed.

Lemma mul_one_r x : Num.mul (norm x) (Num.Fin 1) = norm x.
Proof.
  destruct x as [a| | |]; try reflexivity.
  cbn [norm Num.mul]. unfold Num.fin. f_equal.
  rewrite <- (Qred_idem a) at 2. apply Qred_complete. ring.
Qed.

Lemma mul_one_l x : Num.mul (Num.Fin 1) (norm x) = norm x.
Proof.
  destruct x as [a| | |]; try reflexivity.
  cbn [norm Num.mul]. unfold Num.fin. f_equal.
  rewrite <- (Qred_idem a) at 2. apply Qred_complete. ring.
Qed.

Lemma pow_one x : Num.pow x 1 = norm x.
Proof. destruct x as [a| | |]; reflexivity. Qed.

Lemma pow_zero x : Num.pow x 0 = Num.Fin 1.
Proof. reflexivity. Qed.

(** After the position of the exponent 1 every factor is [x ^ 0]. *)
Lemma product_tail X : forall k s x,
  (k < s)%nat ->
  fold_left Num.mul (map (fun '(x, t) => Num.pow x t) (zip X (unit k s (List.length X))))
            (norm x)
  = norm x.
Proof.
  induction X as [|y X IH]; intros k s x Hk; [reflexivity|].
  cbn [List.length unit seq map zip combine fold_left].
  replace (k =? s)%nat with false by (symmetry; apply Nat.eqb_neq; lia).
  rewrite pow_zero, mul_one_r. apply (IH k (S s) x). lia.
Qed.

Lemma product_unit X : forall k s,
  (s <= k < s + List.length X)%nat ->
  fold_left Num.mul (map (fun '(x, t) => Num.pow x t) (zip X (unit k s (List.length X))))
            (Num.Fin 1)
  = norm (nth (k - s) X Num.NaN).
Proof.
  induction X as [|y X IH]; intros k s Hk; [simpl in Hk; lia|].
  cbn [List.length unit seq map zip combine fold_left].
  destruct (k =? s)%nat eqn:E.
  - apply Nat.eqb_eq in E. subst k. rewrite Nat.sub_diag. cbn [nth].
    rewrite pow_one, mul_one_l. apply (product_tail X). lia.
  - apply Nat.eqb_neq in E. rewrite pow_zero.
    change (Num.mul (Num.Fin 1) (Num.Fin 1)) with (Num.Fin 1).
    replace (k - s)%nat with (S (k - S s)) by lia. cbn [nth].
    apply (IH k (S s)). simpl in Hk. lia.
Qed.

Lemma add_norm acc x : Num.add acc (norm x) = Num.add acc x.
Proof.
  destruct acc as [a| | |], x as [b| | |]; try reflexivity.
  cbn [norm Num.add]. unfold Num.fin. f_equal. apply Qred_complete.
  rewrite Qred_correct. reflexivity.
Qed.

Lemma zip3_map_seq {A B C : Type} (fa : nat -> A) (fb : nat -> B) (fc : nat -> C) l :
  zip3 (map fa l) (map fb l) (map fc l) = map (fun k => (fa k, fb k, fc k)) l.
Proof. induction l as [|k l IH]; simpl; [reflexivity|]. rewrite IH. reflexivity. Qed.

Lemma repeat_map_seq {A : Type} (v : A) s n : repeat v n = map (fun _ => v) (seq s n).
Proof.
  revert s. induction n as [|n IH]; intros s; simpl; [reflexivity|].
  rewrite (IH (S s)). reflexivity.
Qed.

Lemma sum_norm_seq X : forall s acc,
  fold_left Num.add (map (fun k => norm (nth (k - s) X Num.NaN)) (seq s (List.length X))) acc
  = fold_left Num.add X acc.
Proof.
  induction X as [|x X IH]; intros s acc; [reflexivity|].
  cbn [List.length seq map fold_left]. rewrite Nat.sub_diag. cbn [nth].
  rewrite add_norm. rewrite <- (IH (S s)).
  f_equal. apply map_ext_in. intros k Hk. apply in_seq in Hk.
  replace (k - s)%nat with (S (k - S s)) by lia. reflexivity.
Qed.

(** X9: the model that [buildRootIT(nvars)] returns is the plain sum of the
    variables: at every point [X] with [nvars] coordinates (infinite and
    NaN coordinates included) its value is [0 + X[0] + ... + X[nvars-1]]. *)
Theorem buildRootIT_is_the_sum :
  forall (host : MathHost) nvars root X,
    buildRootIT nvars = Ok root ->
    List.length X = Z.to_nat nvars ->
    evalIT root X = fold_left Num.add X (Num.Fin 0).
Proof.
  intros host nvars root X H HX. unfold buildRootIT, Array_fill in H.
  destruct ((nvars <? 0)%Z || (2 ^ 32 <=? nvars)%Z); [discriminate|].
  injection H as <-. unfold evalIT. cbn [IT.coeffs IT.funcs IT.terms].
  unfold indices. rewrite <- HX.
  rewrite (repeat_map_seq one 0 (List.length X)), zip3_map_seq, map_map.
  rewrite <- (sum_norm_seq X 0 (Num.Fin 0)). f_equal.
  apply map_ext_in. intros k Hk. apply in_seq in Hk.
  cbn [funs]. unfold interaction. fold (unit k 0 (List.length X)).
  rewrite product_unit by lia. apply mul_one_l.
Qed.

Lemma buildRootIT_is_the_sum_witness :
  evalIT (host:=nanHost) root2 [Num.Fin (1 # 2); Num.PInf]
  = fold_left Num.add [Num.Fin (1 # 2); Num.PInf] (Num.Fin 0).
Proof.
  apply (@buildRootIT_is_the_sum nanHost 2); reflexivity.
Defined.

(** ** Fitting *)

Section Refit.

Context {host : MathHost}.

Lemma design_fitIT m Xs ys Xs' : design (fitIT m Xs ys) Xs' = design m Xs'.
Proof. unfold design. rewrite fitIT_terms, fitIT_funcs. reflexivity. Qed.

Lemma fitIT_twice m Xs ys : fitIT (fitIT m Xs ys) Xs ys = fitIT m Xs ys.
Proof.
  unfold fitIT at 1. rewrite design_fitIT.
  rewrite fitIT_terms, fitIT_funcs, fitIT_length.
  unfold fitIT. cbn [IT.terms IT.funcs IT.coeffs IT.length IT.score].
  destruct (leastSquares (design m Xs) ys); reflexivity.
Qed.

Lemma fitIT_prior m Xs ys ws coeffs' score' :
  leastSquares (design m Xs) ys = Some ws ->
  fitIT (IT.mk (IT.terms m) (IT.funcs m) coeffs' (IT.length m) score') Xs ys
  = fitIT m Xs ys
  /\ IT.coeffs (fitIT m Xs ys) = ws.
Proof.
  intros H. unfold fitIT, design in *.
  cbn [IT.terms IT.funcs IT.coeffs IT.length IT.score]. rewrite H.
  split; reflexivity.
Qed.

End Refit.

(** X10: fitting is idempotent, [fitIT(fitIT(m)) = fitIT(m)] on the same
    data; and whenever the normal equations can be solved, the fitted model
    depends on neither the coefficients nor the score its argument carried:
    both are overwritten. *)
Theorem fitIT_idempotent :
  forall (host : MathHost) m Xs ys,
    fitIT (fitIT m Xs ys) Xs ys = fitIT m Xs ys
    /\ (forall ws coeffs' score',
          leastSquares (design m Xs) ys = Some ws ->
          fitIT (IT.mk (IT.terms m) (IT.funcs m) coeffs' (IT.length m) score') Xs ys
          = fitIT m Xs ys
          /\ IT.coeffs (fitIT m Xs ys) = ws).
Proof.
  intros host m Xs ys. split; [apply fitIT_twice|].
  intros ws coeffs' score' H. apply fitIT_prior. assumption.
Qed.

Lemma fitIT_idempotent_witness :
  fitIT (host:=nanHost)
        (IT.mk (IT.terms single_term) (IT.funcs single_term) [Num.Fin 9]
               (IT.length single_term) (Some Num.NaN))
        tree_Xs tree_ys
  = fitIT (host:=nanHost) single_term tree_Xs tree_ys
  /\ IT.coeffs (fitIT (host:=nanHost) single_term tree_Xs tree_ys)
     = [Num.Fin (34 # 25)].
Proof.
  apply (proj2 (@fitIT_idempotent nanHost single_term tree_Xs tree_ys)).
  reflexivity.
Defined.

(** X11: an empty dataset is not rejected by the fitter but gives every
    model the score 0 (the mean absolute error is [0 / 0], NaN), while each
    of the three searches raises TypeError on it when reading
    [Xs[0].length]. *)
Theorem empty_dataset :
  forall (host : MathHost),
    (forall m ys, IT.score (fitIT m [] ys) = Some (Num.Fin 0))
    /\ (forall ys popSize selectedSize minSize maxSize expolim generations
               stopScore g,
          ITES [] ys popSize selectedSize minSize maxSize expolim generations
               stopScore g
          = Throw TypeError)
    /\ (forall ys popSize minSize maxSize expolim iterations stopScore g,
          ITLS [] ys popSize minSize maxSize expolim iterations stopScore g
          = Throw TypeError)
    /\ (forall ys iterations threshold minI minT stopScore,
          SYMTREE [] ys iterations threshold minI minT stopScore
          = Throw TypeError).
Proof.
  intros host. repeat split; intros; reflexivity.
Qed.

(** *** A perfect score *)









(** ** More on [sanitizeIT] *)

Lemma existsb_nth_false {A : Type} (p : A -> bool) l d k :
  existsb p l = false -> (k < List.length l)%nat -> p (nth k l d) = false.
Proof.
  intros H Hk. destruct (p (nth k l d)) eqn:E; [|reflexivity].
  assert (existsb p l = true) as Ht.
  { apply existsb_exists. exists (nth k l d).
    split; [apply nth_In; assumption|assumption]. }
  congruence.
Qed.

Lemma filter_none {A : Type} (p : A -> bool) l :
  (forall x, In x l -> p x = false) -> filter p l = [].
Proof.
  induction l as [|x l IH]; intros H; simpl; [reflexivity|].
  rewrite (H x (or_introl eq_refl)). apply IH. intros y Hy. apply H. right. assumption.
Qed.

Lemma flat_map_nil {A B : Type} (f : A -> list B) l :
  (forall x, In x l -> f x = []) -> flat_map f l = [].
Proof.
  induction l as [|x l IH]; intros H; simpl; [reflexivity|].
  rewrite (H x (or_introl eq_refl)). apply IH. intros y Hy. apply H. right. assumption.
Qed.

(** On a clean model no index is pushed. *)
Lemma clean_pushes m k :
  clean m -> (k < List.length (IT.terms m))%nat -> pushes m k = [].
Proof.
  intros [Hz Hd] Hk. unfold pushes.
  rewrite (existsb_nth_false _ _ [] Hz Hk).
  unfold laterDuplicates. rewrite filter_none; [reflexivity|].
  intros j Hj. apply in_seq in Hj. apply Hd. lia.
Qed.

Lemma clean_survivors m : clean m -> survivors m = seq 0 (List.length (IT.terms m)).
Proof.
  intros Hc. unfold survivors. rewrite flat_map_nil; [reflexivity|].
  intros k Hk. apply in_seq in Hk. apply clean_pushes; [assumption|lia].
Qed.

Lemma sanitize_inplace_fixed m : wf m -> clean m -> sanitize_inplace m = Ok m.
Proof.
  intros Hwf Hc. rewrite (sanitize_inplace_select Hwf), (clean_survivors Hc).
  destruct Hwf as (Hf & Hcs & Hl).
  assert (map (fun k => nth k (IT.funcs m) Fid) (seq 0 (List.length (IT.terms m)))
          = IT.funcs m) as -> by (rewrite <- Hf; apply map_nth_seq).
  assert (map (fun k => nth k (IT.coeffs m) Num.NaN)
              (seq 0 (List.length (IT.terms m)))
          = IT.coeffs m) as -> by (rewrite <- Hcs; apply map_nth_seq).
  rewrite map_nth_seq, length_seq, <- Hl. destruct m; reflexivity.
Qed.

(** A clean model is a fixed point. *)
Lemma sanitizeIT_fixed m : wf m -> clean m -> sanitizeIT m = Ok m.
Proof.
  intros Hwf Hc. unfold sanitizeIT. rewrite (sanitize_inplace_fixed Hwf Hc).
  cbn [rbind]. rewrite copyIT_id. destruct (_ =? _)%Z; reflexivity.
Qed.

(** X13: [sanitizeIT] is idempotent on models with aligned arrays:
    sanitizing the model it returned returns that model again; in
    particular a model without all-zero exponent vector and without
    duplicate is returned unchanged. *)
Theorem sanitizeIT_idempotent :
  forall m r,
    wf m -> sanitizeIT m = Ok r ->
    sanitizeIT r = Ok r /\ (clean m -> r = m).
Proof.
  intros m r Hwf H. split.
  - pose proof H as H0. unfold sanitizeIT in H.
    apply rbind_Ok in H. destruct H as (s & Hs & [= <-]).
    destruct (IT.length s =? 0)%Z eqn:E.
    + rewrite copyIT_id in *. assumption.
    + apply sanitizeIT_fixed.
      * eapply sanitize_inplace_wf; eassumption.
      * eapply sanitize_inplace_clean; eassumption.
  - intros Hc. rewrite (sanitizeIT_fixed Hwf Hc) in H. congruence.
Qed.

Lemma sanitizeIT_idempotent_witness :
  sanitizeIT (IT.mk [[2%Z]] [Fid] [Num.Fin 1] 1 None)
  = Ok (IT.mk [[2%Z]] [Fid] [Num.Fin 1] 1 None)
  /\ (clean triplicate_and_one
      -> IT.mk [[2%Z]] [Fid] [Num.Fin 1] 1 None = triplicate_and_one).
Proof.
  apply (@sanitizeIT_idempotent triplicate_and_one); [repeat split|reflexivity].
Defined.

(** X14: [sanitizeIT] only removes terms.  On a model with aligned arrays
    it returns either its argument, or the terms at an increasing list of
    indices of its argument, each with the function and the coefficient
    that stood at its index, under the score of the argument; every term
    that is kept is not all zero and is the last occurrence of its
    exponents and function. *)
Theorem sanitizeIT_selects :
  forall m r,
    wf m -> sanitizeIT m = Ok r ->
    r = m
    \/ exists R,
         StronglySorted lt R
         /\ Forall (fun k => (k < List.length (IT.terms m))%nat
                             /\ keptLast m k = true) R
         /\ IT.terms r = map (fun k => nth k (IT.terms m) []) R
         /\ IT.funcs r = map (fun k => nth k (IT.funcs m) Fid) R
         /\ IT.coeffs r = map (fun k => nth k (IT.coeffs m) Num.NaN) R
         /\ IT.length r = Z.of_nat (List.length R)
         /\ IT.score r = IT.score m.
Proof.
  intros m r Hwf H. unfold sanitizeIT in H.
  rewrite (sanitize_inplace_select Hwf) in H. cbn [rbind IT.length] in H.
  injection H as <-.
  destruct (_ =? 0)%Z; [left; apply copyIT_id|].
  right. exists (survivors m). destruct (survivors_good m) as [Hs Hg].
  split; [assumption|]. split.
  - eapply Forall_impl; [|exact Hg]. simpl. intros k [Hk Hkept].
    split; [lia|assumption].
  - repeat split.
Qed.

Lemma sanitizeIT_selects_witness :
  IT.mk [[1%Z]] [Fid] [Num.Fin 3] 1 None = duplicate_pair
  \/ exists R,
       StronglySorted lt R
       /\ Forall (fun k => (k < List.length (IT.terms duplicate_pair))%nat
                           /\ keptLast duplicate_pair k = true) R
       /\ IT.terms (IT.mk [[1%Z]] [Fid] [Num.Fin 3] 1 None)
          = map (fun k => nth k (IT.terms duplicate_pair) []) R
       /\ IT.funcs (IT.mk [[1%Z]] [Fid] [Num.Fin 3] 1 None)
          = map (fun k => nth k (IT.funcs duplicate_pair) Fid) R
       /\ IT.coeffs (IT.mk [[1%Z]] [Fid] [Num.Fin 3] 1 None)
          = map (fun k => nth k (IT.coeffs duplicate_pair) Num.NaN) R
       /\ IT.length (IT.mk [[1%Z]] [Fid] [Num.Fin 3] 1 None)
          = Z.of_nat (List.length R)
       /\ IT.score (IT.mk [[1%Z]] [Fid] [Num.Fin 3] 1 None)
          = IT.score duplicate_pair.
Proof.
  apply sanitizeIT_selects; [repeat split|reflexivity].
Defined.

Lemma splice1_length_le {A : Type} i (a : list A) :
  (List.length (splice1 i a) <= List.length a)%nat.
Proof.
  revert i. induction a as [|x a IH]; intros i; simpl.
  - destruct i; apply Nat.le_refl.
  - destruct i; simpl; [lia|]. specialize (IH i). lia.
Qed.

Lemma fold_splice_length_le {A : Type} idx (a : list A) :
  (List.length (fold_left (fun a index => splice1 index a) idx a)
   <= List.length a)%nat.
Proof.
  revert a. induction idx as [|i idx IH]; intros a; simpl; [apply Nat.le_refl|].
  etransitivity; [apply IH|apply splice1_length_le].
Qed.

Lemma sanitize_inplace_length m s :
  wf m -> sanitize_inplace m = Ok s -> (IT.length s <= IT.length m)%Z.
Proof.
  intros Hwf Hs.
  unfold sanitize_inplace in Hs. apply rbind_Ok in Hs.
  destruct Hs as (idx & _ & [= <-]). cbn [IT.length].
  rewrite fold_spliceIT. cbn [IT.terms].
  destruct Hwf as (_ & _ & ->).
  pose proof (fold_splice_length_le (rev idx) (IT.terms m)). lia.
Qed.

(** [sanitizeIT] returns no more terms than it was given, and at least one
    when it was given one. *)
Lemma sanitizeIT_length m r :
  wf m -> sanitizeIT m = Ok r ->
  (IT.length r <= IT.length m)%Z /\ (IT.length m <> 0%Z -> IT.length r <> 0%Z).
Proof.
  intros Hwf H. unfold sanitizeIT in H.
  apply rbind_Ok in H. destruct H as (s & Hs & [= <-]).
  destruct (IT.length s =? 0)%Z eqn:E.
  - rewrite copyIT_id. split; [lia|tauto].
  - apply Z.eqb_neq in E. split; [|intros _; assumption].
    eapply sanitize_inplace_length; eassumption.
Qed.

Lemma splice1_Forall {A : Type} (P : A -> Prop) i (a : list A) :
  Forall P a -> Forall P (splice1 i a).
Proof.
  intros H. revert i. induction H as [|x a Hx Ha IH]; intros i; simpl.
  - destruct i; constructor.
  - destruct i; [assumption|]. constructor; [assumption|apply IH].
Qed.

Lemma fold_splice_Forall {A : Type} (P : A -> Prop) idx (a : list A) :
  Forall P a -> Forall P (fold_left (fun a index => splice1 index a) idx a).
Proof.
  revert a. induction idx as [|i idx IH]; intros a H; simpl; [assumption|].
  apply IH. apply splice1_Forall. assumption.
Qed.

Lemma sanitize_inplace_shaped nvars m s :
  shaped nvars m -> sanitize_inplace m = Ok s -> shaped nvars s.
Proof.
  intros Hsh H. unfold sanitize_inplace in H. apply rbind_Ok in H.
  destruct H as (idx & _ & [= <-]). unfold shaped. cbn [IT.terms].
  rewrite fold_spliceIT. cbn [IT.terms]. apply fold_splice_Forall. assumption.
Qed.

Lemma sanitizeIT_shaped nvars m r :
  shaped nvars m -> sanitizeIT m = Ok r -> shaped nvars r.
Proof.
  intros Hsh H. unfold sanitizeIT in H.
  apply rbind_Ok in H. destruct H as (s & Hs & [= <-]).
  destruct (_ =? 0)%Z; [rewrite copyIT_id; assumption|].
  eapply sanitize_inplace_shaped; eassumption.
Qed.

(** ** More on [simplifyIT] *)

Lemma sublist_refl {A : Type} (a : list A) : sublist a a.
Proof. induction a; constructor; assumption. Qed.

Lemma sublist_trans {A : Type} (a b c : list A) :
  sublist a b -> sublist b c -> sublist a c.
Proof.
  intros Hab Hbc. revert a Hab. induction Hbc as [|x b c Hbc IH|x b c Hbc IH];
    intros a Hab.
  - assumption.
  - inversion Hab; subst.
    + apply sublist_keep. apply IH. assumption.
    + apply sublist_drop. apply IH. assumption.
  - apply sublist_drop. apply IH. assumption.
Qed.

Lemma sublist_filter {A : Type} (p : A -> bool) (a : list A) : sublist (filter p a) a.
Proof.
  induction a as [|x a IH]; simpl; [constructor|].
  destruct (p x); constructor; assumption.
Qed.

Lemma sublist_map {A B : Type} (f : A -> B) a b :
  sublist a b -> sublist (map f a) (map f b).
Proof. induction 1; simpl; constructor; assumption. Qed.

Lemma zip3_project {A B C : Type} (a : list A) (b : list B) (c : list C) :
  List.length a = List.length c -> List.length b = List.length c ->
  map (fun '(_, y, z) => (y, z)) (zip3 a b c) = zip b c.
Proof.
  revert b c. induction a as [|x a IH]; intros [|y b] [|z c] Ha Hb;
    simpl in *; try discriminate; try reflexivity.
  f_equal. apply IH; lia.
Qed.

Lemma prune_sublist m threshold :
  wf m -> sublist (termsOf (prune m threshold)) (termsOf m).
Proof.
  intros Hwf. pose proof (prune_wf threshold Hwf) as Hwp.
  unfold termsOf.
  rewrite <- (@zip3_project _ _ _ (IT.coeffs (prune m threshold)))
    by (destruct Hwp as (H1 & H2 & _); congruence).
  rewrite <- (@zip3_project _ _ _ (IT.coeffs m))
    by (destruct Hwf as (H1 & H2 & _); congruence).
  rewrite prune_zip3 by assumption.
  apply sublist_map. apply sublist_filter.
Qed.

Section Shrinking.

Context {host : MathHost}.

Variables (Xs : list (list Num.num)) (ys : list Num.num).

Lemma simplifyIT_rec_length_le fuel m nvars threshold :
  wf m -> (IT.length (simplifyIT_rec fuel m Xs ys nvars threshold) <= IT.length m)%Z.
Proof.
  revert m. induction fuel as [|fuel IH]; intros m Hwf; rewrite simplifyIT_rec_eq;
    destruct (_ =? 0)%Z; try lia; destruct (_ =? _)%Z; try lia.
  etransitivity; [apply IH; apply fitIT_wf, prune_wf; assumption|].
  rewrite fitIT_length. apply prune_length_le. assumption.
Qed.

Lemma simplifyIT_rec_sublist fuel m nvars threshold :
  wf m ->
  sublist (termsOf (simplifyIT_rec fuel m Xs ys nvars threshold)) (termsOf m).
Proof.
  revert m. induction fuel as [|fuel IH]; intros m Hwf; rewrite simplifyIT_rec_eq;
    destruct (_ =? 0)%Z; try apply sublist_refl;
    destruct (_ =? _)%Z; try apply sublist_refl.
  eapply sublist_trans; [apply IH; apply fitIT_wf, prune_wf; assumption|].
  unfold termsOf at 1. rewrite fitIT_funcs, fitIT_terms.
  apply prune_sublist. assumption.
Qed.

End Shrinking.

(** X15: [simplifyIT] only removes terms: on a model with aligned arrays
    the terms of the model it returns (each function with its exponent
    vector) are terms of its argument, in the same order, and it returns no
    more terms than it was given. *)
Theorem simplifyIT_only_removes :
  forall (host : MathHost) m Xs ys nvars threshold,
    wf m ->
    sublist (termsOf (simplifyIT m Xs ys nvars threshold)) (termsOf m)
    /\ (IT.length (simplifyIT m Xs ys nvars threshold) <= IT.length m)%Z.
Proof.
  intros host m Xs ys nvars threshold Hwf.
  split; [apply simplifyIT_rec_sublist; assumption|].
  apply simplifyIT_rec_length_le; assumption.
Qed.

Lemma simplifyIT_only_removes_witness :
  sublist (termsOf (simplifyIT (host:=nanHost) duplicate_pair tree_Xs tree_ys 1
                               (Num.Fin (5 # 2))))
          (termsOf duplicate_pair)
  /\ (IT.length (simplifyIT (host:=nanHost) duplicate_pair tree_Xs tree_ys 1
                            (Num.Fin (5 # 2)))
      <= IT.length duplicate_pair)%Z.
Proof.
  apply simplifyIT_only_removes. repeat split.
Defined.

(** ** Random draws *)

Lemma wrap32_small z : (- 2 ^ 31 <= z < 2 ^ 31)%Z -> Num.wrap32 z = z.
Proof.
  intros H. unfold Num.wrap32. rewrite Z.mod_small; lia.
Qed.

(** Truncation of a rational in [0, n). *)
Lemma toInt32_below q n :
  0 <= q -> q < inject_Z n -> (n <= 2 ^ 31)%Z ->
  (0 <= Num.toInt32 (Num.Fin q) < n)%Z.
Proof.
  intros H0 Hn Hbig. unfold Num.toInt32.
  destruct q as [a d]. unfold Qle, Qlt in *. simpl in *.
  assert (0 <= a)%Z by lia.
  rewrite Z.quot_div_nonneg by lia.
  assert (0 <= a / Z.pos d < n)%Z as Hr.
  { split; [apply Z.div_pos; lia|apply Z.div_lt_upper_bound; lia]. }
  rewrite wrap32_small; lia.
Qed.

(** Truncation of a rational in [-n, 0]. *)
Lemma toInt32_above q n :
  q <= 0 -> inject_Z (- n) <= q -> (0 <= n <= 2 ^ 31)%Z ->
  (- n <= Num.toInt32 (Num.Fin q) <= 0)%Z
  /\ (Num.toInt32 (Num.Fin q) = (- n)%Z -> q == inject_Z (- n)).
Proof.
  intros H0 Hn Hbig. unfold Num.toInt32.
  destruct q as [a d]. unfold Qle, Qeq in *. simpl in *.
  assert (a <= 0)%Z by lia.
  replace a with (- (- a))%Z by lia.
  rewrite Z.quot_opp_l by lia.
  rewrite Z.quot_div_nonneg by lia.
  assert (0 <= (- a) / Z.pos d <= n)%Z as Hr.
  { split; [apply Z.div_pos; lia|].
    apply Z.div_le_upper_bound; lia. }
  rewrite wrap32_small by lia. split; [lia|].
  intros E. assert ((- a) / Z.pos d = n)%Z as E' by lia.
  pose proof (Z.div_mod (- a) (Z.pos d) ltac:(lia)) as Hdm.
  pose proof (Z.mod_pos_bound (- a) (Z.pos d) ltac:(lia)) as Hmb.
  rewrite E' in Hdm. nia.
Qed.

Lemma quot_floor a d :
  Z.quot a (Z.pos d)
  = if (0 <=? a)%Z then Qfloor (a # d) else (- Qfloor ((- a) # d))%Z.
Proof.
  destruct (0 <=? a)%Z eqn:E.
  - apply Z.leb_le in E. unfold Qfloor. apply Z.quot_div_nonneg; lia.
  - apply Z.leb_gt in E. unfold Qfloor.
    replace a with (- (- a))%Z at 1 by lia.
    rewrite Z.quot_opp_l by lia. rewrite Z.quot_div_nonneg by lia. reflexivity.
Qed.

(** [x << 0] does not depend on how the fraction is written. *)
Lemma toInt32_proper q q' :
  q == q' -> Num.toInt32 (Num.Fin q) = Num.toInt32 (Num.Fin q').
Proof.
  intros H. unfold Num.toInt32. f_equal.
  destruct q as [a d], q' as [a' d']. cbn [Qnum Qden].
  rewrite !quot_floor.
  assert ((0 <=? a)%Z = (0 <=? a')%Z) as Hs.
  { unfold Qeq in H. simpl in H.
    destruct (0 <=? a)%Z eqn:E1, (0 <=? a')%Z eqn:E2; try reflexivity.
    - apply Z.leb_le in E1. apply Z.leb_gt in E2. nia.
    - apply Z.leb_gt in E1. apply Z.leb_le in E2. nia. }
  rewrite <- Hs. destruct (0 <=? a)%Z.
  - apply Qfloor_comp. assumption.
  - f_equal. apply Qfloor_comp. unfold Qeq in *. simpl in *. lia.
Qed.

Lemma random_Ok g x g' :
  random g = Ok (x, g') ->
  exists r, g = r :: g' /\ x = Num.Fin r /\ validDraw r.
Proof.
  unfold random. destruct g as [|r g]; [discriminate|].
  destruct (Qle_bool 0 r && Num.Qltb r 1) eqn:E; [|discriminate].
  intros [= <- <-]. apply andb_true_iff in E. destruct E as [E1 E2].
  exists r. split; [reflexivity|]. split; [reflexivity|].
  split; [apply Qle_bool_iff; assumption|apply Qltb_lt; assumption].
Qed.

Lemma random_valid r g : validDraw r -> random (r :: g) = Ok (Num.Fin r, g).
Proof.
  intros [Ha Hb]. unfold random.
  replace (Qle_bool 0 r) with true by (symmetry; apply Qle_bool_iff; assumption).
  replace (Num.Qltb r 1) with true by (symmetry; apply Qltb_lt; assumption).
  reflexivity.
Qed.

Lemma inject_Z_nonneg n : (0 <= n)%Z -> 0 <= inject_Z n.
Proof.
  intros H. replace 0 with (inject_Z 0) by reflexivity.
  rewrite <- Zle_Qle. assumption.
Qed.

(** [n * Math.random() << 0] is an index below [n]. *)
Lemma randomIndex_below n r :
  validDraw r -> (0 < n <= 2 ^ 31)%Z ->
  (0 <= Num.toInt32 (Num.mul (Num.of_Z n) (Num.Fin r)) < n)%Z.
Proof.
  intros [Hr0 Hr1] Hn. unfold Num.of_Z. cbn [Num.mul]. unfold Num.fin.
  pose proof (@inject_Z_nonneg n ltac:(lia)) as Hn0.
  assert (0 < inject_Z n) as Hpos.
  { replace 0 with (inject_Z 0) by reflexivity. rewrite <- Zlt_Qlt. lia. }
  apply toInt32_below; [| |lia]; rewrite Qred_correct; nra.
Qed.

Lemma randomFun_Ok g f g' :
  randomFun g = Ok (f, g') -> exists r, g = r :: g' /\ validDraw r /\ In f funsKeys.
Proof.
  unfold randomFun. intros H. apply bind_Ok in H.
  destruct H as (x & g1 & Hr & H). apply random_Ok in Hr.
  destruct Hr as (r & -> & -> & Hv).
  destruct (get_index funsKeys _) as [f0|] eqn:E.
  - apply ret_Ok in H. destruct H as [-> ->]. exists r.
    split; [reflexivity|]. split; [assumption|].
    unfold get_index in E. destruct (_ <? 0)%Z; [discriminate|].
    eapply nth_error_In; eassumption.
  - apply lift_Ok in H. destruct H as [H _]. discriminate.
Qed.

(** A valid draw always selects a function of the table. *)
Lemma randomFun_total r g :
  validDraw r -> exists f, randomFun (r :: g) = Ok (f, g).
Proof.
  intros Hv. unfold randomFun, bind. rewrite (random_valid g Hv).
  pose proof (@randomIndex_below 8 r Hv ltac:(lia)) as Hi.
  change (Z.of_nat (List.length funsKeys)) with 8%Z.
  unfold get_index.
  replace (_ <? 0)%Z with false by (symmetry; apply Z.ltb_ge; lia).
  destruct (nth_error funsKeys
              (Z.to_nat (Num.toInt32 (Num.mul (Num.of_Z 8) (Num.Fin r)))))
    as [f|] eqn:E.
  - exists f. reflexivity.
  - apply nth_error_None in E. change (List.length funsKeys) with 8%nat in E. lia.
Qed.

Lemma randomExponent_value expolim r :
  validDraw r -> (0 <= expolim < 2 ^ 30)%Z ->
  let e := Num.toInt32
             (Num.sub
                (Num.sub (Num.mul (Num.mul (Num.Fin r) (Num.of_Z 2))
                                  (Num.of_Z (expolim + 1)))
                         (Num.of_Z 1))
                (Num.of_Z expolim)) in
  (- (expolim + 1) <= e <= expolim)%Z
  /\ (e = (- (expolim + 1))%Z <-> r == 0).
Proof.
  intros [Hr0 Hr1] Hl.
  pose (v := Qred (Qred (Qred (Qred (r * inject_Z 2) * inject_Z (expolim + 1))
                          + Qred (- inject_Z 1))
                   + Qred (- inject_Z expolim))).
  assert (Num.sub
            (Num.sub (Num.mul (Num.mul (Num.Fin r) (Num.of_Z 2))
                              (Num.of_Z (expolim + 1)))
                     (Num.of_Z 1))
            (Num.of_Z expolim) = Num.Fin v) as -> by reflexivity.
  assert (v == r * 2 * (inject_Z expolim + 1) - 1 - inject_Z expolim) as Hv.
  { unfold v. rewrite !Qred_correct. rewrite inject_Z_plus.
    change (inject_Z 2) with 2. change (inject_Z 1) with 1. ring. }
  pose proof (@inject_Z_nonneg expolim ltac:(lia)) as HL.
  cbv zeta.
  assert (r == 0 -> Num.toInt32 (Num.Fin v) = (- (expolim + 1))%Z) as Hzero.
  { intros Hz. rewrite (@toInt32_proper _ (inject_Z (- (expolim + 1)))).
    - unfold Num.toInt32, inject_Z. cbn [Qnum Qden]. rewrite Z.quot_1_r.
      apply wrap32_small. lia.
    - rewrite Hv, Hz, inject_Z_opp, inject_Z_plus.
      change (inject_Z 1) with 1. ring. }
  destruct (Qlt_le_dec v 0) as [Hneg|Hpos].
  - destruct (@toInt32_above v (expolim + 1)) as [Hb He].
    + lra.
    + rewrite inject_Z_opp, inject_Z_plus. change (inject_Z 1) with 1. nra.
    + lia.
    + split; [lia|]. split; [|assumption]. intros E. apply He in E.
      rewrite inject_Z_opp, inject_Z_plus in E. change (inject_Z 1) with 1 in E.
      nra.
  - pose proof (@toInt32_below v (expolim + 1)) as Hb.
    destruct Hb as [Hb1 Hb2].
    + assumption.
    + rewrite inject_Z_plus. change (inject_Z 1) with 1. nra.
    + lia.
    + split; [lia|]. split; [|assumption]. intros E. lia.
Qed.

Lemma randomExponent_Ok expolim g e g' :
  (0 <= expolim < 2 ^ 30)%Z ->
  randomExponent expolim g = Ok (e, g') ->
  exists r,
    g = r :: g'
    /\ validDraw r
    /\ (- (expolim + 1) <= e <= expolim)%Z
    /\ (e = (- (expolim + 1))%Z <-> r == 0).
Proof.
  intros Hl H. unfold randomExponent in H. apply bind_Ok in H.
  destruct H as (x & g1 & Hr & H). apply random_Ok in Hr.
  destruct Hr as (r & -> & -> & Hv). apply ret_Ok in H. destruct H as [-> ->].
  exists r. split; [reflexivity|]. split; [assumption|].
  apply (randomExponent_value Hv Hl).
Qed.

(** X16: for a limit [0 <= expolim < 2^30], the exponent that
    [Math.random() * 2 * (expolim+1) - 1 - expolim << 0] draws lies between
    [-(expolim + 1)] and [expolim]; it equals [-(expolim + 1)], one below
    [-expolim], exactly when [Math.random()] returned 0. *)
Theorem randomExponent_range :
  forall expolim g e g',
    (0 <= expolim < 2 ^ 30)%Z ->
    randomExponent expolim g = Ok (e, g') ->
    exists r,
      g = r :: g'
      /\ (- (expolim + 1) <= e <= expolim)%Z
      /\ (e = (- (expolim + 1))%Z <-> r == 0).
Proof.
  intros expolim g e g' Hl H.
  destruct (@randomExponent_Ok expolim g e g' Hl H) as (r & Hg & _ & Hb & Hz).
  exists r. split; [assumption|]. split; assumption.
Qed.

Lemma randomExponent_range_witness :
  exists r,
    [0; 1 # 2] = r :: [1 # 2]
    /\ (- (3 + 1) <= -4 <= 3)%Z
    /\ ((-4)%Z = (- (3 + 1))%Z <-> r == 0).
Proof.
  apply (@randomExponent_range 3 [0; 1 # 2] (-4) [1 # 2]);
    [split; [discriminate|reflexivity]|reflexivity].
Defined.

Lemma createTerm_rec_shape fuel nvars expolim g term g' :
  (0 <= expolim < 2 ^ 30)%Z ->
  createTerm_rec fuel nvars expolim g = Ok (term, g') ->
  exponentsWithin expolim term.
Proof.
  intros Hl. revert g. induction fuel as [|fuel IH]; intros g H;
    cbn [createTerm_rec] in H.
  - apply lift_Ok in H. destruct H as [H _]. discriminate.
  - apply bind_Ok in H. destruct H as (t & g1 & Ht & H).
    destruct (every_zero t).
    + eapply IH; eassumption.
    + apply ret_Ok in H. destruct H as [-> ->].
      apply (Array_from_Ok (fun e => (- (expolim + 1) <= e <= expolim)%Z)) in Ht.
      * destruct Ht as [Hall _]. assumption.
      * intros i g0 y g0' Hy.
        destruct (@randomExponent_Ok expolim g0 y g0' Hl Hy) as (r & _ & _ & Hb & _).
        assumption.
Qed.

Lemma createTerm_rec_length fuel nvars expolim g term g' :
  createTerm_rec fuel nvars expolim g = Ok (term, g') ->
  List.length term = Z.to_nat nvars.
Proof.
  revert g. induction fuel as [|fuel IH]; intros g H; cbn [createTerm_rec] in H.
  - apply lift_Ok in H. destruct H as [H _]. discriminate.
  - apply bind_Ok in H. destruct H as (t & g1 & Ht & H).
    destruct (every_zero t).
    + eapply IH; eassumption.
    + apply ret_Ok in H. destruct H as [-> ->].
      apply (Array_from_Ok (fun _ => True)) in Ht; [|intros; exact I].
      destruct Ht as [_ Hlen]. assumption.
Qed.

Lemma buildRandIT_shaped nTerms nvars expolim g m g' :
  buildRandIT nTerms nvars expolim g = Ok (m, g') -> shaped nvars m.
Proof.
  intros H. unfold buildRandIT in H.
  apply bind_Ok in H. destruct H as (terms & g1 & Ht & H).
  apply bind_Ok in H. destruct H as (funcs & g2 & Hf & H).
  apply bind_Ok in H. destruct H as (coeffs & g3 & Hc & H).
  apply ret_Ok in H. destruct H as [-> _]. unfold shaped. cbn [IT.terms].
  apply (Array_from_Ok (fun term => List.length term = Z.to_nat nvars)) in Ht.
  - destruct Ht as [Ht _]. assumption.
  - intros i g0 y g0' Hy. unfold createTerm in Hy.
    eapply createTerm_rec_length. eassumption.
Qed.

(** X17: for a limit [0 <= expolim < 2^30], a model that [buildRandIT]
    returns has [nTerms] terms, each with [nvars] exponents between
    [-(expolim + 1)] and [expolim] that are not all zero, [nTerms]
    functions, every coefficient equal to 1, [length = nTerms] and no
    score. *)
Theorem buildRandIT_shape :
  forall nTerms nvars expolim g m g',
    (0 <= expolim < 2 ^ 30)%Z ->
    buildRandIT nTerms nvars expolim g = Ok (m, g') ->
    List.length (IT.terms m) = Z.to_nat nTerms
    /\ Forall (fun term => List.length term = Z.to_nat nvars
                           /\ exponentsWithin expolim term
                           /\ every_zero term = false) (IT.terms m)
    /\ List.length (IT.funcs m) = Z.to_nat nTerms
    /\ IT.coeffs m = repeat (Num.Fin 1) (Z.to_nat nTerms)
    /\ IT.length m = nTerms
    /\ IT.score m = None.
Proof.
  intros nTerms nvars expolim g m g' Hl H. unfold buildRandIT in H.
  apply bind_Ok in H. destruct H as (terms & g1 & Ht & H).
  apply bind_Ok in H. destruct H as (funcs & g2 & Hf & H).
  apply bind_Ok in H. destruct H as (coeffs & g3 & Hc & H).
  apply ret_Ok in H. destruct H as [-> _].
  cbn [IT.terms IT.funcs IT.coeffs IT.length IT.score].
  apply (Array_from_Ok (fun term => List.length term = Z.to_nat nvars
                         /\ exponentsWithin expolim term
                         /\ every_zero term = false)) in Ht.
  2:{ intros i g0 y g0' Hy. unfold createTerm in Hy.
      assert (every_zero y = false) as Hz
          by (eapply createTerm_rec_nonzero; eassumption).
      pose proof (createTerm_rec_length _ _ _ _ Hy) as H1.
      pose proof (@createTerm_rec_shape _ nvars expolim g0 y g0' Hl Hy) as H2.
      tauto. }
  apply (Array_from_Ok (fun _ => True)) in Hf; [|intros; exact I].
  apply lift_Ok in Hc. destruct Hc as [Hc _]. unfold Array_fill in Hc.
  destruct ((nTerms <? 0)%Z || (2 ^ 32 <=? nTerms)%Z); [discriminate|].
  injection Hc as <-.
  destruct Ht as [Ht1 Ht2]. destruct Hf as [_ Hf].
  repeat split; assumption.
Qed.

Lemma buildRandIT_shape_witness :
  List.length (IT.terms rebuilt) = Z.to_nat 1
  /\ Forall (fun term => List.length term = Z.to_nat 1
                         /\ exponentsWithin 1 term
                         /\ every_zero term = false) (IT.terms rebuilt)
  /\ List.length (IT.funcs rebuilt) = Z.to_nat 1
  /\ IT.coeffs rebuilt = repeat (Num.Fin 1) (Z.to_nat 1)
  /\ IT.length rebuilt = 1%Z
  /\ IT.score rebuilt = None.
Proof.
  apply (@buildRandIT_shape 1 1 1 [3 # 4; 0] rebuilt []);
    [split; [discriminate|reflexivity]|reflexivity].
Defined.

(** Without variables [createTerm] draws the empty vector, which is all
    zero, and calls itself again. *)
Lemma createTerm_rec_no_variables fuel expolim g :
  createTerm_rec fuel 0 expolim g = Throw Exhausted.
Proof.
  revert g. induction fuel as [|fuel IH]; intros g; simpl; [reflexivity|].
  unfold bind, Array_from. simpl. unfold ret. apply IH.
Qed.

(** X18: with [nvars = 0] and at least one term to build, [buildRandIT]
    returns no model, whatever the random draws: [createTerm] draws the
    empty exponent vector, finds it all zero and calls itself again without
    end (the recursion is cut off as [Exhausted]). *)
Theorem buildRandIT_no_variables :
  forall nTerms expolim g,
    (1 <= nTerms < 2 ^ 32)%Z ->
    buildRandIT nTerms 0 expolim g = Throw Exhausted.
Proof.
  intros nTerms expolim g Hn. unfold buildRandIT, bind, Array_from.
  replace (2 ^ 32 <=? nTerms)%Z with false by (symmetry; apply Z.leb_gt; lia).
  unfold indices. destruct (Z.to_nat nTerms) as [|n] eqn:E; [lia|].
  simpl. unfold bind at 1. unfold createTerm.
  rewrite createTerm_rec_no_variables. reflexivity.
Qed.

Lemma buildRandIT_no_variables_witness :
  buildRandIT 2 0 3 [1 # 2; 1 # 4] = Throw Exhausted.
Proof.
  apply buildRandIT_no_variables. split; [discriminate|reflexivity].
Defined.

(** ** The mutation operators *)

Lemma set_nth_inside {A : Type} (i : nat) (v : A) a a' :
  (i < List.length a)%nat -> set_nth i v a = Ok a' -> replacedAt i v a a'.
Proof.
  revert i a'. induction a as [|x a IH]; intros i a' Hi H; simpl in Hi; [lia|].
  destruct i as [|i]; simpl in H.
  - injection H as <-. split; [reflexivity|]. split; [reflexivity|].
    intros [|k] Hk; [congruence|reflexivity].
  - apply rbind_Ok in H. destruct H as (a'' & Ha & [= <-]).
    destruct (IH i a'' ltac:(lia) Ha) as (Hl & Hn & Ho).
    split; [simpl; lia|]. split; [assumption|].
    intros [|k] Hk; [reflexivity|]. simpl. apply Ho. lia.
Qed.

Lemma set_nth_total {A : Type} (i : nat) (v : A) a :
  (i <= List.length a)%nat -> exists a', set_nth i v a = Ok a'.
Proof.
  revert i. induction a as [|x a IH]; intros i Hi; simpl in Hi.
  - destruct i; [|lia]. eexists. reflexivity.
  - destruct i as [|i]; simpl; [eexists; reflexivity|].
    destruct (IH i ltac:(lia)) as (a' & ->). eexists. reflexivity.
Qed.

Lemma set_nth_same {A : Type} i (a : list A) x :
  nth_error a i = Some x -> set_nth i x a = Ok a.
Proof.
  revert i. induction a as [|y a IH]; intros i H.
  - destruct i; discriminate.
  - destruct i as [|i]; simpl in *.
    + injection H as ->. reflexivity.
    + rewrite (IH i H). reflexivity.
Qed.

Lemma get_index_Some {A : Type} (a : list A) i x :
  get_index a i = Some x -> (0 <= i)%Z /\ (Z.to_nat i < List.length a)%nat.
Proof.
  unfold get_index. destruct (i <? 0)%Z eqn:E; [discriminate|].
  intros H. apply Z.ltb_ge in E. split; [assumption|].
  apply nth_error_Some. congruence.
Qed.

Lemma get_index_In {A : Type} (a : list A) i x : get_index a i = Some x -> In x a.
Proof.
  unfold get_index. destruct (i <? 0)%Z; [discriminate|]. apply nth_error_In.
Qed.

Lemma set_index_inside {A : Type} i (v : A) a a' x :
  get_index a i = Some x -> set_index i v a = Ok a' ->
  replacedAt (Z.to_nat i) v a a'.
Proof.
  intros Hg H. apply get_index_Some in Hg. destruct Hg as [H0 Hlt].
  unfold set_index in H.
  replace (i <? 0)%Z with false in H by (symmetry; apply Z.ltb_ge; lia).
  eapply set_nth_inside; eassumption.
Qed.

Lemma replacedAt_length {A : Type} i (v : A) a a' :
  replacedAt i v a a' -> List.length a' = List.length a.
Proof. intros [H _]. assumption. Qed.

Lemma replacedAt_Forall {A : Type} (P : A -> Prop) i v (a a' : list A) :
  replacedAt i v a a' -> P v -> Forall P a -> Forall P a'.
Proof.
  intros (Hl & Hi & Ho) Hv Ha. apply Forall_forall. intros x Hx.
  apply In_nth_error in Hx. destruct Hx as (k & Hk).
  destruct (Nat.eq_dec k i) as [->|Hne].
  - congruence.
  - rewrite (Ho k Hne) in Hk. apply nth_error_In in Hk.
    rewrite Forall_forall in Ha. apply Ha. assumption.
Qed.

Lemma nth_error_lt_Some {A : Type} (a : list A) i :
  (i < List.length a)%nat -> exists x, nth_error a i = Some x.
Proof.
  intros H. destruct (nth_error a i) eqn:E; [eexists; reflexivity|].
  apply nth_error_None in E. lia.
Qed.

Lemma mutateopIT_Ok m g m' g' :
  wf m -> (0 < IT.length m <= 2 ^ 31)%Z ->
  mutateopIT m g = Ok (m', g') ->
  (exists i f,
      (i < List.length (IT.funcs m))%nat
      /\ In f funsKeys
      /\ replacedAt i f (IT.funcs m) (IT.funcs m'))
  /\ IT.terms m' = IT.terms m
  /\ IT.coeffs m' = IT.coeffs m
  /\ IT.length m' = IT.length m
  /\ IT.score m' = IT.score m
  /\ wf m'
  /\ exists r1 r2, g = r1 :: r2 :: g'.
Proof.
  intros (Hf & Hc & Hl) Hlen H. unfold mutateopIT in H.
  apply bind_Ok in H. destruct H as (x & g1 & Hr & H).
  apply random_Ok in Hr. destruct Hr as (r1 & -> & -> & Hv1).
  apply bind_Ok in H. destruct H as (f & g2 & Hfn & H).
  apply randomFun_Ok in Hfn. destruct Hfn as (r2 & -> & Hv2 & Hin).
  apply bind_Ok in H. destruct H as (funcs & g3 & Hs & H).
  apply lift_Ok in Hs. destruct Hs as [Hs ->].
  apply ret_Ok in H. destruct H as [-> ->].
  cbn [IT.terms IT.funcs IT.coeffs IT.length IT.score].
  pose proof (randomIndex_below Hv1 Hlen) as Hi.
  unfold set_index in Hs.
  replace (_ <? 0)%Z with false in Hs by (symmetry; apply Z.ltb_ge; lia).
  assert (Z.to_nat (Num.toInt32 (Num.mul (Num.of_Z (IT.length m)) (Num.Fin r1)))
          < List.length (IT.funcs m))%nat as Hlt by lia.
  pose proof (set_nth_inside _ _ Hlt Hs) as Hrep.
  split; [eexists _, _; split; [exact Hlt|split; [exact Hin|exact Hrep]]|].
  repeat split; try assumption.
  - cbn [IT.funcs IT.terms]. destruct Hrep as [-> _]. assumption.
  - exists r1, r2. reflexivity.
Qed.

(** X19: on a model with aligned arrays and between 1 and [2^31] terms,
    [mutateopIT] consumes two random draws and replaces the function at one
    index inside the model by a function of the table; the other
    functions, the exponents, the coefficients, [length] and the (now
    stale) score are those of its argument, and the arrays stay aligned. *)
Theorem mutateopIT_replaces_one_function :
  forall m g m' g',
    wf m -> (0 < IT.length m <= 2 ^ 31)%Z ->
    mutateopIT m g = Ok (m', g') ->
    (exists i f,
        (i < List.length (IT.funcs m))%nat
        /\ In f funsKeys
        /\ replacedAt i f (IT.funcs m) (IT.funcs m'))
    /\ IT.terms m' = IT.terms m
    /\ IT.coeffs m' = IT.coeffs m
    /\ IT.length m' = IT.length m
    /\ IT.score m' = IT.score m
    /\ wf m'
    /\ exists r1 r2, g = r1 :: r2 :: g'.
Proof.
  intros m g m' g' Hwf Hlen H. eapply mutateopIT_Ok; eassumption.
Qed.

Lemma mutateopIT_replaces_one_function_witness :
  (exists i f,
      (i < List.length (IT.funcs root2))%nat
      /\ In f funsKeys
      /\ replacedAt i f (IT.funcs root2)
                    (IT.funcs (IT.mk (IT.terms root2) [Fid; Fcos] (IT.coeffs root2)
                                     2 None)))
  /\ IT.terms (IT.mk (IT.terms root2) [Fid; Fcos] (IT.coeffs root2) 2 None)
     = IT.terms root2
  /\ IT.coeffs (IT.mk (IT.terms root2) [Fid; Fcos] (IT.coeffs root2) 2 None)
     = IT.coeffs root2
  /\ IT.length (IT.mk (IT.terms root2) [Fid; Fcos] (IT.coeffs root2) 2 None)
     = IT.length root2
  /\ IT.score (IT.mk (IT.terms root2) [Fid; Fcos] (IT.coeffs root2) 2 None)
     = IT.score root2
  /\ wf (IT.mk (IT.terms root2) [Fid; Fcos] (IT.coeffs root2) 2 None)
  /\ exists r1 r2, [1 # 2; 1 # 8; 0] = r1 :: r2 :: [0].
Proof.
  apply (@mutateopIT_replaces_one_function root2 [1 # 2; 1 # 8; 0]);
    [repeat split|split; [reflexivity|discriminate]|reflexivity].
Defined.

Lemma mutatetermsIT_wf m nvars expolim g m' g' :
  wf m -> mutatetermsIT m nvars expolim g = Ok (m', g') ->
  wf m' /\ IT.length m' = IT.length m.
Proof.
  intros Hwf H. unfold mutatetermsIT in H.
  apply bind_Ok in H. destruct H as (m1 & g1 & H1 & H).
  pose proof (replaceExponent_Ok _ _ _ _ H1) as
      (Hf & Hc & Hl & Hs & termIdx & tIdx & t & term0 & term' & Hget & _ & Hset).
  pose proof (set_index_inside _ _ _ Hget Hset) as Hrep.
  apply replacedAt_length in Hrep.
  assert (wf m1) as Hwf1.
  { destruct Hwf as (H2 & H3 & H4). unfold wf. rewrite Hf, Hc, Hl, Hrep. tauto. }
  destruct (existsb every_zero (IT.terms m1)).
  - pose proof (buildRandIT_wf _ _ _ _ H) as Hw.
    apply buildRandIT_Ok in H. destruct H as (_ & Hlen & _).
    split; [assumption|]. congruence.
  - apply ret_Ok in H. destruct H as [-> ->]. split; assumption.
Qed.

(** X20: [mutatetermsIT] keeps the arrays aligned and the number of terms:
    whenever it returns on a model with aligned arrays, mutated or rebuilt,
    the model it returns has aligned arrays and the [length] of its
    argument. *)
Theorem mutatetermsIT_keeps_alignment :
  forall m nvars expolim g m' g',
    wf m -> mutatetermsIT m nvars expolim g = Ok (m', g') ->
    wf m' /\ IT.length m' = IT.length m.
Proof.
  intros m nvars expolim g m' g' Hwf H. eapply mutatetermsIT_wf; eassumption.
Qed.

Lemma mutatetermsIT_keeps_alignment_witness :
  wf rebuilt /\ IT.length rebuilt = IT.length single_term.
Proof.
  apply (@mutatetermsIT_keeps_alignment single_term 1 1 rebuild_draws rebuilt []);
    [repeat split|reflexivity].
Defined.

(** X21: on a model without terms the two mutations go wrong in different
    ways: [mutateopIT] assigns [funcs[0]], so that the model it returns has
    one function for no term and no coefficient (the arrays are no longer
    aligned), and [mutatetermsIT] raises TypeError when it assigns into
    [terms[0]], which is undefined. *)
Theorem mutation_of_empty_model :
  forall m nvars expolim r1 r2 r3 g,
    wf m -> IT.length m = 0%Z ->
    validDraw r1 -> validDraw r2 -> validDraw r3 ->
    (exists f, mutateopIT m (r1 :: r2 :: g)
               = Ok (IT.mk [] [f] [] 0 (IT.score m), g))
    /\ mutatetermsIT m nvars expolim (r1 :: r2 :: r3 :: g) = Throw TypeError.
Proof.
  intros m nvars expolim r1 r2 r3 g (Hf & Hc & Hl) H0 Hv1 Hv2 Hv3.
  assert (IT.terms m = []) as Ht.
  { apply length_zero_iff_nil. lia. }
  assert (IT.funcs m = []) as Hfs.
  { apply length_zero_iff_nil. rewrite Hf, Ht. reflexivity. }
  assert (IT.coeffs m = []) as Hcs.
  { apply length_zero_iff_nil. rewrite Hc, Ht. reflexivity. }
  assert (forall r, Num.toInt32 (Num.mul (Num.of_Z 0) (Num.Fin r)) = 0%Z) as Hz.
  { intros r. unfold Num.of_Z. cbn [Num.mul]. unfold Num.fin.
    rewrite (@toInt32_proper _ 0); [reflexivity|].
    rewrite Qred_correct. change (inject_Z 0) with 0. ring. }
  split.
  - destruct (randomFun_total g Hv2) as (f & Hfun).
    exists f. unfold mutateopIT, bind. rewrite (random_valid _ Hv1), Hfun.
    rewrite H0, Hz, Hfs, Ht, Hcs. reflexivity.
  - unfold mutatetermsIT, replaceExponent, bind.
    rewrite (random_valid _ Hv1), (random_valid _ Hv2).
    unfold randomExponent, bind. rewrite (random_valid _ Hv3).
    unfold ret. rewrite H0, Hz, Ht. reflexivity.
Qed.

Lemma mutation_of_empty_model_witness :
  (exists f, mutateopIT empty_model [0; 1 # 2; 3 # 4]
             = Ok (IT.mk [] [f] [] 0 (IT.score empty_model), [3 # 4]))
  /\ mutatetermsIT empty_model 1 1 [0; 1 # 2; 1 # 4; 3 # 4] = Throw TypeError.
Proof.
  apply (@mutation_of_empty_model empty_model 1 1 0 (1 # 2) (1 # 4) [3 # 4]);
    try (repeat split; fail); split; try (discriminate || reflexivity).
Defined.

(** ** Populations of ITES and ITLS *)

Lemma mapM_Ok_In {A B : Type} (P : A -> B -> Prop) (f : A -> M B) a :
  (forall x g y g', In x a -> f x g = Ok (y, g') -> P x y) ->
  forall g ys g', mapM f a g = Ok (ys, g') -> Forall2 P a ys.
Proof.
  induction a as [|x a IH]; intros Hf g ys g' H; simpl in H.
  - apply ret_Ok in H. destruct H as [-> _]. constructor.
  - apply bind_Ok in H. destruct H as (y & g1 & Hy & H).
    apply bind_Ok in H. destruct H as (ys' & g2 & Hys & H).
    apply ret_Ok in H. destruct H as [-> _].
    constructor.
    + eapply Hf; [left; reflexivity|eassumption].
    + eapply IH; [|eassumption]. intros. eapply Hf; [right|]; eassumption.
Qed.

Lemma mapM_pure {A B : Type} (f : A -> M B) (h : A -> B) a g :
  (forall x g0, In x a -> f x g0 = Ok (h x, g0)) ->
  mapM f a g = Ok (map h a, g).
Proof.
  induction a as [|x a IH]; intros Hf; simpl; [reflexivity|].
  unfold bind. rewrite (Hf x g (or_introl eq_refl)).
  rewrite IH by (intros; apply Hf; right; assumption). reflexivity.
Qed.

Lemma concat_nils {A B : Type} (a : list A) :
  concat (map (fun _ => @nil B) a) = [].
Proof. induction a; simpl; [reflexivity|assumption]. Qed.

Lemma concat_length_const {A : Type} (groups : list (list A)) n :
  Forall (fun group => List.length group = n) groups ->
  List.length (concat groups) = (List.length groups * n)%nat.
Proof.
  induction 1 as [|group groups Hg _ IH]; simpl; [reflexivity|].
  rewrite length_app, IH, Hg. reflexivity.
Qed.

Lemma Forall2_right {A B : Type} (P : A -> B -> Prop) (Q : B -> Prop) a b :
  (forall x y, In x a -> P x y -> Q y) -> Forall2 P a b -> Forall Q b.
Proof.
  intros H. induction 1 as [|x y a b Hxy _ IH]; constructor.
  - eapply H; [left; reflexivity|eassumption].
  - apply IH. intros. eapply H; [right|]; eassumption.
Qed.

Lemma someM_invariant {S : Type} (I : S -> Prop)
      (body : Z -> S -> M (S * bool)) a :
  (forall i st g r g', I st -> body i st g = Ok (r, g') -> I (fst r)) ->
  forall st g st' g', I st -> someM body a st g = Ok (st', g') -> I st'.
Proof.
  intros Hb. induction a as [|i a IH]; intros st g st' g' Hst H; simpl in H.
  - apply ret_Ok in H. destruct H as [-> _]. assumption.
  - apply bind_Ok in H. destruct H as (r & g1 & Hr & H).
    pose proof (Hb _ _ _ _ _ Hst Hr) as Hi.
    destruct (snd r).
    + apply ret_Ok in H. destruct H as [-> _]. assumption.
    + eapply IH; eassumption.
Qed.

Section Population.

Context {host : MathHost}.

Variables (Xs : list (list Num.num)) (ys : list Num.num).

Lemma individual_member expSize nvars expolim maxSize g m g' :
  (1 <= expSize <= maxSize)%Z ->
  (m0 <- buildRandIT expSize nvars expolim ;;
   s <- lift (sanitizeIT m0) ;;
   ret (fitIT s Xs ys)) g = Ok (m, g') ->
  member maxSize m /\ shaped nvars m.
Proof.
  intros Hsz H.
  apply bind_Ok in H. destruct H as (m0 & g1 & Hb & H).
  apply bind_Ok in H. destruct H as (s & g2 & Hs & H).
  apply lift_Ok in Hs. destruct Hs as [Hs ->].
  apply ret_Ok in H. destruct H as [-> ->].
  pose proof (buildRandIT_wf _ _ _ _ Hb) as Hw0.
  pose proof (buildRandIT_shaped _ _ _ _ Hb) as Hsh0.
  apply buildRandIT_Ok in Hb. destruct Hb as (_ & Hlen & _).
  pose proof (sanitizeIT_wf Hw0 Hs) as Hws.
  destruct (sanitizeIT_length Hw0 Hs) as [Hle Hne].
  split.
  - split; [apply fitIT_wf; assumption|]. split; [apply fitIT_hasFiniteScore|].
    rewrite fitIT_length.
    assert (0 <= IT.length s)%Z by (destruct Hws as (_ & _ & ->); lia).
    specialize (Hne ltac:(lia)). lia.
  - unfold shaped. rewrite fitIT_terms. eapply sanitizeIT_shaped; eassumption.
Qed.

Lemma initialPopulation_member popSize minSize maxSize expolim nvars g pop g' :
  (1 <= minSize <= maxSize)%Z ->
  initialPopulation Xs ys popSize minSize maxSize expolim nvars g = Ok (pop, g') ->
  Z.of_nat (List.length pop)
  = ((maxSize - minSize + 1)
     * Z.max 0 (Num.round_div popSize (maxSize - minSize + 1)))%Z
  /\ Forall (fun m => member maxSize m /\ shaped nvars m) pop.
Proof.
  intros Hsz H. unfold initialPopulation in H.
  apply bind_Ok in H. destruct H as (sizes & g1 & Hr & H).
  apply lift_Ok in Hr. destruct Hr as [Hr ->].
  apply bind_Ok in H. destruct H as (groups & g2 & Hg & H).
  apply ret_Ok in H. destruct H as [-> ->].
  destruct (@range_ascending minSize (maxSize + 1) 1) as (l & Hl & Hlen & _ & Hin);
    [lia|lia| |].
  { (* the bound on the number of sizes comes from the success of [range] *)
    unfold range in Hr. simpl (1 =? 0)%Z in Hr. cbv iota in Hr.
    rewrite Z.div_1_r in Hr.
    destruct ((- (minSize - (maxSize + 1)) <? 0)%Z
              || (2 ^ 32 <=? - (minSize - (maxSize + 1)))%Z) eqn:E; [discriminate|].
    apply orb_false_iff in E. destruct E as [_ E]. apply Z.leb_gt in E. lia. }
  rewrite Hr in Hl. injection Hl as <-.
  set (share := Num.round_div popSize (maxSize - minSize + 1)) in *.
  apply (mapM_Ok_In (fun expSize group =>
           List.length group = Z.to_nat share
           /\ Forall (fun m => member maxSize m /\ shaped nvars m) group)) in Hg.
  - split.
    + rewrite (@concat_length_const _ groups (Z.to_nat share)).
      * rewrite <- (Forall2_length Hg).
        replace (maxSize + 1 - minSize + 1 - 1)%Z with (maxSize - minSize + 1)%Z in Hlen
          by lia.
        rewrite Z.div_1_r in Hlen. lia.
      * eapply Forall2_right; [|exact Hg]. simpl. intros x y _ [Hy _]. assumption.
    + apply Forall_concat. eapply Forall2_right; [|exact Hg].
      simpl. intros x y _ [_ Hy]. assumption.
  - intros expSize g0 group g0' Hsize Hgrp.
    apply bind_Ok in Hgrp. destruct Hgrp as (n & g3 & Hn & Hgrp).
    apply lift_Ok in Hn. destruct Hn as [Hn ->].
    unfold shareOf in Hn.
    replace (maxSize - minSize + 1 =? 0)%Z with false in Hn
      by (symmetry; apply Z.eqb_neq; lia).
    injection Hn as <-.
    apply (Array_from_Ok (fun m => member maxSize m /\ shaped nvars m)) in Hgrp.
    + destruct Hgrp as [Hall Hlen']. split; assumption.
    + intros i g4 y g4' Hy. eapply individual_member; [|exact Hy].
      rewrite Forall_forall in Hin. specialize (Hin _ Hsize). lia.
Qed.

Lemma initialPopulation_empty popSize minSize maxSize expolim nvars g :
  (minSize <= maxSize)%Z -> (maxSize - minSize + 1 < 2 ^ 32)%Z ->
  (2 * popSize < maxSize - minSize + 1)%Z ->
  initialPopulation Xs ys popSize minSize maxSize expolim nvars g = Ok ([], g).
Proof.
  intros Hsz Hbig Hsmall. unfold initialPopulation.
  destruct (@range_ascending minSize (maxSize + 1) 1) as (sizes & Hr & _);
    [lia|lia|lia|].
  rewrite Hr. rewrite lift_bind. unfold bind at 1.
  rewrite (@mapM_pure _ _ _ (fun _ => @nil IT.t)).
  - unfold ret. rewrite concat_nils. reflexivity.
  - intros expSize g0 _. unfold shareOf.
    replace (maxSize - minSize + 1 =? 0)%Z with false
      by (symmetry; apply Z.eqb_neq; lia).
    rewrite lift_bind. unfold Array_from.
    assert (Num.round_div popSize (maxSize - minSize + 1) <= 0)%Z as Hshare.
    { unfold Num.round_div.
      assert ((2 * popSize + (maxSize - minSize + 1)) / (2 * (maxSize - minSize + 1)) < 1)%Z;
        [apply Z.div_lt_upper_bound; lia|lia]. }
    replace (2 ^ 32 <=? _)%Z with false by (symmetry; apply Z.leb_gt; lia).
    unfold indices. replace (Z.to_nat _) with 0%nat by lia. reflexivity.
Qed.

Lemma tournament_In pop g p g' : tournament pop g = Ok (p, g') -> In p pop.
Proof.
  intros H. unfold tournament in H.
  apply bind_Ok in H. destruct H as (r1 & g1 & _ & H).
  apply bind_Ok in H. destruct H as (r2 & g2 & _ & H).
  destruct (get_index pop _) as [exp1|] eqn:E1;
    [|apply lift_Ok in H; destruct H as [H _]; discriminate].
  destruct (get_index pop (Num.toInt32 (Num.mul _ r2))) as [exp2|] eqn:E2;
    [|apply lift_Ok in H; destruct H as [H _]; discriminate].
  apply ret_Ok in H. destruct H as [-> _]. rewrite copyIT_id.
  destruct (Num.gtb _ _); eapply get_index_In; eassumption.
Qed.

Lemma mutate_member nvars expolim maxSize parentIT g m g' :
  (maxSize <= 2 ^ 31)%Z -> member maxSize parentIT ->
  mutate Xs ys nvars expolim parentIT g = Ok (m, g') -> member maxSize m.
Proof.
  intros Hbig (Hwf & _ & Hlen) H. unfold mutate in H.
  apply bind_Ok in H. destruct H as (r & g1 & _ & H).
  apply bind_Ok in H. destruct H as (m1 & g2 & Hm & H).
  apply bind_Ok in H. destruct H as (s & g3 & Hs & H).
  apply lift_Ok in Hs. destruct Hs as [Hs ->].
  apply ret_Ok in H. destruct H as [-> ->].
  assert (wf m1 /\ IT.length m1 = IT.length parentIT) as [Hw1 Hl1].
  { destruct (Num.gtb r (Num.Fin (1 # 2))).
    - destruct (@mutateopIT_Ok parentIT g1 m1 g2 Hwf ltac:(lia) Hm)
        as (_ & _ & _ & Hl & _ & Hw & _).
      split; assumption.
    - eapply mutatetermsIT_wf; eassumption. }
  pose proof (sanitizeIT_wf Hw1 Hs) as Hws.
  destruct (sanitizeIT_length Hw1 Hs) as [Hle Hne].
  split; [apply fitIT_wf; assumption|]. split; [apply fitIT_hasFiniteScore|].
  rewrite fitIT_length.
  assert (0 <= IT.length s)%Z by (destruct Hws as (_ & _ & ->); lia).
  specialize (Hne ltac:(lia)). lia.
Qed.

Lemma ITES_generation_members
      popSize selectedSize expolim nvars maxSize stopScore gen pop best g
      pop' best' stop g' :
  (maxSize <= 2 ^ 31)%Z -> Forall (member maxSize) pop ->
  ITES_generation Xs ys popSize selectedSize expolim nvars stopScore gen (pop, best) g
  = Ok (pop', best', stop, g') ->
  List.length pop' = Z.to_nat popSize
  /\ Forall (member maxSize) pop'
  /\ In best' pop'
  /\ Forall (fun m => Num.geb (scoreOf best') (scoreOf m) = true) pop'
  /\ stop = Num.geb (scoreOf best') stopScore.
Proof.
  intros Hbig Hpop H. unfold ITES_generation in H. cbn [fst] in H.
  apply bind_Ok in H. destruct H as (parents & g1 & Hp & H).
  apply bind_Ok in H. destruct H as (mutated & g2 & Hm & H).
  apply bind_Ok in H. destruct H as (offspring & g3 & Ho & H).
  apply bind_Ok in H. destruct H as (b & g4 & Hb & H).
  apply lift_Ok in Hb. destruct Hb as [Hb ->].
  apply ret_Ok in H. destruct H as [[= <- <- <-] ->].
  apply (Array_from_Ok (member maxSize)) in Hp.
  2:{ intros i g0 y g0' Hy. apply tournament_In in Hy.
      rewrite Forall_forall in Hpop. apply Hpop. assumption. }
  destruct Hp as [Hparents _].
  apply (mapM_Ok_In (fun _ m => member maxSize m)) in Hm.
  2:{ intros x g0 y g0' Hx Hy. eapply mutate_member; [exact Hbig| |exact Hy].
      rewrite Forall_forall in Hparents. apply Hparents. assumption. }
  assert (Forall (member maxSize) mutated) as Hmut.
  { eapply Forall2_right; [|exact Hm]. simpl. intros; assumption. }
  apply (Array_from_Ok (member maxSize)) in Ho.
  2:{ intros i g0 y g0' Hy. apply tournament_In in Hy.
      rewrite Forall_forall in Hmut. apply Hmut. assumption. }
  destruct Ho as [Hoff Hlen].
  split; [assumption|]. split; [assumption|].
  split; [apply reduce_bestScore_In; assumption|].
  split; [|reflexivity].
  destruct pop' as [|x l]; [discriminate|]. simpl in Hb. injection Hb as <-.
  inversion Hoff as [|? ? Hx Hl]; subst.
  destruct Hx as (_ & Hfx & _).
  assert (Forall hasFiniteScore l) as Hfl.
  { eapply Forall_impl; [|exact Hl]. intros a (_ & Ha & _). assumption. }
  destruct (fold_bestScore_max Hfx Hfl) as (_ & Hge & Hall).
  constructor; assumption.
Qed.

Lemma ITES_member
      popSize selectedSize minSize maxSize expolim generations stopScore g m g' :
  (1 <= minSize <= maxSize)%Z -> (maxSize <= 2 ^ 31)%Z ->
  ITES Xs ys popSize selectedSize minSize maxSize expolim generations stopScore g
  = Ok (m, g') ->
  wf m /\ (1 <= IT.length m <= maxSize)%Z.
Proof.
  intros Hsz Hbig H. unfold ITES in H.
  apply bind_Ok in H. destruct H as (nvars & g1 & _ & H).
  apply bind_Ok in H. destruct H as (pop & g2 & Hpop & H).
  apply bind_Ok in H. destruct H as (best & g3 & Hbest & H).
  apply lift_Ok in Hbest. destruct Hbest as [Hbest ->].
  apply bind_Ok in H. destruct H as (gens & g4 & _ & H).
  apply bind_Ok in H. destruct H as (st & g5 & Hloop & H).
  apply ret_Ok in H. destruct H as [-> ->].
  apply initialPopulation_member in Hpop; [|assumption].
  destruct Hpop as [_ Hpop].
  assert (Forall (member maxSize) pop) as Hmem.
  { eapply Forall_impl; [|exact Hpop]. simpl. tauto. }
  assert (member maxSize best) as Hb0.
  { rewrite Forall_forall in Hmem. apply Hmem. apply reduce_bestScore_In. assumption. }
  assert (Forall (member maxSize) (fst st) /\ member maxSize (snd st)) as [_ Hb].
  { apply (someM_invariant
             (fun st => Forall (member maxSize) (fst st) /\ member maxSize (snd st)))
      in Hloop; [assumption| |split; assumption].
    intros i [pop0 best0] g0 [[pop1 best1] stop] g0' [Hp0 _] Hgen. cbn [fst snd] in *.
    assert (Forall (member maxSize) pop1 /\ In best1 pop1) as [Hp1 Hin].
    { eapply ITES_generation_members in Hgen; [|exact Hbig|exact Hp0]. tauto. }
    split; [assumption|]. rewrite Forall_forall in Hp1. apply Hp1. assumption. }
  destruct Hb as (Hwf & _ & Hlen).
  split; [apply simplifyIT_wf; assumption|].
  unfold simplifyIT.
  pose proof (@simplifyIT_rec_length_le host Xs ys (List.length (IT.coeffs (snd st)))
                (snd st) nvars threshold_final Hwf).
  pose proof (@simplifyIT_rec_nonempty host (List.length (IT.coeffs (snd st))) (snd st)
                Xs ys nvars threshold_final ltac:(lia)).
  pose proof (@simplifyIT_rec_wf host (List.length (IT.coeffs (snd st))) (snd st) Xs ys
                nvars threshold_final Hwf) as (_ & _ & Hl).
  lia.
Qed.

End Population.

(** X22: for sizes [1 <= minSize <= maxSize], the initial population of
    ITES and ITLS holds [maxSize - minSize + 1] groups of
    [Math.round(popSize / (maxSize - minSize + 1))] models, which need not
    add up to [popSize]; every model in it has aligned arrays, a finite
    score, between 1 and [maxSize] terms, and one exponent per variable in
    every term. *)
Theorem initialPopulation_members :
  forall (host : MathHost) Xs ys popSize minSize maxSize expolim nvars g pop g',
    (1 <= minSize <= maxSize)%Z ->
    initialPopulation Xs ys popSize minSize maxSize expolim nvars g = Ok (pop, g') ->
    Z.of_nat (List.length pop)
    = ((maxSize - minSize + 1)
       * Z.max 0 (Num.round_div popSize (maxSize - minSize + 1)))%Z
    /\ Forall (fun m => member maxSize m /\ shaped nvars m) pop.
Proof.
  intros host Xs ys popSize minSize maxSize expolim nvars g pop g' Hsz H.
  eapply initialPopulation_member; eassumption.
Qed.

Lemma initialPopulation_members_witness :
  Z.of_nat (List.length [regress_before])
  = ((1 - 1 + 1) * Z.max 0 (Num.round_div 1 (1 - 1 + 1)))%Z
  /\ Forall (fun m => member 1 m /\ shaped 1 m) [regress_before].
Proof.
  apply (@initialPopulation_members nanHost regress_Xs regress_ys 1 1 1 1 1
           regress_draws [regress_before] [0; 0; 3 # 4; 0; 7 # 8; 0; 0]);
    [split; discriminate|reflexivity].
Defined.

(** X23: when [popSize] is below half the number of expression sizes
    ([2 * popSize < maxSize - minSize + 1]), every group of the initial
    population is empty, and ITES and ITLS both raise TypeError at
    [pop.reduce(bestScore)], before any search, whatever the random draws. *)
Theorem population_too_small_raises :
  forall (host : MathHost) X Xs' ys popSize selectedSize minSize maxSize expolim
         budget stopScore g,
    (minSize <= maxSize)%Z -> (maxSize - minSize + 1 < 2 ^ 32)%Z ->
    (2 * popSize < maxSize - minSize + 1)%Z ->
    ITES (X :: Xs') ys popSize selectedSize minSize maxSize expolim budget stopScore g
    = Throw TypeError
    /\ ITLS (X :: Xs') ys popSize minSize maxSize expolim budget stopScore g
       = Throw TypeError.
Proof.
  intros host X Xs' ys popSize selectedSize minSize maxSize expolim budget
         stopScore g Hsz Hbig Hsmall.
  split.
  - unfold ITES. cbn [nvarsOf]. rewrite lift_bind. unfold bind at 1.
    rewrite initialPopulation_empty by assumption. reflexivity.
  - unfold ITLS. cbn [nvarsOf]. rewrite lift_bind. unfold bind at 1.
    rewrite initialPopulation_empty by assumption. reflexivity.
Qed.

Lemma population_too_small_raises_witness :
  ITES (host:=nanHost) [[Num.Fin 1]] [Num.Fin 1] 1 1 1 3 3 50 (Num.Fin (99 # 100))
       [1 # 2]
  = Throw TypeError
  /\ ITLS (host:=nanHost) [[Num.Fin 1]] [Num.Fin 1] 1 1 3 3 50 (Num.Fin (99 # 100))
          [1 # 2]
     = Throw TypeError.
Proof.
  apply population_too_small_raises; [discriminate|reflexivity|reflexivity].
Defined.

(** X24: one generation of ITES keeps the population sound.  From a
    population whose models all have aligned arrays, a finite score and
    between 1 and [maxSize <= 2^31] terms, a generation that returns yields
    a population of exactly [popSize] such models, and its new best model
    is one of them, with a score at least that of every other; the loop
    stops exactly when that score reaches [stopScore]. *)
Theorem ITES_generation_keeps_population :
  forall (host : MathHost) Xs ys popSize selectedSize expolim nvars maxSize
         stopScore gen pop best g pop' best' stop g',
    (maxSize <= 2 ^ 31)%Z -> Forall (member maxSize) pop ->
    ITES_generation Xs ys popSize selectedSize expolim nvars stopScore gen
                    (pop, best) g
    = Ok (pop', best', stop, g') ->
    List.length pop' = Z.to_nat popSize
    /\ Forall (member maxSize) pop'
    /\ In best' pop'
    /\ Forall (fun m => Num.geb (scoreOf best') (scoreOf m) = true) pop'
    /\ stop = Num.geb (scoreOf best') stopScore.
Proof.
  intros host Xs ys popSize selectedSize expolim nvars maxSize stopScore gen pop
         best g pop' best' stop g' Hbig Hpop H.
  eapply ITES_generation_members; eassumption.
Qed.

Lemma ITES_generation_keeps_population_witness :
  List.length [regress_after] = Z.to_nat 1
  /\ Forall (member 1) [regress_after]
  /\ In regress_after [regress_after]
  /\ Forall (fun m => Num.geb (scoreOf regress_after) (scoreOf m) = true)
            [regress_after]
  /\ false = Num.geb (scoreOf regress_after) (Num.Fin (99 # 100)).
Proof.
  apply (@ITES_generation_keeps_population nanHost regress_Xs regress_ys 1 1 1 1 1
           (Num.Fin (99 # 100)) 0 [regress_before] regress_before
           [0; 0; 3 # 4; 0; 7 # 8; 0; 0] [regress_after] regress_after false []);
    [discriminate| |reflexivity].
  repeat constructor; try discriminate. eexists; reflexivity.
Defined.

(** X25: for sizes [1 <= minSize <= maxSize <= 2^31], a model that ITES
    returns has aligned arrays and between 1 and [maxSize] terms. *)
Theorem ITES_returns_a_member :
  forall (host : MathHost) Xs ys popSize selectedSize minSize maxSize expolim
         generations stopScore g m g',
    (1 <= minSize <= maxSize)%Z -> (maxSize <= 2 ^ 31)%Z ->
    ITES Xs ys popSize selectedSize minSize maxSize expolim generations stopScore g
    = Ok (m, g') ->
    wf m /\ (1 <= IT.length m <= maxSize)%Z.
Proof.
  intros host Xs ys popSize selectedSize minSize maxSize expolim generations
         stopScore g m g' Hsz Hbig H.
  eapply ITES_member; eassumption.
Qed.

Lemma ITES_returns_a_member_witness :
  wf regress_after /\ (1 <= IT.length regress_after <= 1)%Z.
Proof.
  apply (@ITES_returns_a_member nanHost regress_Xs regress_ys 1 1 1 1 1 0
           (Num.Fin (99 # 100)) regress_draws regress_after []);
    [split; discriminate|discriminate|reflexivity].
Defined.

(** ** The neighbourhood of ITLS *)

Lemma indices_In n k : In k (indices n) <-> (k < Z.to_nat n)%nat.
Proof. unfold indices. rewrite in_seq. lia. Qed.

Lemma mapR_In {A B : Type} (f : A -> result B) l ys x :
  mapR f l = Ok ys -> In x l -> exists y, f x = Ok y /\ In y ys.
Proof.
  revert ys. induction l as [|a l IH]; intros ys H Hin; [destruct Hin|].
  simpl in H. apply rbind_Ok in H. destruct H as (y & Hy & H).
  apply rbind_Ok in H. destruct H as (ys' & Hys & [= <-]).
  destruct Hin as [<-|Hin].
  - exists y. split; [assumption|left; reflexivity].
  - destruct (IH _ Hys Hin) as (y' & Hy' & Hin'). exists y'.
    split; [assumption|right; assumption].
Qed.

Lemma funsKeys_complete f : exists opIdx, nth_error funsKeys opIdx = Some f.
Proof.
  destruct f;
    [exists 0%nat|exists 1%nat|exists 2%nat|exists 3%nat
     |exists 4%nat|exists 5%nat|exists 6%nat|exists 7%nat]; reflexivity.
Qed.

Lemma somes_In {A : Type} (l : list (option A)) x : In (Some x) l -> In x (somes l).
Proof.
  intros H. unfold somes. apply in_flat_map. exists (Some x).
  split; [assumption|left; reflexivity].
Qed.

Lemma neighbor_Ok_inv best nvars termIdx opIdx tIdx inc n :
  wf best -> shaped nvars best ->
  neighbor best termIdx opIdx tIdx inc = Ok (Some n) ->
  wf n /\ shaped nvars n /\ IT.length n = IT.length best.
Proof.
  intros (Hf & Hc & Hl) Hsh H. unfold neighbor in H. rewrite copyIT_id in H.
  destruct (nth_error (IT.terms best) termIdx) as [term|] eqn:Et; [|discriminate].
  destruct (nth_error term tIdx) as [t|] eqn:Ett; [|discriminate].
  apply rbind_Ok in H. destruct H as (term' & Hterm' & H).
  apply rbind_Ok in H. destruct H as (terms & Hterms & H).
  destruct (nth_error funsKeys opIdx) as [f|]; [|discriminate].
  apply rbind_Ok in H. destruct H as (funcs & Hfuncs & H).
  destruct (every_zero term'); [discriminate|]. injection H as <-.
  assert (tIdx < List.length term)%nat as Ht1 by (apply nth_error_Some; congruence).
  assert (termIdx < List.length (IT.terms best))%nat as Ht2
      by (apply nth_error_Some; congruence).
  pose proof (set_nth_inside _ _ Ht1 Hterm') as R1.
  pose proof (set_nth_inside _ _ Ht2 Hterms) as R2.
  assert (termIdx < List.length (IT.funcs best))%nat as Ht3 by lia.
  pose proof (set_nth_inside _ _ Ht3 Hfuncs) as R3.
  unfold wf, shaped. cbn [IT.terms IT.funcs IT.coeffs IT.length].
  rewrite (replacedAt_length R2), (replacedAt_length R3).
  split; [tauto|]. split; [|reflexivity].
  eapply replacedAt_Forall; [exact R2| |exact Hsh].
  rewrite (replacedAt_length R1).
  unfold shaped in Hsh. rewrite Forall_forall in Hsh. apply Hsh.
  eapply nth_error_In; eassumption.
Qed.

Lemma neighbor_total best nvars termIdx opIdx tIdx inc :
  wf best -> shaped nvars best ->
  (termIdx < List.length (IT.terms best))%nat ->
  (opIdx < List.length funsKeys)%nat ->
  (tIdx < Z.to_nat nvars)%nat ->
  exists o, neighbor best termIdx opIdx tIdx inc = Ok o.
Proof.
  intros (Hf & Hc & Hl) Hsh H1 H2 H3. unfold neighbor. rewrite copyIT_id.
  destruct (nth_error_lt_Some _ H1) as (term & Et). rewrite Et.
  assert (List.length term = Z.to_nat nvars) as Hlen.
  { unfold shaped in Hsh. rewrite Forall_forall in Hsh. apply Hsh.
    eapply nth_error_In; eassumption. }
  destruct (@nth_error_lt_Some _ term tIdx ltac:(lia)) as (t & Ett). rewrite Ett.
  destruct (@set_nth_total _ tIdx (t + inc)%Z term ltac:(lia)) as (term' & ->).
  cbn [rbind].
  destruct (@set_nth_total _ termIdx term' (IT.terms best) ltac:(lia)) as (terms & ->).
  cbn [rbind].
  destruct (nth_error_lt_Some _ H2) as (f & ->).
  destruct (@set_nth_total _ termIdx f (IT.funcs best) ltac:(lia)) as (funcs & ->).
  cbn [rbind]. eexists. reflexivity.
Qed.

(** On a model with aligned arrays and one exponent per variable the
    neighbourhood is built without an exception. *)
Lemma neighbors_total best nvars :
  wf best -> shaped nvars best ->
  exists ns, neighbors best nvars = Ok ns /\ Forall (neighbourly nvars best) ns.
Proof.
  intros Hwf Hsh. unfold neighbors.
  assert (Z.to_nat (IT.length best) = List.length (IT.terms best)) as Hlen.
  { destruct Hwf as (_ & _ & ->). lia. }
  destruct (@mapR_total _ _
              (fun termIdx => (termIdx < List.length (IT.terms best))%nat)
              (Forall (neighbourly nvars best))
              (fun termIdx =>
                 per_op <-? mapR (fun opIdx =>
                   per_var <-? mapR (fun tIdx =>
                     per_inc <-? mapR (neighbor best termIdx opIdx tIdx)
                                      [(-1)%Z; 0%Z; 1%Z] ;;
                     Ok (somes per_inc))
                     (indices nvars) ;;
                   Ok (concat per_var))
                   (indices (Z.of_nat (List.length funsKeys))) ;;
                 Ok (concat per_op))
              (indices (IT.length best))) as (per_term & -> & Hall & _).
  - intros termIdx H1.
    destruct (@mapR_total _ _
                (fun opIdx => (opIdx < List.length funsKeys)%nat)
                (Forall (neighbourly nvars best))
                (fun opIdx =>
                   per_var <-? mapR (fun tIdx =>
                     per_inc <-? mapR (neighbor best termIdx opIdx tIdx)
                                      [(-1)%Z; 0%Z; 1%Z] ;;
                     Ok (somes per_inc))
                     (indices nvars) ;;
                   Ok (concat per_var))
                (indices (Z.of_nat (List.length funsKeys)))) as (per_op & -> & Hall & _).
    + intros opIdx H2.
      destruct (@mapR_total _ _
                  (fun tIdx => (tIdx < Z.to_nat nvars)%nat)
                  (Forall (neighbourly nvars best))
                  (fun tIdx =>
                     per_inc <-? mapR (neighbor best termIdx opIdx tIdx)
                                      [(-1)%Z; 0%Z; 1%Z] ;;
                     Ok (somes per_inc))
                  (indices nvars)) as (per_var & -> & Hall & _).
      * intros tIdx H3.
        destruct (@mapR_total _ _ (fun _ => True)
                    (fun o => match o with
                              | Some n => neighbourly nvars best n
                              | None => True
                              end)
                    (neighbor best termIdx opIdx tIdx)
                    [(-1)%Z; 0%Z; 1%Z]) as (per_inc & -> & Hall & _).
        -- intros inc _.
           destruct (@neighbor_total best nvars termIdx opIdx tIdx inc Hwf Hsh H1 H2 H3)
             as (o & Ho).
           exists o. split; [assumption|]. destruct o as [n|]; [|exact I].
           assert (wf n /\ shaped nvars n /\ IT.length n = IT.length best)
             as (Hw & Hs & Hl) by (eapply neighbor_Ok_inv; eassumption).
           assert (IT.score n = IT.score best) as Hsc
               by (apply (neighbor_score best termIdx opIdx tIdx inc Ho)).
           repeat split; try assumption; apply Hw.
        -- repeat constructor.
        -- cbn [rbind]. eexists. split; [reflexivity|].
           apply Forall_somes. assumption.
      * apply Forall_forall. intros k Hk. apply indices_In in Hk. assumption.
      * cbn [rbind]. eexists. split; [reflexivity|]. apply Forall_concat. assumption.
    + apply Forall_forall. intros k Hk. apply indices_In in Hk. lia.
    + cbn [rbind]. eexists. split; [reflexivity|]. apply Forall_concat. assumption.
  - apply Forall_forall. intros k Hk. apply indices_In in Hk. lia.
  - cbn [rbind]. eexists. split; [reflexivity|]. apply Forall_concat. assumption.
Qed.

(** The neighbour for increment 0 and the term's own function. *)
Lemma neighbor_self best termIdx opIdx term f :
  nth_error (IT.terms best) termIdx = Some term ->
  nth_error (IT.funcs best) termIdx = Some f ->
  nth_error funsKeys opIdx = Some f ->
  every_zero term = false ->
  neighbor best termIdx opIdx 0 0 = Ok (Some best).
Proof.
  intros Ht Hf Hop Hz. unfold neighbor. rewrite copyIT_id, Ht.
  destruct term as [|t term']; [discriminate|].
  cbn [nth_error set_nth rbind]. rewrite Z.add_0_r.
  rewrite (set_nth_same _ _ Ht). cbn [rbind]. rewrite Hop.
  rewrite (set_nth_same _ _ Hf). cbn [rbind]. rewrite Hz.
  destruct best; reflexivity.
Qed.

(** X26: for a best model with aligned arrays, one exponent per variable
    in every term, at least one variable and a term that is not all zero,
    ITLS builds its neighbourhood without an exception; every neighbour has
    aligned arrays and the [length], the coefficients' count and the
    (stale) score of the best model; and the best model itself is one of
    its neighbours. *)
Theorem ITLS_best_is_own_neighbor :
  forall best nvars termIdx term,
    wf best -> shaped nvars best -> (1 <= nvars)%Z ->
    nth_error (IT.terms best) termIdx = Some term ->
    every_zero term = false ->
    exists ns,
      neighbors best nvars = Ok ns
      /\ Forall (neighbourly nvars best) ns
      /\ In best ns.
Proof.
  intros best nvars termIdx term Hwf Hsh Hnv Ht Hz.
  destruct (neighbors_total Hwf Hsh) as (ns & H & Hall).
  exists ns. split; [assumption|]. split; [assumption|].
  assert (termIdx < List.length (IT.terms best))%nat as Hk
      by (apply nth_error_Some; congruence).
  destruct (@nth_error_lt_Some _ (IT.funcs best) termIdx) as (f & Hf).
  { destruct Hwf as (-> & _). assumption. }
  destruct (funsKeys_complete f) as (opIdx & Hop).
  pose proof (@neighbor_self best termIdx opIdx term f Ht Hf Hop Hz) as Hself.
  unfold neighbors in H.
  apply rbind_Ok in H. destruct H as (per_term & Hpt & [= <-]).
  apply in_concat.
  destruct (mapR_In _ _ termIdx Hpt) as (group1 & H1 & Hin1).
  { apply indices_In. destruct Hwf as (_ & _ & ->). lia. }
  exists group1. split; [assumption|].
  apply rbind_Ok in H1. destruct H1 as (per_op & Hpo & [= <-]).
  apply in_concat.
  destruct (mapR_In _ _ opIdx Hpo) as (group2 & H2 & Hin2).
  { apply indices_In. rewrite Nat2Z.id. apply nth_error_Some. congruence. }
  exists group2. split; [assumption|].
  apply rbind_Ok in H2. destruct H2 as (per_var & Hpv & [= <-]).
  apply in_concat.
  destruct (mapR_In _ _ 0%nat Hpv) as (group3 & H3 & Hin3).
  { apply indices_In. lia. }
  exists group3. split; [assumption|].
  apply rbind_Ok in H3. destruct H3 as (per_inc & Hpi & [= <-]).
  apply somes_In.
  destruct (mapR_In _ _ 0%Z Hpi) as (o & Ho & Hino).
  { right. left. reflexivity. }
  rewrite Hself in Ho. injection Ho as <-. assumption.
Qed.

Lemma ITLS_best_is_own_neighbor_witness :
  exists ns,
    neighbors regress_after 1 = Ok ns
    /\ Forall (neighbourly 1 regress_after) ns
    /\ In regress_after ns.
Proof.
  apply (@ITLS_best_is_own_neighbor regress_after 1 0 [1%Z]);
    [repeat split|repeat constructor|discriminate|reflexivity|reflexivity].
Defined.

(** ** The loop of ITLS *)

Section LocalLoop.

Context {host : MathHost}.

Variables (Xs : list (list Num.num)) (ys : list Num.num).

Lemma ITLS_accept_total nvars bound best neigh :
  tracked nvars bound best -> tracked nvars bound neigh ->
  exists best', ITLS_accept Xs ys best neigh = Ok best' /\ tracked nvars bound best'.
Proof.
  intros Hb (Hwn & Hsn & Hln). unfold ITLS_accept.
  destruct (sanitizeIT_total Hwn) as (returned & Hret).
  pose proof Hret as Hret'. unfold sanitizeIT in Hret'.
  destruct (sanitize_inplace neigh) as [spliced|e] eqn:Hsp; [|discriminate].
  cbn [rbind] in *. rewrite Hret. cbn [rbind].
  eexists. split; [reflexivity|].
  destruct (Num.gtb _ _); [|assumption].
  pose proof (sanitize_inplace_wf Hwn Hsp) as Hws.
  pose proof (sanitize_inplace_shaped Hsn Hsp) as Hss.
  pose proof (sanitize_inplace_length Hwn Hsp) as Hls.
  destruct (IT.length spliced =? 0)%Z eqn:E.
  - split; [assumption|]. split; [assumption|lia].
  - injection Hret' as <-.
    split; [apply fitIT_wf; assumption|].
    split; [unfold shaped; rewrite fitIT_terms; assumption|].
    rewrite fitIT_length. lia.
Qed.

Lemma ITLS_scan_total nvars bound stopScore ns :
  Forall (tracked nvars bound) ns ->
  forall best, tracked nvars bound best ->
    exists best' stop,
      ITLS_scan Xs ys stopScore best ns = Ok (best', stop)
      /\ tracked nvars bound best'.
Proof.
  induction 1 as [|neigh ns Hn _ IH]; intros best Hb; simpl.
  - exists best, false. split; [reflexivity|assumption].
  - destruct (ITLS_accept_total Hb Hn) as (best1 & -> & Hb1). cbn [rbind].
    destruct (Num.geb _ _).
    + exists best1, true. split; [reflexivity|assumption].
    + apply IH. assumption.
Qed.

Lemma ITLS_iteration_total nvars bound stopScore i best :
  tracked nvars bound best ->
  exists best' stop,
    ITLS_iteration Xs ys nvars stopScore i best = Ok (best', stop)
    /\ tracked nvars bound best'.
Proof.
  intros Hb. unfold ITLS_iteration.
  destruct Hb as (Hw & Hs & Hl).
  destruct (neighbors_total Hw Hs) as (ns & -> & Hns). cbn [rbind].
  apply ITLS_scan_total; [|split; [assumption|split; assumption]].
  eapply Forall_impl; [|exact Hns]. intros n (Hwn & Hsn & Hln & _).
  split; [assumption|]. split; [assumption|lia].
Qed.

Lemma ITLS_loop_tracked nvars bound stopScore its :
  forall best, tracked nvars bound best ->
    exists best',
      someR (ITLS_iteration Xs ys nvars stopScore) its best = Ok best'
      /\ tracked nvars bound best'.
Proof.
  induction its as [|i its IH]; intros best Hb; simpl.
  - exists best. split; [reflexivity|assumption].
  - destruct (@ITLS_iteration_total nvars bound stopScore i best Hb)
      as (best1 & stop & -> & Hb1). cbn [rbind fst snd].
    destruct stop.
    + exists best1. split; [reflexivity|assumption].
    + apply IH. assumption.
Qed.

End LocalLoop.

(** X27: once its initial population is built and is not empty, ITLS
    returns: for sizes [1 <= minSize <= maxSize] and a budget
    [0 <= iterations < 2^32], the loop over the neighbourhoods raises no
    exception and consumes no random draw, and the model returned has
    aligned arrays and at most [maxSize] terms. *)
Theorem ITLS_total_after_population :
  forall (host : MathHost) X Xs' ys popSize minSize maxSize expolim iterations
         stopScore g pop g',
    (1 <= minSize <= maxSize)%Z -> (0 <= iterations < 2 ^ 32)%Z ->
    initialPopulation (X :: Xs') ys popSize minSize maxSize expolim
                      (Z.of_nat (List.length X)) g = Ok (pop, g') ->
    pop <> [] ->
    exists m,
      ITLS (X :: Xs') ys popSize minSize maxSize expolim iterations stopScore g
      = Ok (m, g')
      /\ wf m /\ (IT.length m <= maxSize)%Z.
Proof.
  intros host X Xs' ys popSize minSize maxSize expolim iterations stopScore g pop g'
         Hsz Hit Hpop Hne.
  unfold ITLS. cbn [nvarsOf]. rewrite lift_bind. unfold bind at 1. rewrite Hpop.
  destruct pop as [|x pop']; [congruence|].
  cbn [reduce_bestScore]. rewrite lift_bind.
  destruct (@range_total 0 iterations ltac:(lia)) as (its & ->).
  rewrite lift_bind.
  set (nvars := Z.of_nat (List.length X)) in *.
  set (best := fold_left bestScore pop' x).
  assert (In best (x :: pop')) as Hin by apply bestScore_fold_In.
  apply (initialPopulation_member (X :: Xs') ys) in Hpop; [|assumption].
  destruct Hpop as [_ Hmem].
  rewrite Forall_forall in Hmem.
  destruct (Hmem _ Hin) as ((Hw & _ & Hlen) & Hsh).
  destruct (@ITLS_loop_tracked host (X :: Xs') ys nvars maxSize stopScore its best)
    as (best' & Hloop & Hw' & _ & Hl').
  { split; [assumption|]. split; [assumption|lia]. }
  unfold bind, lift. rewrite Hloop. unfold ret.
  eexists. split; [reflexivity|].
  split; [apply simplifyIT_wf; assumption|].
  etransitivity; [apply simplifyIT_rec_length_le; assumption|assumption].
Qed.

Lemma ITLS_total_after_population_witness :
  exists m,
    ITLS (host:=nanHost) regress_Xs regress_ys 1 1 1 1 2 (Num.Fin (99 # 100))
         regress_draws
    = Ok (m, [0; 0; 3 # 4; 0; 7 # 8; 0; 0])
    /\ wf m /\ (IT.length m <= 1)%Z.
Proof.
  apply (@ITLS_total_after_population nanHost [Num.Fin (-1)] [] regress_ys 1 1 1 1 2
           (Num.Fin (99 # 100)) regress_draws [regress_before]
           [0; 0; 3 # 4; 0; 7 # 8; 0; 0]);
    [split; discriminate|split; [discriminate|reflexivity]|reflexivity|discriminate].
Defined.

(** ** The tree of SYMTREE *)

Lemma flat_map_length_const {A B : Type} (f : A -> list B) l c :
  (forall x, In x l -> List.length (f x) = c) ->
  List.length (flat_map f l) = (List.length l * c)%nat.
Proof.
  induction l as [|x l IH]; intros H; simpl; [reflexivity|].
  rewrite length_app, (H x (or_introl eq_refl)), IH; [reflexivity|].
  intros y Hy. apply H. right. assumption.
Qed.

Lemma triangle_length {B : Type} (F : nat -> list B) a s len :
  forall a0,
    (forall j, (a0 <= j < a0 + len)%nat ->
               List.length (F j) = ((a0 + len - j) * a + s)%nat) ->
    (2 * List.length (flat_map F (seq a0 len))
     = len * (len + 1) * a + 2 * len * s)%nat.
Proof.
  induction len as [|len IH]; intros a0 H; [reflexivity|].
  cbn [seq flat_map]. rewrite length_app, (H a0) by lia.
  assert (2 * List.length (flat_map F (seq (S a0) len))
          = len * (len + 1) * a + 2 * len * s)%nat as E.
  { apply IH. intros j Hj. rewrite H by lia. f_equal. f_equal. lia. }
  replace (a0 + S len - a0)%nat with (S len) by lia. nia.
Qed.

Lemma swapPure_length leaf j :
  (j < List.length (IT.funcs leaf))%nat -> List.length (swapPure leaf j) = 7%nat.
Proof.
  intros Hj. unfold swapPure.
  destruct (nth_error_lt_Some _ Hj) as (f & ->).
  destruct f; reflexivity.
Qed.

(** X28: a leaf with [n] terms and aligned arrays gives SYMTREE
    [n (n + 1) / 2] candidate terms before iteration [minI], twice as many
    from iteration [minI] on, and [7 n] more from iteration [minT] on (one
    for each term and each of the seven other functions). *)
Theorem SYMTREE_candidate_count :
  forall i minI minT leaf,
    wf leaf ->
    exists toExpand,
      candidates i minI minT leaf = Ok toExpand
      /\ (2 * List.length toExpand
          = List.length (IT.terms leaf) * (List.length (IT.terms leaf) + 1)
            * (if (minI <=? i)%Z then 2 else 1)
            + 2 * List.length (IT.terms leaf) * (if (minT <=? i)%Z then 7 else 0))%nat.
Proof.
  intros i minI minT leaf Hwf. exists (candidatesPure i minI minT leaf).
  split; [apply candidates_Ok; assumption|].
  unfold candidatesPure.
  apply triangle_length. intros j Hj. rewrite length_app. f_equal.
  - rewrite (@flat_map_length_const _ _ _ _ (if (minI <=? i)%Z then 2 else 1)%nat).
    + rewrite length_seq. f_equal.
    + intros k _. unfold pairPure. destruct (minI <=? i)%Z; reflexivity.
  - destruct (minT <=? i)%Z; [|reflexivity].
    apply swapPure_length. destruct Hwf as (-> & _). lia.
Qed.

Lemma SYMTREE_candidate_count_witness :
  exists toExpand,
    candidates 2 1 2 root2 = Ok toExpand
    /\ (2 * List.length toExpand
        = List.length (IT.terms root2) * (List.length (IT.terms root2) + 1)
          * (if (1 <=? 2)%Z then 2 else 1)
          + 2 * List.length (IT.terms root2) * (if (2 <=? 2)%Z then 7 else 0))%nat.
Proof.
  apply SYMTREE_candidate_count. repeat split.
Defined.

Lemma concat_length_ge {A : Type} (ls : list (list A)) :
  Forall (fun l => l <> []) ls -> (List.length ls <= List.length (concat ls))%nat.
Proof.
  induction 1 as [|l ls Hl _ IH]; simpl; [apply Nat.le_refl|].
  rewrite length_app. destruct l; [congruence|simpl; lia].
Qed.

(** X29: an iteration of SYMTREE drops no branch: from leaves with aligned
    arrays, an iteration that returns yields at least as many leaves as it
    was given (every leaf is replaced by its children, or kept when it has
    none), all with aligned arrays. *)
Theorem SYMTREE_keeps_every_branch :
  forall (host : MathHost) Xs ys nvars threshold minI minT stopScore i leaves
         leaves' stop,
    Forall wf leaves ->
    SYMTREE_iteration Xs ys nvars threshold minI minT stopScore i leaves
    = Ok (leaves', stop) ->
    (List.length leaves <= List.length leaves')%nat /\ Forall wf leaves'.
Proof.
  intros host Xs ys nvars threshold minI minT stopScore i leaves leaves' stop Hwf H.
  unfold SYMTREE_iteration in H.
  apply rbind_Ok in H. destruct H as (nodes & Hn & H).
  apply rbind_Ok in H. destruct H as (b & _ & [= <- <-]).
  destruct (@mapR_total _ _ wf (fun cs => cs <> [] /\ Forall wf cs)
              (expandLeaf Xs ys nvars threshold i minI minT) leaves)
    as (nodes' & Hn' & Hall & Hlen).
  { intros leaf Hl. destruct (expandLeaf_Ok Xs ys nvars threshold i minI minT Hl)
      as (children & Hc & Hcne & Hcw).
    exists children. split; [assumption|]. split; assumption. }
  { assumption. }
  rewrite Hn in Hn'. injection Hn' as <-.
  split.
  - rewrite <- Hlen. apply concat_length_ge.
    eapply Forall_impl; [|exact Hall]. simpl. tauto.
  - apply Forall_concat. eapply Forall_impl; [|exact Hall]. simpl. tauto.
Qed.

Lemma SYMTREE_keeps_every_branch_witness :
  (List.length [tree_before] <= List.length [tree_after])%nat
  /\ Forall wf [tree_after].
Proof.
  apply (@SYMTREE_keeps_every_branch nanHost tree_Xs tree_ys 1 (Num.Fin 1) 100 100
           (Num.Fin 1) 0 [tree_before] [tree_after] false);
    [repeat constructor|reflexivity].
Defined.

(** ** Printing *)

Module PrintingFacts.

Import Ascii String Printing.
Local Open Scope string_scope.

Lemma variable_nonEmpty a : nonEmpty (format "x{0}" [a]) = true.
Proof. reflexivity. Qed.

Lemma power_nonEmpty a b : nonEmpty (format "x{0}^{{1}}" [a; b]) = true.
Proof. reflexivity. Qed.

(** A round pushes one factor, which is not empty, unless the exponent is
    0. *)
Lemma pushFactor_step acc t index :
  allNonEmpty acc ->
  allNonEmpty (pushFactor acc (t, index))
  /\ (if (t =? 0)%Z then pushFactor acc (t, index) = acc
      else pushedCount (pushFactor acc (t, index)) = S (pushedCount acc)).
Proof.
  destruct acc as [nom den]. intros [Hn Hd].
  unfold pushFactor, pushedCount, allNonEmpty.
  cbn [fst snd] in *.
  destruct (t =? 1)%Z eqn:E1.
  { apply Z.eqb_eq in E1. subst t. cbn [fst snd Z.eqb].
    split; [split; [apply Forall_app; split; [assumption|]|assumption]|].
    - constructor; [apply variable_nonEmpty|constructor].
    - rewrite length_app. simpl. lia. }
  destruct (1 <? t)%Z eqn:E2.
  { apply Z.ltb_lt in E2. replace (t =? 0)%Z with false
      by (symmetry; apply Z.eqb_neq; lia). cbn [fst snd].
    split; [split; [apply Forall_app; split; [assumption|]|assumption]|].
    - constructor; [apply power_nonEmpty|constructor].
    - rewrite length_app. simpl. lia. }
  destruct (t =? -1)%Z eqn:E3.
  { apply Z.eqb_eq in E3. subst t. cbn [fst snd Z.eqb].
    split; [split; [assumption|apply Forall_app; split; [assumption|]]|].
    - constructor; [apply variable_nonEmpty|constructor].
    - rewrite length_app. simpl. lia. }
  destruct (t <? -1)%Z eqn:E4.
  { apply Z.ltb_lt in E4. replace (t =? 0)%Z with false
      by (symmetry; apply Z.eqb_neq; lia). cbn [fst snd].
    split; [split; [assumption|apply Forall_app; split; [assumption|]]|].
    - constructor; [apply power_nonEmpty|constructor].
    - rewrite length_app. simpl. lia. }
  apply Z.eqb_neq in E1. apply Z.ltb_ge in E2. apply Z.eqb_neq in E3.
  apply Z.ltb_ge in E4.
  replace (t =? 0)%Z with true by (symmetry; apply Z.eqb_eq; lia).
  split; [split; assumption|reflexivity].
Qed.

Lemma fold_pushFactor term :
  forall s acc,
    allNonEmpty acc ->
    let r := fold_left pushFactor (combine term (seq s (List.length term))) acc in
    allNonEmpty r
    /\ (if every_zero term then r = acc
        else (pushedCount acc < pushedCount r)%nat).
Proof.
  induction term as [|t term IH]; intros s acc Hacc;
    cbn [List.length seq combine fold_left].
  - split; [assumption|reflexivity].
  - destruct (pushFactor_step t s Hacc) as [H1 H2].
    destruct (IH (S s) _ H1) as [H3 H4]. cbv zeta in *.
    split; [assumption|].
    cbn [every_zero forallb]. fold (every_zero term).
    destruct (t =? 0)%Z; cbn [andb].
    + rewrite H2 in *. assumption.
    + destruct (every_zero term).
      * rewrite H4, H2. lia.
      * lia.
Qed.

Lemma filter_allNonEmpty l :
  Forall (fun s => nonEmpty s = true) l -> filter nonEmpty l = l.
Proof.
  induction 1 as [|x l Hx _ IH]; simpl; [reflexivity|].
  rewrite Hx, IH. reflexivity.
Qed.

Lemma length_append a b :
  String.length (a ++ b) = (String.length a + String.length b)%nat.
Proof. induction a as [|c a IH]; simpl; [reflexivity|]. rewrite IH. reflexivity. Qed.

Lemma nonEmpty_length s : nonEmpty s = true -> (0 < String.length s)%nat.
Proof. destruct s; [discriminate|simpl; lia]. Qed.

(** Joining strings that are not empty gives the empty string only for
    the empty list. *)
Lemma concat_empty sep l :
  Forall (fun s => nonEmpty s = true) l ->
  ((String.length (String.concat sep l) =? 0)%nat = true <-> l = []).
Proof.
  intros H. split.
  - intros E. apply Nat.eqb_eq in E. destruct H as [|x l Hx Hl]; [reflexivity|].
    apply nonEmpty_length in Hx. exfalso.
    destruct l as [|y l]; simpl in E; [lia|].
    rewrite length_append in E. lia.
  - intros ->. reflexivity.
Qed.

Section Facts.

Context {numberHost : NumberHost}.

Lemma latexTerm_None c f term :
  latexTerm c f term = None <-> every_zero term = true.
Proof.
  unfold latexTerm.
  destruct (@fold_pushFactor term 0 ([], [])) as [[Hn Hd] Hz].
  { split; constructor. }
  cbv zeta in Hz.
  set (pushed := fold_left pushFactor (combine term (seq 0 (List.length term))) ([], []))
    in *.
  rewrite (filter_allNonEmpty Hn), (filter_allNonEmpty Hd).
  pose proof (concat_empty " \cdot " Hn) as En.
  pose proof (concat_empty " \cdot " Hd) as Ed.
  destruct (every_zero term).
  - rewrite Hz. simpl. tauto.
  - unfold pushedCount in Hz. simpl in Hz.
    destruct (String.length (concat " \cdot " (fst pushed)) =? 0)%nat eqn:E1;
      destruct (String.length (concat " \cdot " (snd pushed)) =? 0)%nat eqn:E2;
      cbn [andb]; try (split; discriminate).
    exfalso. rewrite (proj1 En eq_refl), (proj1 Ed eq_refl) in Hz. simpl in Hz. lia.
Qed.

Lemma latexList_undefined m :
  wf m ->
  map isUndefined (printIT_latex_list m) = map every_zero (IT.terms m).
Proof.
  intros (Hf & Hc & _). unfold printIT_latex_list.
  rewrite (zip3_nth _ _ _ Num.NaN Fid [] Hc Hf), !map_map.
  assert (map every_zero (IT.terms m)
          = map (fun k => every_zero (nth k (IT.terms m) []))
                (seq 0 (List.length (IT.terms m)))) as ->.
  { rewrite <- (map_map (fun k => nth k (IT.terms m) []) every_zero).
    rewrite map_nth_seq. reflexivity. }
  apply map_ext. intros k.
  pose proof (latexTerm_None (nth k (IT.coeffs m) Num.NaN) (nth k (IT.funcs m) Fid)
                             (nth k (IT.terms m) [])) as [H1 H2].
  destruct (latexTerm _ _ (nth k (IT.terms m) [])) eqn:E; cbn [isUndefined].
  - destruct (every_zero (nth k (IT.terms m) [])) eqn:Z; [|reflexivity].
    specialize (H2 eq_refl). discriminate.
  - symmetry. apply H1. reflexivity.
Qed.

End Facts.

End PrintingFacts.

(** X30: [printIT_latex] leaves out exactly the terms whose exponents are
    all zero, whatever their coefficient and function: the summand of a
    term is [undefined] if and only if every exponent of the term is 0, so
    that, for a model with aligned arrays, [printIT_latex(IT, false)] holds
    [undefined] at exactly the positions of the all-zero terms. *)
Theorem printIT_latex_omits_constant_terms :
  forall (numberHost : Printing.NumberHost),
    (forall c f term,
        Printing.latexTerm c f term = None <-> every_zero term = true)
    /\ (forall m,
          wf m ->
          map Printing.isUndefined (Printing.printIT_latex_list m)
          = map every_zero (IT.terms m)).
Proof.
  intros numberHost. split.
  - intros c f term. apply PrintingFacts.latexTerm_None.
  - intros m Hwf. apply PrintingFacts.latexList_undefined. assumption.
Qed.

Lemma printIT_latex_omits_constant_terms_witness :
  map Printing.isUndefined
      (Printing.printIT_latex_list (numberHost:=Printing.constantHost) with_constant)
  = map every_zero (IT.terms with_constant).
Proof.
  apply (proj2 (printIT_latex_omits_constant_terms Printing.constantHost)).
  repeat split.
Defined.
